(** * AppCat validation harness: incident normalisation, baseline diff, aggregation

    A shallow embedding of the Go sources

      - [src/testcase/testcase.go]: [ParseAppCatOutput], [RunValidate],
        [RunAnalyze], [RunAppCat], [Run];
      - [src/main.go]: the cross-project summary CSV, and, from the revision
        of the driver that calls the two-valued [Run] of [testcase.go], the
        loop over the test cases;
      - the superseded stand-alone driver: its rule -> project summary;
      - [src/main.go]: [initTesting] and the report of the results;
      - [src/logger/logger.go]: [Init] and [Get].

    Go maps are [gmap string _]; Go [int] is a 64-bit two's-complement
    integer carried in [Z] with its wrap-around written out; strings are
    byte strings ([string]); the logger, the file system and process
    termination ([log.Logger.Fatalf] calls [os.Exit(1)]) are threaded
    through a small state-and-exit monad. *)

From Stdlib Require Import ZArith Lia.
From stdpp Require Import gmap strings list fin_maps pretty.

Open Scope Z_scope.

(** ** Go integers *)

(** Go's [int] on the 64-bit targets the tool is built for. *)
Definition int_min : Z := - 2 ^ 63.
Definition int_max : Z := 2 ^ 63 - 1.

(** Two's-complement wrap-around of [+], [++] and [+=] on [int]. *)
Definition int_wrap (z : Z) : Z := (z + 2 ^ 63) mod 2 ^ 64 - 2 ^ 63.

Definition int_add (a b : Z) : Z := int_wrap (a + b).

Definition in_int (z : Z) : Prop := int_min ≤ z ≤ int_max.

(** ** Go strings *)

(** The line feed that Go writes as the escape [\n]. *)
Definition LF : string := String (Ascii.ascii_of_nat 10) EmptyString.

(** [const lineDelimiter = "\n"] *)
Definition lineDelimiter : string := LF.

(** The verb [%d] (and [%v] on an [int]): signed decimal. *)
Definition itoa (z : Z) : string := pretty z.

(** [strings.Index(s, substr)]: index of the first instance of [substr] in
    [s], or [-1] when there is none. *)
Fixpoint Index (s substr : string) : Z :=
  if String.prefix substr s then 0
  else match s with
       | EmptyString => -1
       | String _ s' =>
           let i := Index s' substr in
           if i =? -1 then -1 else i + 1
       end.

(** The slice expression [s[i:]].  Go panics when [i] is outside
    [0 .. len(s)]; the only use below takes [i] from [Index], which is in
    range whenever it is not [-1]. *)
Fixpoint string_drop (n : nat) (s : string) : string :=
  match n, s with
  | O, _ => s
  | S n', String _ s' => string_drop n' s'
  | S _, EmptyString => EmptyString
  end.

Definition slice_from (s : string) (i : Z) : string := string_drop (Z.to_nat i) s.

(** [strings.Join(elems, sep)] *)
Fixpoint Join (elems : list string) (sep : string) : string :=
  match elems with
  | [] => EmptyString
  | [x] => x
  | x :: rest => x +:+ sep +:+ Join rest sep
  end.

(** [s] occurs in [t] as a contiguous substring. *)
Definition occurs_in (s t : string) : Prop :=
  ∃ pre post, t = pre +:+ s +:+ post.

(** ** Data model of [testcase.go] *)

(** The [interface{}] carried in the [variables] field: whatever YAML
    value the analyser emitted.  It is never inspected. *)
Local Unset Elimination Schemes.
Inductive YamlValue : Type :=
| VNil
| VScalar (s : string)
| VSeq (items : list YamlValue)
| VMap (entries : list (string * YamlValue)).
Local Set Elimination Schemes.

Module Incident.
Record t : Type := mk {
  Uri : string;
  Message : string;
  CodeSnip : string;
  Variables : YamlValue;
  LineNumber : Z
}.
End Incident.

Module Violation.
Record t : Type := mk { Incidents : list Incident.t }.
End Violation.

Module RuleSet.
(** [Violations] is [None] for Go's [nil] map. *)
Record t : Type := mk {
  Name : string;
  Violations : option (gmap string Violation.t)
}.
End RuleSet.

Module ValidateIncident.
Record t : Type := mk {
  RuleSet : string;
  Rule : string;
  Uri : string;
  Message : string;
  CodeSnip : string;
  Variables : YamlValue;
  LineNumber : Z
}.
End ValidateIncident.

Inductive ActionType : Type := ActionRun | ActionAnalyze | ActionValidate.

Global Instance ActionType_eq_dec : EqDecision ActionType.
Proof. solve_decision. Defined.

Record TestCase : Type := mkTestCase {
  Name : string;
  ApplicationFolder : string;
  ProjectFolder : string;
  OutputFolder : string;
  BaseLineFolder : string;
  ActionList : list ActionType
}.

Fixpoint containsAction (slice : list ActionType) (item : ActionType) : bool :=
  match slice with
  | [] => false
  | v :: rest => if decide (v = item) then true else containsAction rest item
  end.

Definition IncidentExtension : string := ".incident".
Definition CSVExtension : string := ".csv".

(** [signs] and [ItemResultFormat], with [fmt.Sprintf] applied. *)
Definition signs_PASS : string := "- [x]".
Definition signs_FAIL : string := "- [ ] :x:".

(** [fmt.Sprintf(ItemResultFormat.PASS, name)] *)
Definition ItemResultFormat_PASS (name : string) : string :=
  signs_PASS +:+ " <b>" +:+ name +:+ "</b>.".

(** [fmt.Sprintf(ItemResultFormat.FAIL, name, details)] *)
Definition ItemResultFormat_FAIL (name details : string) : string :=
  signs_FAIL +:+ " <b>" +:+ name +:+ "</b>. " +:+ LF +:+ LF +:+ details +:+ LF.

(** [fmt.Sprintf(ItemResultFormat.DETAILS, details)] *)
Definition ItemResultFormat_DETAILS (details : string) : string :=
  "  <details>" +:+ LF +:+ "  <summary> Details </summary>" +:+ LF +:+ LF +:+
  "  " +:+ details +:+ LF +:+ LF +:+ "</details>".

(** ** The YAML document as the decoder sees it *)

(** A scalar that the decoder resolves as a float, by its float64 value:
    not a number, an infinity, or the finite value [m * 2^e]. *)
Inductive YamlFloat : Type :=
| FNaN
| FInf (negative : bool)
| FFinite (m e : Z).

(** The node found under [lineNumber] in an incident node.  The Go field
    is [LineNumber int], so the decoder has to fit the node into an [int]. *)
Inductive YamlScalar : Type :=
| YAbsent                 (* the key is not there *)
| YNull                   (* [lineNumber:] or [~] *)
| YInt (z : Z)            (* an integer literal, of value [z] *)
| YFloat (f : YamlFloat)  (* a number with a fraction or an exponent, [.inf], [.nan] *)
| YStr (s : string).      (* any other node, by its text: text, quoted digits, a boolean, a list *)

Module RawIncident.
Record t : Type := mk {
  uri : string;
  message : string;
  codeSnip : string;
  variables : YamlValue;
  lineNumber : YamlScalar
}.
End RawIncident.

Module RawRuleSet.
Record t : Type := mk {
  name : string;
  violations : option (gmap string (list RawIncident.t))
}.
End RawRuleSet.

(** Go's [error]: [None] is [nil]. *)
Definition error : Type := option string.

(** The test [resolved <= math.MaxInt64] the decoder makes on a float
    before it converts it: the constant becomes the float64 [2^63]. *)
Definition float_le_MaxInt64 (m e : Z) : bool :=
  m * 2 ^ Z.max e 0 <=? 2 ^ 63 * 2 ^ Z.max (- e) 0.

(** The conversion [int64(f)] of the finite float [m * 2^e]: the value cut
    towards zero; where that is no int64 the result depends on the
    processor, and on amd64, for which the tool is built, it is the least
    int64. *)
Definition float_to_int64 (m e : Z) : Z :=
  let t := if 0 <=? e then m * 2 ^ e else Z.quot m (2 ^ (- e)) in
  if bool_decide (int_min ≤ t ≤ int_max) then t else int_min.

(** Modelled from gopkg.in/yaml.v3 ([Unmarshal] and the decoder of scalars
    into integer fields): a value that does not fit the Go type of its
    field is skipped, the field keeps its zero value, decoding goes on, and
    a [*yaml.TypeError] is returned at the end.  An absent or null node
    leaves the zero value and is not an error.  An integer literal above
    the largest int64 does not fit.  An integer literal below the least
    int64 is resolved as a float, as is every number with a fraction or an
    exponent; a float that is at most [math.MaxInt64] is converted with
    [int64(f)], without any error; not-a-number and the positive infinity
    do not fit. *)
Definition decode_int (n : YamlScalar) : Z * bool :=
  match n with
  | YAbsent | YNull => (0, true)
  | YInt z =>
      if bool_decide (int_max < z) then (0, false)
      else if bool_decide (z < int_min) then (int_min, true)
      else (z, true)
  | YFloat FNaN => (0, false)
  | YFloat (FInf negative) => if negative then (int_min, true) else (0, false)
  | YFloat (FFinite m e) =>
      if float_le_MaxInt64 m e then (float_to_int64 m e, true) else (0, false)
  | YStr _ => (0, false)
  end.

Definition decode_incident (r : RawIncident.t) : Incident.t * bool :=
  let '(line, ok) := decode_int (RawIncident.lineNumber r) in
  (Incident.mk (RawIncident.uri r) (RawIncident.message r) (RawIncident.codeSnip r)
               (RawIncident.variables r) line, ok).

Definition decode_violation (rs : list RawIncident.t) : Violation.t * bool :=
  (Violation.mk ((fst ∘ decode_incident) <$> rs),
   forallb (snd ∘ decode_incident) rs).

Definition decode_ruleset (r : RawRuleSet.t) : RuleSet.t * bool :=
  match RawRuleSet.violations r with
  | None => (RuleSet.mk (RawRuleSet.name r) None, true)
  | Some m =>
      (RuleSet.mk (RawRuleSet.name r) (Some ((fst ∘ decode_violation) <$> m)),
       forallb (λ kv, snd (decode_violation kv.2)) (map_to_list m))
  end.

(** The text of a [yaml.TypeError], as its method [Error] builds it: the
    head line, then one indented line for every node that did not fit,
    such as [line 6: cannot unmarshal !!str `abc` into int]. *)
Definition yaml_TypeError (complaints : list string) : string :=
  "yaml: unmarshal errors:" +:+ LF +:+ "  " +:+ Join complaints (LF +:+ "  ").

(** What the bytes of a file are, up to YAML parsing. *)
Inductive FileData : Type :=
| Undecodable                               (* not YAML, or not a sequence of rule-sets *)
| YamlRuleSets (doc : list RawRuleSet.t)    (* a sequence of rule-set nodes; [[]] for no bytes *)
| MarshalledIncident (v : ValidateIncident.t)  (* the output of [yaml.Marshal(vIncident)] *)
| Text (s : string).                        (* text written by this program *)

(** ** The process state: file system and log *)

(** What [os.Stat] and [os.ReadFile] find at a path.  A path without an
    entry is one for which [os.Stat] fails with an error that
    [os.IsNotExist] accepts.  A path can also be out of reach with another
    error: under a regular file ("not a directory"), or in a folder that
    may not be searched ("permission denied"); for [os.IsNotExist] such a
    path is not missing, so it has an entry, [Inaccessible]. *)
Inductive FileEntry : Type :=
| Dir                           (* a directory *)
| Unreadable                    (* exists, but [os.ReadFile] fails *)
| Inaccessible (reason : string)
    (* [os.Stat] and [os.ReadFile] fail with [reason], which is not a "not exist" error *)
| Bytes (data : FileData).

Record World : Type := mkWorld {
  files : gmap string FileEntry;
  (** the paths on which a call of [os.WriteFile], [os.Create] or
      [os.MkdirAll] made during the run fails, whatever the reason: the
      permissions, a parent folder that is missing or out of reach when
      the call is made, a directory in the way *)
  unwritable : gset string;
  (** messages handed to the global logger, oldest first *)
  logs : list string
}.

(** A Go call either returns (with the new state) or the process has been
    ended by [os.Exit]. *)
Inductive Outcome (A : Type) : Type :=
| Returned (a : A) (w : World)
| Exited (code : Z) (w : World).
Arguments Returned {A} a w.
Arguments Exited {A} code w.

Definition M (A : Type) : Type := World → Outcome A.

Global Instance M_ret : MRet M := λ A a w, Returned a w.

Global Instance M_bind : MBind M := λ A B f m w,
  match m w with
  | Returned a w' => f a w'
  | Exited c w' => Exited c w'
  end.

Definition final_world {A} (o : Outcome A) : World :=
  match o with Returned _ w | Exited _ w => w end.

(** The status the process has ended with, if it has. *)
Definition exit_code {A} (o : Outcome A) : option Z :=
  match o with Returned _ _ => None | Exited c _ => Some c end.

(** The value the call has returned, if it has. *)
Definition returned {A} (o : Outcome A) : option A :=
  match o with Returned a _ => Some a | Exited _ _ => None end.

Definition add_log (msg : string) (w : World) : World :=
  mkWorld (files w) (unwritable w) (logs w ++ [msg]).

(** [logger.Printf] on the global logger, which [main] initialises before
    anything else runs; the prefix and time stamp the logger adds to each
    message are left out. *)
Definition Printf (msg : string) : M unit := λ w, Returned () (add_log msg w).

(** [logger.Fatalf]: [Printf] followed by [os.Exit(1)]. *)
Definition Fatalf (msg : string) : M unit := λ w, Exited 1 (add_log msg w).

(** [_, err := os.Stat(path); os.IsNotExist(err)]: true only for a path
    without an entry; a path that is [Inaccessible] is not reported as
    missing, and the caller goes on. *)
Definition Stat_IsNotExist (path : string) : M bool := λ w,
  Returned (bool_decide (files w !! path = None)) w.

(** [os.ReadFile]; the data is empty when it fails. *)
Definition ReadFile (path : string) : M (FileData * error) := λ w,
  match files w !! path with
  | Some (Bytes d) => Returned (d, None) w
  | Some Dir => Returned (YamlRuleSets [], Some ("read " +:+ path +:+ ": is a directory")) w
  | Some Unreadable => Returned (YamlRuleSets [], Some ("open " +:+ path +:+ ": permission denied")) w
  | Some (Inaccessible reason) =>
      Returned (YamlRuleSets [], Some ("open " +:+ path +:+ ": " +:+ reason)) w
  | None => Returned (YamlRuleSets [], Some ("open " +:+ path +:+ ": no such file or directory")) w
  end.

(** [for _, x := range l { s = body(x, s) }] over a slice, stopping when
    the body ends the process. *)
Fixpoint forM {A S : Type} (l : list A) (body : A → S → M S) (s : S) : M S :=
  match l with
  | [] => mret s
  | x :: rest => s' ← body x s; forM rest body s'
  end.

(** [for i, x := range l]: the elements paired with their indices. *)
Definition indexed {A : Type} (l : list A) : list (Z * A) :=
  imap (λ i x, (Z.of_nat i, x)) l.

(** What the program takes from its environment:
      - the order in which [range] visits a map (every entry once, in an
        order the Go runtime picks; here a function of the map);
      - [filepath.Join];
      - the reading of the clock as [%s] prints it;
      - the external analyser started by [cmd.Run()], which is given its
        command line and working directory, may rewrite the files, and
        reports an error or none;
      - the text of the errors of [yaml.Unmarshal], which names lines of
        the file: the complaints of a [*yaml.TypeError] about the nodes of
        a document that do not fit, and the error for bytes that are no
        sequence of rule-sets;
      - the text of the error with which the operating system refuses to
        write or create a path, given the operation ([open], [mkdir]) and
        the path.

    Go picks the order anew for every [range] loop.  One run-time stands
    for the order of the loops of one traversal; a statement about two
    traversals of maps whose results depend on the order is made for two
    run-times, or under a hypothesis that makes the order immaterial. *)
Class Runtime : Type := {
  range : ∀ {V : Type}, gmap string V → list (string * V);
  range_perm : ∀ (V : Type) (m : gmap string V), range m ≡ₚ map_to_list m;
  filepath_Join : string → string → string;
  time_Now : World → string;
  exec_Run : list string → string → gmap string FileEntry → gmap string FileEntry * error;
  yaml_complaints : list RawRuleSet.t → list string;
  yaml_error : FileData → string;
  os_error : string → string → string
}.

(** [yaml.Unmarshal(data, &yamlContent)] with [yamlContent []RuleSet]. *)
Definition Unmarshal `{RT : Runtime} (data : FileData) : list RuleSet.t * error :=
  match data with
  | YamlRuleSets doc =>
      ((fst ∘ decode_ruleset) <$> doc,
       if forallb (snd ∘ decode_ruleset) doc then None
       else Some (yaml_TypeError (yaml_complaints doc)))
  | _ => ([], Some (yaml_error data))
  end.

(** [os.WriteFile(path, data, 0644)]: it fails on the paths the file
    system refuses, with the error of the operating system, and leaves
    the bytes at the path otherwise. *)
Definition WriteFile `{RT : Runtime} (path : string) (data : FileData) : M error := λ w,
  if bool_decide (path ∈ unwritable w)
  then Returned (Some (os_error "open" path)) w
  else Returned None (mkWorld (<[path := Bytes data]> (files w)) (unwritable w) (logs w)).

(** [os.MkdirAll(path, 0755)] *)
Definition MkdirAll `{RT : Runtime} (path : string) : M error := λ w,
  if bool_decide (path ∈ unwritable w)
  then Returned (Some (os_error "mkdir" path)) w
  else Returned None (mkWorld (<[path := Dir]> (files w)) (unwritable w) (logs w)).

(** ** [ParseAppCatOutput] *)

(** The three accumulators of [ParseAppCatOutput]. *)
Record ParseState : Type := mkParseState {
  incidentsCount : Z;
  ruleIncidentDetails : gmap string Z;
  incidentsDetails : gmap string ValidateIncident.t
}.

(** The struct literal [ValidateIncident{...}] of the inner loop. *)
Definition mkValidateIncident (rulesetName ruleName : string) (incident : Incident.t)
  : ValidateIncident.t :=
  {| ValidateIncident.RuleSet := rulesetName;
     ValidateIncident.Rule := ruleName;
     ValidateIncident.Uri := Incident.Uri incident;
     ValidateIncident.CodeSnip := Incident.CodeSnip incident;
     ValidateIncident.Message := Incident.Message incident;
     ValidateIncident.LineNumber := Incident.LineNumber incident;
     ValidateIncident.Variables := Incident.Variables incident |}.

(** [tempPath]: the Uri from the first occurrence of [tc.Name] on, the
    name included; the whole Uri when the name does not occur. *)
Definition tempPath (tcName uri : string) : string :=
  let startIndex := Index uri tcName in
  if negb (startIndex =? -1) then slice_from uri startIndex else uri.

(** [key := fmt.Sprintf("%s-%s-%s-%d", RuleSet, Rule, tempPath, LineNumber)] *)
Definition incidentKey (tcName : string) (v : ValidateIncident.t) : string :=
  ValidateIncident.RuleSet v +:+ "-" +:+ ValidateIncident.Rule v +:+ "-" +:+
  tempPath tcName (ValidateIncident.Uri v) +:+ "-" +:+ itoa (ValidateIncident.LineNumber v).

Definition msg_duplicate (key : string) : string :=
  "[ParseOutput] Duplicate incident found in baseline: " +:+ key.

Section Parser.
Context `{RT : Runtime}.

(** The body of [for i, incident := range violation.Incidents]. *)
Definition parse_incident (tc : TestCase) (presistPath rulesetName ruleName : string)
    (ii : Z * Incident.t) (st : ParseState) : M ParseState :=
  let '(i, incident) := ii in
  let incidentsCount := int_add (incidentsCount st) 1 in
  let ruleIncidentDetails :=
    <[ruleName := int_add (default 0 (ruleIncidentDetails st !! ruleName)) 1]>
      (ruleIncidentDetails st) in
  _ ← Printf ("    [ParseOutput] Processing incidents: " +:+ Incident.Uri incident +:+ " "
              +:+ itoa (Incident.LineNumber incident) +:+ LF);
  let vIncident := mkValidateIncident rulesetName ruleName incident in
  let key := incidentKey (Name tc) vIncident in
  _ ← Printf ("    [ParseOutput] Incident key: " +:+ key +:+ LF);
  incidentsDetails ←
    match incidentsDetails st !! key with
    | None => mret (<[key := vIncident]> (incidentsDetails st))
    | Some _ => _ ← Printf (msg_duplicate key); mret (incidentsDetails st)
    end;
  _ ← (if bool_decide (presistPath ≠ EmptyString) then
         let incidentFileName := ruleName +:+ "_" +:+ itoa i +:+ IncidentExtension in
         let incidentFilePath := filepath_Join presistPath incidentFileName in
         err ← WriteFile incidentFilePath (MarshalledIncident vIncident);
         match err with
         | Some e => Fatalf ("Failed to write incident file: " +:+ e)
         | None => mret ()
         end
       else mret ());
  mret (mkParseState incidentsCount ruleIncidentDetails incidentsDetails).

(** The body of [for ruleName, violation := range section.Violations]. *)
Definition parse_rule (tc : TestCase) (presistPath rulesetName : string)
    (rv : string * Violation.t) (st : ParseState) : M ParseState :=
  let '(ruleName, violation) := rv in
  _ ← Printf ("  [ParseOutput] Processing rule: " +:+ ruleName +:+ LF);
  if bool_decide (0 < Z.of_nat (length (Violation.Incidents violation))) then
    forM (indexed (Violation.Incidents violation))
         (parse_incident tc presistPath rulesetName ruleName) st
  else
    _ ← Printf ("  [ParseOutput] No incidents found for rule: " +:+ ruleName +:+ LF);
    mret st.

(** The body of [for _, section := range yamlContent]. *)
Definition parse_section (tc : TestCase) (presistPath : string)
    (section : RuleSet.t) (st : ParseState) : M ParseState :=
  let rulesetName := RuleSet.Name section in
  _ ← Printf ("[ParseOutput] Processing ruleset: " +:+ rulesetName +:+ LF);
  match RuleSet.Violations section with
  | Some violations =>
      forM (range violations) (parse_rule tc presistPath rulesetName) st
  | None =>
      _ ← Printf ("[ParseOutput] No violations found for rule '" +:+ rulesetName +:+ "'." +:+ LF);
      mret st
  end.

(** [func (tc *TestCase) ParseAppCatOutput(outputPath, presistPath string)
      (map[string]ValidateIncident, map[string]int, int, error)].
    A [nil] map in the result is the empty map. *)
Definition ParseAppCatOutput (tc : TestCase) (outputPath presistPath : string)
  : M (gmap string ValidateIncident.t * gmap string Z * Z * error) :=
  _ ← Printf ("[ParseOutput] Parsing output from: " +:+ outputPath +:+ LF);
  let outputFile := filepath_Join outputPath "output.yaml" in
  notExist ← Stat_IsNotExist outputFile;
  if (notExist : bool) then
    _ ← Fatalf ("No output.yaml found in folder: " +:+ outputPath +:+ LF);
    mret (∅, ∅, 0, Some ("no output.yaml found in folder: " +:+ outputPath))
  else
    '(data, err) ← ReadFile outputFile;
    _ ← match err with
        | Some e => Fatalf ("failed to read output.yaml: " +:+ e)
        | None => mret ()
        end;
    let '(yamlContent, err) := Unmarshal data in
    _ ← match err with
        | Some e => Fatalf ("failed to parse YAML: " +:+ e)
        | None => mret ()
        end;
    st ← forM yamlContent (parse_section tc presistPath) (mkParseState 0 ∅ ∅);
    mret (incidentsDetails st, ruleIncidentDetails st, incidentsCount st, None).

End Parser.

(** ** [RunValidate], [RunAnalyze], [Run] *)

(** [os.Create(path)]: the file exists and is empty afterwards. *)
Definition Create `{RT : Runtime} (path : string) : M error := λ w,
  if bool_decide (path ∈ unwritable w)
  then Returned (Some (os_error "open" path)) w
  else Returned None (mkWorld (<[path := Bytes (Text EmptyString)]> (files w)) (unwritable w) (logs w)).

(** [file.WriteString(s)] on the file created at [path]; its error is
    dropped by every caller. *)
Definition WriteString (path s : string) : M unit := λ w,
  match files w !! path with
  | Some (Bytes (Text t)) =>
      Returned () (mkWorld (<[path := Bytes (Text (t +:+ s))]> (files w)) (unwritable w) (logs w))
  | _ => Returned () w
  end.

Definition msg_new (key : string) : string := "[NEW] : " +:+ key.

Definition msg_wrong (key message baselineMessage : string) : string :=
  "[WRONG] :" +:+ key +:+ " message mismatch: " +:+ message +:+ " != " +:+ baselineMessage.

Definition msg_miss (key : string) : string := "[MISS]: " +:+ key.

Definition msg_validated (key : string) : string :=
  "[Validate] Incident " +:+ key +:+ " validated successfully".

Section Validation.
Context `{RT : Runtime}.

Definition getAppcatOutputFolder (tc : TestCase) : string :=
  filepath_Join (OutputFolder tc) "appcat_output".

Definition getAnalysisOutputFolder (tc : TestCase) : string :=
  filepath_Join (OutputFolder tc) "analysis_output".

Definition getIncidentsSummaryFile (tc : TestCase) : string :=
  filepath_Join (getAnalysisOutputFolder tc) ("incidents_summary" +:+ CSVExtension).

(** The body of [for key, incident := range incidents] in [RunValidate]. *)
Definition validate_incident (baselineIncidents : gmap string ValidateIncident.t)
    (kv : string * ValidateIncident.t) (acc : bool * gmap string string)
  : M (bool * gmap string string) :=
  let '(key, incident) := kv in
  let '(result, resultDetails) := acc in
  match baselineIncidents !! key with
  | None =>
      _ ← Printf ("[Validate] Incident " +:+ key +:+ " not found in baseline, marking as false");
      mret (false, <[key := msg_new key]> resultDetails)
  | Some baselineIncident =>
      if bool_decide (ValidateIncident.Message incident ≠ ValidateIncident.Message baselineIncident)
      then
        _ ← Printf ("[Validate] Incident " +:+ key +:+ " message mismatch: " +:+
                    ValidateIncident.Message incident +:+ " != " +:+
                    ValidateIncident.Message baselineIncident);
        mret (false, <[key := msg_wrong key (ValidateIncident.Message incident)
                                        (ValidateIncident.Message baselineIncident)]> resultDetails)
      else
        _ ← Printf (msg_validated key);
        mret (result, resultDetails)
  end.

(** The body of [for key := range baselineIncidents] in [RunValidate]. *)
Definition validate_baseline (incidents : gmap string ValidateIncident.t)
    (kv : string * ValidateIncident.t) (acc : bool * gmap string string)
  : M (bool * gmap string string) :=
  let '(key, _) := kv in
  let '(result, resultDetails) := acc in
  match incidents !! key with
  | None =>
      _ ← Printf ("[Validate] Baseline incident " +:+ key +:+
                  " not found in analyze output, marking as false");
      mret (false, <[key := msg_miss key]> resultDetails)
  | Some _ => mret (result, resultDetails)
  end.

(** The comparison of [RunValidate]: from [result := true] to the end of
    the second loop. *)
Definition RunValidate_compare (incidents baselineIncidents : gmap string ValidateIncident.t)
  : M (bool * gmap string string) :=
  acc ← forM (range incidents) (validate_incident baselineIncidents) (true, ∅);
  forM (range baselineIncidents) (validate_baseline incidents) acc.

(** [func (tc *TestCase) RunAppCat() (string, error)] *)
Definition RunAppCat (tc : TestCase) : M (string * error) :=
  _ ← Printf ("[AppCat] Would run AppCat analysis for project: " +:+ Name tc +:+
              " (" +:+ ProjectFolder tc +:+ ")");
  notExist ← Stat_IsNotExist (ProjectFolder tc);
  if (notExist : bool) then
    _ ← Fatalf ("[AppCat] The candidate project folder path '" +:+ ProjectFolder tc +:+
                "' does not exist");
    mret (EmptyString, Some ("[AppCat] The candidate project folder path '" +:+
                             ProjectFolder tc +:+ "' does not exist"))
  else
    notExist ← Stat_IsNotExist (getAppcatOutputFolder tc);
    created ← (if (notExist : bool) then MkdirAll (getAppcatOutputFolder tc) else mret None);
    match created with
    | Some e =>
        _ ← Fatalf ("[AppCat] Failed to create output folder: " +:+ e);
        mret (EmptyString, Some ("[AppCat] Failed to create output folder: " +:+ e))
    | None =>
        _ ← Printf ("[AppCat] Project: " +:+ ProjectFolder tc +:+ LF);
        _ ← Printf ("[AppCat] Output: " +:+ getAppcatOutputFolder tc +:+ LF);
        now ← (λ w, Returned (time_Now w) w);
        _ ← Printf ("[AppCat] Start run AppCat at " +:+ now +:+ LF);
        let appcatExe := filepath_Join (ApplicationFolder tc) "appcat.exe" in
        let cmd :=
          [ appcatExe; "analyze";
            "--input"; ProjectFolder tc;
            "--output"; getAppcatOutputFolder tc;
            "--target";
            "cloud-readiness,linux,azure-appservice,azure-aks,azure-container-apps,openjdk11,openjdk17,openjdk21";
            "--overwrite" ] in
        err ← (λ w, let '(fs, err) := exec_Run cmd (ApplicationFolder tc) (files w) in
                    Returned err (mkWorld fs (unwritable w) (logs w)));
        match err with
        | Some e =>
            _ ← Fatalf ("[AppCat] Error: Failed to process " +:+ ProjectFolder tc +:+ ": " +:+ e);
            mret (EmptyString,
                  Some ("[AppCat] Error: Failed to process " +:+ ProjectFolder tc +:+ ": " +:+ e))
        | None =>
            now ← (λ w, Returned (time_Now w) w);
            _ ← Printf ("[AppCat] AppCat completed at " +:+ now +:+ LF);
            mret (OutputFolder tc, None)
        end
    end.

(** [func (tc *TestCase) RunValidate() (bool, map[string]string, error)] *)
Definition RunValidate (tc : TestCase) : M (bool * gmap string string * error) :=
  _ ← Printf ("[Validate] Would validate output for project: " +:+ Name tc +:+
              " (output: " +:+ getAppcatOutputFolder tc +:+ ")");
  _ ← Printf ("[Validate] Analyze output: " +:+ getAppcatOutputFolder tc +:+ LF);
  _ ← Printf ("[Validate] baseLineFolder: " +:+ BaseLineFolder tc +:+ LF);
  '(baselineIncidents, _, _, err) ← ParseAppCatOutput tc (BaseLineFolder tc) EmptyString;
  match err with
  | Some e =>
      _ ← Fatalf ("[Validate] Error parsing baseline output: " +:+ e);
      mret (false, ∅, Some ("[Validate] Error parsing baseline output: " +:+ e))
  | None =>
      _ ← Printf ("[Validate] Read " +:+ itoa (Z.of_nat (size baselineIncidents)) +:+
                  " baseline incidents from folder: " +:+ BaseLineFolder tc +:+ LF);
      '(incidents, _, _, err) ← ParseAppCatOutput tc (getAppcatOutputFolder tc) EmptyString;
      match err with
      | Some e =>
          _ ← Fatalf ("[Validate] Error parsing analyze output: " +:+ e);
          mret (false, ∅, Some ("[Validate] Error parsing analyze output: " +:+ e))
      | None =>
          _ ← Printf ("[Validate] Read " +:+ itoa (Z.of_nat (size incidents)) +:+
                      " incidents from analyze output folder: " +:+
                      getAnalysisOutputFolder tc +:+ LF);
          '(result, resultDetails) ← RunValidate_compare incidents baselineIncidents;
          _ ← Printf ("[Validate] Validation completed for project: " +:+ Name tc);
          mret (result, resultDetails, None)
      end
  end.

(** [func (tc *TestCase) RunAnalyze() (int, map[string]int, error)] *)
Definition RunAnalyze (tc : TestCase) : M (Z * gmap string Z * error) :=
  _ ← Printf ("[Analyze] Would run output analysis for project: " +:+ Name tc +:+
              " (output: " +:+ getAnalysisOutputFolder tc +:+ ")");
  _ ← Printf ("[Analyze] AppCat output: " +:+ getAppcatOutputFolder tc +:+ LF);
  _ ← Printf ("[Analyze] Analyze output: " +:+ getAnalysisOutputFolder tc +:+ LF);
  notExist ← Stat_IsNotExist (getAnalysisOutputFolder tc);
  _ ← (if (notExist : bool) then
         err ← MkdirAll (getAnalysisOutputFolder tc);
         match err with
         | Some e => Fatalf ("failed to create analyze output folder: " +:+ e)
         | None => mret ()
         end
       else mret ());
  let outputFile := filepath_Join (getAppcatOutputFolder tc) "output.yaml" in
  notExist ← Stat_IsNotExist outputFile;
  if (notExist : bool) then
    _ ← Fatalf ("No output.yaml found in folder: " +:+ getAppcatOutputFolder tc +:+ LF);
    mret (0, ∅, None)
  else
    '(_, rulesDetails, totalIncidents, err) ←
      ParseAppCatOutput tc (getAppcatOutputFolder tc) (getAnalysisOutputFolder tc);
    match err with
    | Some e =>
        _ ← Fatalf ("[Analyze] Error parsing AppCat output: " +:+ e);
        mret (0, ∅, Some ("[Analyze] Error parsing AppCat output: " +:+ e))
    | None =>
        _ ← Printf ("[Analyze] Total # of incidents found in " +:+ Name tc +:+ ": " +:+
                    itoa totalIncidents +:+ LF);
        _ ← Printf ("[Analyze] Rules details for " +:+ Name tc +:+ ":" +:+ LF);
        _ ← forM (range rulesDetails)
                 (λ '(rule, count) _, Printf ("  " +:+ rule +:+ ": " +:+ itoa count +:+ LF)) ();
        err ← Create (getIncidentsSummaryFile tc);
        _ ← match err with
            | Some e => Fatalf ("Failed to create summary file: " +:+ e)
            | None => mret ()
            end;
        _ ← WriteString (getIncidentsSummaryFile tc) ("Rule,Incidents" +:+ LF);
        _ ← forM (range rulesDetails)
                 (λ '(rule, count) _,
                    WriteString (getIncidentsSummaryFile tc)
                                (rule +:+ "," +:+ itoa count +:+ LF)) ();
        _ ← Printf ("[Analyze] Summary written to: " +:+ getIncidentsSummaryFile tc +:+ LF);
        mret (totalIncidents, rulesDetails, None)
    end.

(** [details] as built by [for _, value := range caseResults] in [Run]. *)
Definition Run_details (caseResults : gmap string string) : string :=
  foldl (λ details kv, details +:+ kv.2 +:+ lineDelimiter) EmptyString (range caseResults).

(** [resultMessage] of the validate branch of [Run]. *)
Definition Run_resultMessage (tc : TestCase) (caseResults : gmap string string) : string :=
  if bool_decide (Z.of_nat (size caseResults) = 0)
  then ItemResultFormat_PASS (Name tc)
  else ItemResultFormat_FAIL (Name tc) (ItemResultFormat_DETAILS (Run_details caseResults)).

(** [func (tc *TestCase) Run() (string, error)].  Each [if] that returns
    early yields [Some] of its result. *)
Definition Run (tc : TestCase) : M (string * error) :=
  early ←
    (if containsAction (ActionList tc) ActionRun then
       '(_, err) ← RunAppCat tc;
       match err with
       | Some e =>
           _ ← Printf ("[AppCat] Error running AppCat for project " +:+ Name tc +:+ ": " +:+ e);
           mret (Some (EmptyString, Some ("error running AppCat for project " +:+ Name tc +:+ ": " +:+ e)))
       | None => mret None
       end
     else mret None);
  match early with
  | Some r => mret r
  | None =>
  early ←
    (if containsAction (ActionList tc) ActionAnalyze then
       '(_, _, err) ← RunAnalyze tc;
       match err with
       | Some e =>
           _ ← Printf ("[Analyze] Error analyzing output for project " +:+ Name tc +:+ ": " +:+ e);
           mret (Some (EmptyString, Some ("error analyzing output for project " +:+ Name tc +:+ ": " +:+ e)))
       | None => mret None
       end
     else mret None);
  match early with
  | Some r => mret r
  | None =>
  if containsAction (ActionList tc) ActionValidate then
    '(_, caseResults, err) ← RunValidate tc;
    match err with
    | Some e =>
        _ ← Printf ("[Validate] Error validating output for project " +:+ Name tc +:+ ": " +:+ e);
        mret (EmptyString, Some ("error validating output for project " +:+ Name tc +:+ ": " +:+ e))
    | None => mret (Run_resultMessage tc caseResults, None)
    end
  else mret ("passed", None)
  end end.

(** ** The driver's loop over the test cases ([main])

    This is the loop of the driver that goes with the two-valued [Run]
    above: [result, caseErr := testCase.Run()]. *)

(** The body of [for _, testCase := range testCases]. *)
Definition runTestCase (testCase : TestCase) (testResults : gmap string string)
  : M (gmap string string) :=
  _ ← Printf ("Processing Test Case: " +:+ Name testCase);
  '(result, caseErr) ← Run testCase;
  testResults ←
    match caseErr with
    | Some e =>
        _ ← Printf ("Error running test case " +:+ Name testCase +:+ ": " +:+ e);
        mret (<[Name testCase := "Error: " +:+ e]> testResults)
    | None => mret testResults
    end;
  let testResults := <[Name testCase := result]> testResults in
  _ ← Printf ("Completed Test Case: " +:+ Name testCase);
  mret testResults.

Definition runTestCases (testCases : list TestCase) : M (gmap string string) :=
  forM testCases runTestCase ∅.

End Validation.

(** ** The cross-project summary of [src/main.go] *)

Section Summary.
Context `{RT : Runtime}.

(** The body of [for rule := range targetHash]: [rules[rule]] is set to,
    or grows by, [targetHash[rule]]. *)
Definition add_rule_count (targetHash rules : gmap string Z) (rc : string * Z)
  : gmap string Z :=
  let rule := rc.1 in
  match rules !! rule with
  | None => <[rule := default 0 (targetHash !! rule)]> rules
  | Some c => <[rule := int_add c (default 0 (targetHash !! rule))]> rules
  end.

(** [rules]: every rule some project reports, with its summed count. *)
Definition summary_rules (fullIncidentDetails : gmap string (gmap string Z)) : gmap string Z :=
  foldl (λ rules (th : string * gmap string Z),
           let targetHash := th.2 in
           foldl (add_rule_count targetHash) rules (range targetHash))
        ∅ (range fullIncidentDetails).

(** [rowValue] after [for _, target := range targetList]. *)
Definition summary_row (fullIncidentDetails : gmap string (gmap string Z))
    (targetList : list string) (rule : string) : string :=
  foldl (λ rowValue target,
           match fullIncidentDetails !! target with
           | Some targetHash =>
               match targetHash !! rule with
               | Some count => rowValue +:+ "," +:+ itoa count
               | None => rowValue +:+ ", "
               end
           | None => rowValue +:+ ", "
           end)
        rule targetList.

(** The block guarded by [if fullIncidentsCount > 0] in [main]. *)
Definition writeSummary (summaryFilePath : string) (fullIncidentsCount : Z)
    (fullIncidentDetails : gmap string (gmap string Z)) (targetList : list string) : M unit :=
  if bool_decide (0 < fullIncidentsCount) then
    _ ← Printf ("Total incidents found across all projects: " +:+ itoa fullIncidentsCount);
    let rules := summary_rules fullIncidentDetails in
    err ← Create summaryFilePath;
    _ ← match err with
        | Some e => Fatalf ("Failed to create summary file: " +:+ e)
        | None => mret ()
        end;
    let targetNameList := Join targetList "," in
    _ ← WriteString summaryFilePath ("Rule," +:+ targetNameList +:+ LF);
    _ ← forM (range rules)
             (λ rc _, WriteString summaryFilePath
                        (summary_row fullIncidentDetails targetList rc.1 +:+ LF)) ();
    Printf ("[Analyze] Global summary written to: " +:+ summaryFilePath +:+ LF)
  else mret ().

End Summary.

(** ** The summary of the superseded stand-alone driver *)

Module Legacy.
Section Summary.
Context `{RT : Runtime}.

(** [for rule, count := range rulesDetails { ... globalRulesDetails[rule][target] = count }]
    (the log line of the loop is left out) *)
Definition accumulate (target : string) (rulesDetails : gmap string Z)
    (globalRulesDetails : gmap string (gmap string Z)) : gmap string (gmap string Z) :=
  foldl (λ g (rc : string * Z),
           let '(rule, count) := rc in
           let g := match g !! rule with
                    | None => <[rule := ∅]> g
                    | Some _ => g
                    end in
           <[rule := <[target := count]> (default ∅ (g !! rule))]> g)
        globalRulesDetails (range rulesDetails).

(** [globalRulesDetails] after the loop over the targets, given what
    [AnalyzeOutput] returned for each. *)
Definition accumulate_all (analysed : list (string * gmap string Z))
  : gmap string (gmap string Z) :=
  foldl (λ g tr, accumulate tr.1 tr.2 g) ∅ analysed.

(** [rowValue] after [for _, target := range targetList]. *)
Definition summary_row (targetList : list string) (rule : string)
    (targetHash : gmap string Z) : string :=
  foldl (λ rowValue target,
           match targetHash !! target with
           | Some count => rowValue +:+ "," +:+ itoa count
           | None => rowValue +:+ ",0"
           end)
        rule targetList.

(** The lines written to the summary file. *)
Definition summary_lines (targetList : list string)
    (globalRulesDetails : gmap string (gmap string Z)) : list string :=
  ("Rule," +:+ Join targetList "," +:+ LF) ::
  ((λ rt : string * gmap string Z, summary_row targetList rt.1 rt.2 +:+ LF)
     <$> range globalRulesDetails).

End Summary.
End Legacy.

(** ** The driver's report ([main]) *)

Section Report.
Context `{RT : Runtime}.

(** From [testOutputFile, err := os.Create(testOutputFilePath)] to the end
    of [for _, result := range testResults]. *)
Definition writeResults (testOutputFilePath : string) (testResults : gmap string string)
  : M unit :=
  err ← Create testOutputFilePath;
  _ ← match err with
      | Some e => Fatalf ("Failed to create test output file: " +:+ e)
      | None => mret ()
      end;
  _ ← WriteString testOutputFilePath ("# AppCat Test Results" +:+ LF);
  forM (range testResults)
       (λ kv _, WriteString testOutputFilePath (kv.2 +:+ LF)) ().

(** [main] from [testResults := make(map[string]string)] to the end of the
    loop that writes the results; the path of the report, built from the
    output folder and the clock, is a parameter. *)
Definition runAndReport (testCases : list TestCase) (testOutputFilePath : string) : M unit :=
  testResults ← runTestCases testCases;
  writeResults testOutputFilePath testResults.

End Report.

(** ** [initTesting] *)

(** [strings.Split(s, "\n")]: the pieces of [s] between line feeds; one
    piece more than there are line feeds. *)
Fixpoint Split_LF (s : string) : list string :=
  match s with
  | EmptyString => [EmptyString]
  | String c s' =>
      if Ascii.eqb c (Ascii.ascii_of_nat 10) then EmptyString :: Split_LF s'
      else match Split_LF s' with
           | piece :: rest => String c piece :: rest
           | [] => [String c EmptyString]
           end
  end.

Section InitTesting.
(** [strings.TrimSpace], which follows Unicode's definition of white
    space, and the conversion [string(file)] of the bytes read. *)
Context `{RT : Runtime}.
Context (TrimSpace : string → string) (string_of_bytes : FileData → string).

(** [targetList] after [for _, line := range lines]. *)
Definition initTesting_targets (lines : list string) : list string :=
  foldl (λ targetList line,
           let trimmed := TrimSpace line in
           if bool_decide (trimmed ≠ EmptyString) then targetList ++ [trimmed]
           else targetList)
        [] lines.

(** [func initTesting(appcatAppFolder, sourceRepoFolder, baselineFolder,
      outputFolder, repoListFile string) ([]string, error)].  A [nil]
    slice is the empty list. *)
Definition initTesting
    (appcatAppFolder sourceRepoFolder baselineFolder outputFolder repoListFile : string)
  : M (list string * error) :=
  notExist ← Stat_IsNotExist appcatAppFolder;
  if (notExist : bool) then
    mret ([], Some ("the application folder path '" +:+ appcatAppFolder +:+
                    "' does not exist"))
  else
  notExist ← Stat_IsNotExist sourceRepoFolder;
  if (notExist : bool) then
    mret ([], Some ("the source repo folder path '" +:+ sourceRepoFolder +:+
                    "' does not exist"))
  else
  notExist ← Stat_IsNotExist baselineFolder;
  if (notExist : bool) then
    mret ([], Some ("the baseline folder path '" +:+ baselineFolder +:+
                    "' does not exist"))
  else
  notExist ← Stat_IsNotExist outputFolder;
  created ← (if (notExist : bool) then MkdirAll outputFolder else mret None);
  match created with
  | Some e => mret ([], Some ("failed to create output folder: " +:+ e))
  | None =>
  notExist ← Stat_IsNotExist repoListFile;
  if (notExist : bool) then
    mret ([], Some ("the target projects list file '" +:+ repoListFile +:+
                    "' does not exist"))
  else
  '(file, err) ← ReadFile repoListFile;
  match err with
  | Some e =>
      mret ([], Some ("failed to read target projects list file '" +:+ repoListFile +:+
                      "': " +:+ e))
  | None =>
      let lines := Split_LF (string_of_bytes file) in
      mret (initTesting_targets lines, None)
  end
  end.

End InitTesting.

(** ** The global logger ([logger/logger.go]) *)

Module logger.

(** An [io.Writer] handed to [io.MultiWriter]. *)
Inductive Writer : Type :=
| FileWriter (name : string)
| Stdout.

(** [log.New(out, prefix, flag)] *)
Record Logger : Type := mkLogger {
  out : list Writer;
  prefix : string;
  flag : Z
}.

(** [log.Ldate], [log.Ltime], [log.Lshortfile] *)
Definition Ldate : Z := 1.
Definition Ltime : Z := 2.
Definition Lshortfile : Z := 16.

(** The package variables: [logger] ([None] is [nil]), whether [once] has
    run its function, and [logFile] (the name the file was opened under;
    [None] is [nil]). *)
Record State : Type := mkState {
  logger : option Logger;
  once : bool;
  logFile : option string
}.

(** The package variables when the program starts. *)
Definition initial : State := mkState None false None.

Section Package.
(** [os.OpenFile(name, os.O_CREATE|os.O_WRONLY|os.O_APPEND, 0644)]: the
    error it reports, [None] when the file has been opened. *)
Context (OpenFile : string → error).

(** [func Init(logFileName string, writeToConsole bool) error] *)
Definition Init (logFileName : string) (writeToConsole : bool) (st : State)
  : State * error :=
  if once st then (st, None)
  else
    match OpenFile logFileName with
    | Some e => (mkState (logger st) true None, Some e)
    | None =>
        let writers := [FileWriter logFileName] in
        let writers := if writeToConsole then writers ++ [Stdout] else writers in
        (mkState (Some (mkLogger writers "[GLOBAL] "
                                 (Z.lor (Z.lor Ldate Ltime) Lshortfile)))
                 true (Some logFileName),
         None)
    end.

(** [func Get() *log.Logger]; [None] stands for the panic. *)
Definition Get (st : State) : option Logger :=
  match logger st with
  | None => None
  | Some l => Some l
  end.

(** The errors of a sequence of calls of [Init], and the package
    variables after them. *)
Definition Init_calls (calls : list (string * bool)) (st : State) : State * list error :=
  foldl (λ acc call,
           let '(st', err) := Init call.1 call.2 acc.1 in (st', acc.2 ++ [err]))
        (st, []) calls.

End Package.
End logger.

(** ** A runtime to compute with *)

(** Maps are visited in the order of [map_to_list], paths are joined with a
    slash, the clock stands still, and the analyser succeeds without
    touching the files (its output is already in place).  The one sample
    document that does not decode has its bad line number on line 6. *)
Definition sample_runtime : Runtime :=
  {| range := λ V m, map_to_list m;
     range_perm := λ V m, reflexivity (map_to_list m);
     filepath_Join := λ a b, a +:+ "/" +:+ b;
     time_Now := λ _, "2025-06-01 12:00:00 +0000 UTC";
     exec_Run := λ _ _ fs, (fs, None);
     yaml_complaints := λ _, ["line 6: cannot unmarshal !!str `abc` into int"];
     yaml_error := λ _, "yaml: line 1: did not find expected node content";
     os_error := λ op path, op +:+ " " +:+ path +:+ ": permission denied" |}.

(** * Specification vocabulary *)

(** ** The incidents of a document, in the order the parser meets them *)

Section Flatten.
Context `{RT : Runtime}.

Definition rule_incidents (rulesetName : string) (rv : string * Violation.t)
  : list ValidateIncident.t :=
  mkValidateIncident rulesetName rv.1 <$> Violation.Incidents rv.2.

Definition section_incidents (section : RuleSet.t) : list ValidateIncident.t :=
  match RuleSet.Violations section with
  | Some violations => range violations ≫= rule_incidents (RuleSet.Name section)
  | None => []
  end.

Definition doc_incidents (doc : list RuleSet.t) : list ValidateIncident.t :=
  doc ≫= section_incidents.

End Flatten.

(** What one incident does to the accumulators. *)
Definition record_incident (tcName : string) (st : ParseState) (v : ValidateIncident.t)
  : ParseState :=
  let key := incidentKey tcName v in
  mkParseState
    (int_add (incidentsCount st) 1)
    (<[ValidateIncident.Rule v :=
         int_add (default 0 (ruleIncidentDetails st !! ValidateIncident.Rule v)) 1]>
       (ruleIncidentDetails st))
    (match incidentsDetails st !! key with
     | None => <[key := v]> (incidentsDetails st)
     | Some _ => incidentsDetails st
     end).

Definition record_incidents (tcName : string) (st : ParseState)
    (vs : list ValidateIncident.t) : ParseState :=
  foldl (record_incident tcName) st vs.

(** The first incident of [vs] whose key is [key]. *)
Definition first_with_key (tcName key : string) (vs : list ValidateIncident.t)
  : option ValidateIncident.t :=
  snd <$> list_find (λ v, incidentKey tcName v = key) vs.

(** The sum of the counts of a rule -> count map. *)
Definition sum_counts (m : gmap string Z) : Z :=
  foldr Z.add 0 ((map_to_list m).*2).

(** The file at [outputPath]/output.yaml is there, readable, and decodes
    without error to [doc]. *)
Definition decodes_to `{RT : Runtime} (w : World) (outputPath : string)
    (doc : list RuleSet.t) : Prop :=
  ∃ data, files w !! filepath_Join outputPath "output.yaml" = Some (Bytes data)
          ∧ Unmarshal data = (doc, None).

(** Persisting the incidents cannot fail: nothing is persisted, or no
    path refuses a write. *)
Definition writes_ok (presistPath : string) (w : World) : Prop :=
  presistPath = EmptyString ∨ unwritable w = ∅.

(** The start of [ParseAppCatOutput]'s loops. *)
Definition parse_init : ParseState := mkParseState 0 ∅ ∅.

(** How many incidents of [vs] belong to rule [rule]. *)
Definition rule_occurrences (rule : string) (vs : list ValidateIncident.t) : Z :=
  Z.of_nat (length (filter (λ v, ValidateIncident.Rule v = rule) vs)).

(** What a stretch of the parser's loops that meets the incidents [vs]
    has done when it returns: the accumulators have recorded [vs], the log
    has only grown, files are untouched unless incidents are persisted,
    and every incident met while its key was already taken has left a
    duplicate message in the log. *)
Definition parse_post (tcName presistPath : string) (vs : list ValidateIncident.t)
    (st : ParseState) (w : World) (st' : ParseState) (w' : World) : Prop :=
  st' = record_incidents tcName st vs ∧
  (∃ l, logs w' = logs w ++ l) ∧
  unwritable w' = unwritable w ∧
  (presistPath = EmptyString → files w' = files w) ∧
  (∀ l1 v l2, vs = l1 ++ v :: l2 →
     is_Some (incidentsDetails (record_incidents tcName st l1) !! incidentKey tcName v) →
     msg_duplicate (incidentKey tcName v) ∈ logs w').

(** The incident node [r] sits in the document [raw], in rule-set [rs],
    under rule [rule]. *)
Definition record_in (raw : list RawRuleSet.t) (rs : RawRuleSet.t) (rule : string)
    (r : RawIncident.t) : Prop :=
  ∃ m incs, rs ∈ raw ∧ RawRuleSet.violations rs = Some m ∧ m !! rule = Some incs ∧ r ∈ incs.

(** The line number of an incident node that the decoder accepts: an
    integer literal gives the integer itself (the least int64 when it lies
    below it), a float gives its conversion [int64(f)], the value cut
    towards zero, and an absent or null node gives [0], Go's zero value. *)
Definition line_of (n : YamlScalar) : Z :=
  match n with
  | YInt z => Z.max int_min z
  | YFloat (FInf true) => int_min
  | YFloat (FFinite m e) => float_to_int64 m e
  | _ => 0
  end.

(** The [ValidateIncident] that copies the incident node [r] found under
    rule [rule] of the rule-set named [rulesetName]. *)
Definition incident_of_record (rulesetName rule : string) (r : RawIncident.t)
  : ValidateIncident.t :=
  {| ValidateIncident.RuleSet := rulesetName;
     ValidateIncident.Rule := rule;
     ValidateIncident.Uri := RawIncident.uri r;
     ValidateIncident.Message := RawIncident.message r;
     ValidateIncident.CodeSnip := RawIncident.codeSnip r;
     ValidateIncident.Variables := RawIncident.variables r;
     ValidateIncident.LineNumber := line_of (RawIncident.lineNumber r) |}.

(** The NormalizedSet of a document parsed for project [tcName]. *)
Definition normalized_set `{RT : Runtime} (tcName : string) (doc : list RuleSet.t)
  : gmap string ValidateIncident.t :=
  incidentsDetails (record_incidents tcName parse_init (doc_incidents doc)).

(** From [w] to [w'] the program has only written to the log. *)
Definition only_logged (w w' : World) : Prop :=
  files w' = files w ∧ unwritable w' = unwritable w ∧ ∃ l, logs w' = logs w ++ l.

(** What the two loops of [RunValidate] do to [(result, resultDetails)]. *)
Definition compare_current (baselineIncidents : gmap string ValidateIncident.t)
    (acc : bool * gmap string string) (kv : string * ValidateIncident.t)
  : bool * gmap string string :=
  match baselineIncidents !! kv.1 with
  | None => (false, <[kv.1 := msg_new kv.1]> acc.2)
  | Some baselineIncident =>
      if bool_decide (ValidateIncident.Message kv.2 ≠ ValidateIncident.Message baselineIncident)
      then (false, <[kv.1 := msg_wrong kv.1 (ValidateIncident.Message kv.2)
                                       (ValidateIncident.Message baselineIncident)]> acc.2)
      else acc
  end.

Definition compare_baseline (incidents : gmap string ValidateIncident.t)
    (acc : bool * gmap string string) (kv : string * ValidateIncident.t)
  : bool * gmap string string :=
  match incidents !! kv.1 with
  | None => (false, <[kv.1 := msg_miss kv.1]> acc.2)
  | Some _ => acc
  end.

(** [(result, resultDetails)] at the end of [RunValidate]'s loops. *)
Definition diff `{RT : Runtime} (incidents baselineIncidents : gmap string ValidateIncident.t)
  : bool * gmap string string :=
  foldl (compare_baseline incidents)
        (foldl (compare_current baselineIncidents) (true, ∅) (range incidents))
        (range baselineIncidents).

(** ** Classifications of the differ, read off [resultDetails] and the log *)

Definition is_NEW (resultDetails : gmap string string) (key : string) : Prop :=
  resultDetails !! key = Some (msg_new key).

Definition is_CHANGED (resultDetails : gmap string string) (key : string) : Prop :=
  ∃ message baselineMessage,
    message ≠ baselineMessage ∧
    resultDetails !! key = Some (msg_wrong key message baselineMessage).

Definition is_MISSING (resultDetails : gmap string string) (key : string) : Prop :=
  resultDetails !! key = Some (msg_miss key).

Definition is_MATCHED (resultDetails : gmap string string) (w : World) (key : string) : Prop :=
  resultDetails !! key = None ∧ msg_validated key ∈ logs w.

(** The entry of [resultDetails] under [key], from the two lookups. *)
Definition diff_entry (key : string) (current baseline : option ValidateIncident.t)
  : option string :=
  match current, baseline with
  | Some _, None => Some (msg_new key)
  | Some incident, Some baselineIncident =>
      if bool_decide (ValidateIncident.Message incident ≠ ValidateIncident.Message baselineIncident)
      then Some (msg_wrong key (ValidateIncident.Message incident)
                           (ValidateIncident.Message baselineIncident))
      else None
  | None, Some _ => Some (msg_miss key)
  | None, None => None
  end.

(** ** Cells of the summary tables *)

(** The cell [main] appends for [(rule, target)]. *)
Definition summary_cell (fullIncidentDetails : gmap string (gmap string Z))
    (rule target : string) : string :=
  match fullIncidentDetails !! target ≫= (λ targetHash, targetHash !! rule) with
  | Some count => "," +:+ itoa count
  | None => ", "
  end.

(** The cell the superseded driver appends for [target]. *)
Definition legacy_cell (targetHash : gmap string Z) (target : string) : string :=
  "," +:+ itoa (default 0 (targetHash !! target)).

(** Concatenation of a list of strings. *)
Definition concat_strings (l : list string) : string := foldr String.append EmptyString l.

(** ** Sample projects *)

Definition sample_record (uri message : string) (line : YamlScalar) : RawIncident.t :=
  RawIncident.mk uri message "snip" (VScalar "x") line.

(** The analyser's output for [proj1]: two incidents of [sql-injection]
    that share a key (the second reported under another workspace root),
    one incident of [xss], and a rule-set without violations. *)
Definition sample_current : list RawRuleSet.t :=
  [ RawRuleSet.mk "security"
      (Some (<["sql-injection" :=
                 [ sample_record "/repo/proj1/src/A.java" "M" (YInt 10);
                   sample_record "/ci/proj1/src/A.java" "M2" (YInt 10) ]]>
             (<["xss" := [ sample_record "/repo/proj1/src/B.java" "X" YAbsent ]]> ∅)));
    RawRuleSet.mk "style" None ].

(** The baseline of [proj1]: the [sql-injection] incident with another
    message, no [xss] incident, and an incident of [csrf]. *)
Definition sample_baseline : list RawRuleSet.t :=
  [ RawRuleSet.mk "security"
      (Some (<["sql-injection" := [ sample_record "/base/proj1/src/A.java" "M0" (YInt 10) ]]>
             (<["csrf" := [ sample_record "/base/proj1/src/C.java" "C" (YInt 7) ]]> ∅))) ].

(** A document whose only incident has a line number that is no number. *)
Definition sample_bad_record : RawIncident.t :=
  sample_record "/repo/proj3/src/A.java" "M" (YStr "abc").

Definition sample_bad_ruleset : RawRuleSet.t :=
  RawRuleSet.mk "security" (Some {["sql-injection" := [ sample_bad_record ]]}).

Definition sample_bad_line : list RawRuleSet.t := [ sample_bad_ruleset ].

Definition sample_case (name : string) : TestCase :=
  {| Name := name;
     ApplicationFolder := "appcat";
     ProjectFolder := "projects/" +:+ name;
     OutputFolder := "out/" +:+ name;
     BaseLineFolder := "baseline/" +:+ name +:+ "/appcat_output";
     ActionList := [ActionRun; ActionValidate] |}.

(** The four project folders exist.  [proj1] has output and baseline;
    [proj2] has output that equals its baseline; [proj3] has a baseline
    with a bad line number; [proj4] has no baseline at all. *)
Definition sample_world : World :=
  {| files :=
       list_to_map
         [ ("projects/proj1", Dir); ("projects/proj2", Dir);
           ("projects/proj3", Dir); ("projects/proj4", Dir);
           ("out/proj1/appcat_output/output.yaml", Bytes (YamlRuleSets sample_current));
           ("baseline/proj1/appcat_output/output.yaml", Bytes (YamlRuleSets sample_baseline));
           ("out/proj2/appcat_output/output.yaml", Bytes (YamlRuleSets sample_baseline));
           ("baseline/proj2/appcat_output/output.yaml", Bytes (YamlRuleSets sample_baseline));
           ("out/proj3/appcat_output/output.yaml", Bytes (YamlRuleSets sample_current));
           ("baseline/proj3/appcat_output/output.yaml", Bytes (YamlRuleSets sample_bad_line));
           ("out/proj4/appcat_output/output.yaml", Bytes (YamlRuleSets sample_current)) ];
     unwritable := ∅;
     logs := [] |}.

(** The three incidents of the sample output; the first two share a key. *)
Definition sample_first : ValidateIncident.t :=
  ValidateIncident.mk "security" "sql-injection" "/repo/proj1/src/A.java" "M" "snip"
                      (VScalar "x") 10.

Definition sample_second : ValidateIncident.t :=
  ValidateIncident.mk "security" "sql-injection" "/ci/proj1/src/A.java" "M2" "snip"
                      (VScalar "x") 10.

Definition sample_third : ValidateIncident.t :=
  ValidateIncident.mk "security" "xss" "/repo/proj1/src/B.java" "X" "snip" (VScalar "x") 0.

(** The decoded documents. *)
Definition sample_current_doc : list RuleSet.t := (Unmarshal (RT := sample_runtime) (YamlRuleSets sample_current)).1.
Definition sample_baseline_doc : list RuleSet.t := (Unmarshal (RT := sample_runtime) (YamlRuleSets sample_baseline)).1.

(** The per-project rule counts of a run over two projects. *)
Definition sample_details : gmap string (gmap string Z) :=
  <["proj1" := <["sql-injection" := 2]> (<["xss" := 1]> ∅)]>
    (<["proj2" := <["sql-injection" := 1]> ∅]> ∅).

(** ** What every run of a call has in common *)

(** Whatever the state it starts in, [m] ends the process with status 1 or
    returns a value that satisfies [P]. *)
Definition ends_well {A} (P : A → Prop) (m : M A) : Prop :=
  ∀ w, match m w with
       | Returned a _ => P a
       | Exited code _ => code = 1
       end.

(** Whatever the state it starts in, and however it ends, [m] writes to the
    log only. *)
Definition quiet {A} (m : M A) : Prop :=
  ∀ w, only_logged w (final_world (m w)).

(** From [w] to [w'] the only files that may have changed are incident
    files under [presistPath]: each holds the marshalled form of an
    incident of [vs] and is named after the rule of that incident. *)
Definition incident_files `{RT : Runtime} (presistPath : string)
    (vs : list ValidateIncident.t) (w w' : World) : Prop :=
  ∀ path,
    files w' !! path = files w !! path ∨
    ∃ v i, v ∈ vs ∧
           path = filepath_Join presistPath
                    (ValidateIncident.Rule v +:+ "_" +:+ itoa i +:+ IncidentExtension) ∧
           files w' !! path = Some (Bytes (MarshalledIncident v)).


(** [resultMessage] is a message [Run] builds on a path that ends in
    [return resultMessage, nil]: a PASS or FAIL line when validation is
    among the actions, the word [passed] otherwise. *)
Definition is_report `{RT : Runtime} (tc : TestCase) (resultMessage : string) : Prop :=
  if containsAction (ActionList tc) ActionValidate
  then ∃ caseResults, resultMessage = Run_resultMessage tc caseResults
  else resultMessage = "passed".

(** ** More samples *)

(** A run-time that visits every map in the opposite order. *)
Definition reverse_runtime : Runtime :=
  {| range := λ V m, reverse (map_to_list m);
     range_perm := λ V m, reverse_Permutation (map_to_list m);
     filepath_Join := λ a b, a +:+ "/" +:+ b;
     time_Now := λ _, "2025-06-01 12:00:00 +0000 UTC";
     exec_Run := λ _ _ fs, (fs, None);
     yaml_complaints := λ _, ["line 6: cannot unmarshal !!str `abc` into int"];
     yaml_error := λ _, "yaml: line 1: did not find expected node content";
     os_error := λ op path, op +:+ " " +:+ path +:+ ": permission denied" |}.

(** The analyser's output for a project without findings: a rule-set
    without violations and a rule with an empty incident list. *)
Definition sample_clean : list RawRuleSet.t :=
  [ RawRuleSet.mk "style" None;
    RawRuleSet.mk "security" (Some {["xss" := []]}) ].

Definition sample_clean_doc : list RuleSet.t := (Unmarshal (RT := sample_runtime) (YamlRuleSets sample_clean)).1.

Definition sample_clean_world : World :=
  {| files := {["out/proj5/appcat_output/output.yaml" := Bytes (YamlRuleSets sample_clean)]};
     unwritable := ∅;
     logs := [] |}.

(** The sample projects after [RunAnalyze] has created the folder for the
    incident files of [proj1]. *)
Definition sample_persist_world : World :=
  {| files := <["out/proj1/analysis_output" := Dir]> (files sample_world);
     unwritable := ∅;
     logs := [] |}.

(** A file system in which the path [afile/sub] lies under a regular
    file: [os.Stat] fails on it with "not a directory", an error that
    [os.IsNotExist] does not accept. *)
Definition sample_out_of_reach_world : World :=
  {| files :=
       list_to_map
         [ ("afile", Bytes (Text "x"));
           ("afile/sub", Inaccessible "not a directory");
           ("repos", Dir); ("baseline", Dir); ("out", Dir);
           ("repos.txt", Bytes (Text ("proj1" +:+ LF +:+ " " +:+ LF +:+ "proj2"))) ];
     unwritable := ∅;
     logs := [] |}.

(** A test case whose project folder is that path. *)
Definition sample_out_of_reach_case : TestCase :=
  {| Name := "sub";
     ApplicationFolder := "appcat";
     ProjectFolder := "afile/sub";
     OutputFolder := "out";
     BaseLineFolder := "baseline";
     ActionList := [ActionRun] |}.

(** [string(file)] for the text files of the samples, and a trimming of
    the pieces that consist of one space. *)
Definition sample_string_of_bytes (d : FileData) : string :=
  match d with Text s => s | _ => EmptyString end.

Definition sample_TrimSpace (s : string) : string :=
  if bool_decide (s = " ") then EmptyString else s.

(** A test case that only validates. *)
Definition sample_validate_case (name : string) : TestCase :=
  {| Name := name;
     ApplicationFolder := "appcat";
     ProjectFolder := "projects/" +:+ name;
     OutputFolder := "out/" +:+ name;
     BaseLineFolder := "baseline/" +:+ name +:+ "/appcat_output";
     ActionList := [ActionValidate] |}.

(** What the superseded driver's [AnalyzeOutput] returned for two
    projects. *)
Definition sample_analysed : list (string * gmap string Z) :=
  [ ("proj1", <["sql-injection" := 2]> (<["xss" := 1]> ∅));
    ("proj2", <["sql-injection" := 1]> ∅) ].

(** The baseline of [proj1] as an analyser would report it from another
    workspace: the same incidents under the root [/ci/]. *)
Definition sample_relocated : list RawRuleSet.t :=
  [ RawRuleSet.mk "security"
      (Some (<["sql-injection" := [ sample_record "/ci/proj1/src/A.java" "M0" (YInt 10) ]]>
             (<["csrf" := [ sample_record "/ci/proj1/src/C.java" "C" (YInt 7) ]]> ∅))) ].

Definition sample_relocated_doc : list RuleSet.t :=
  (Unmarshal (RT := sample_runtime) (YamlRuleSets sample_relocated)).1.

Definition sample_relocated_world : World :=
  {| files :=
       list_to_map
         [ ("out/proj1/appcat_output/output.yaml", Bytes (YamlRuleSets sample_relocated));
           ("baseline/proj1/appcat_output/output.yaml", Bytes (YamlRuleSets sample_baseline)) ];
     unwritable := ∅;
     logs := [] |}.

(** * Proofs *)

(** ** Integers *)

Lemma int_wrap_id z : int_min ≤ z ≤ int_max → int_wrap z = z.
Proof.
  unfold int_min, int_max, int_wrap. intros Hz.
  replace (2 ^ 64) with (2 * 2 ^ 63) by reflexivity.
  assert (0 < 2 ^ 63) by reflexivity.
  rewrite Z.mod_small; lia.
Qed.

Lemma int_add_id a b : int_min ≤ a + b ≤ int_max → int_add a b = a + b.
Proof. apply int_wrap_id. Qed.

(** ** Strings *)

Lemma string_app_cons c s t : String c s +:+ t = String c (s +:+ t).
Proof. reflexivity. Qed.

Lemma string_app_empty_l s : EmptyString +:+ s = s.
Proof. reflexivity. Qed.

Lemma string_app_empty_r s : s +:+ EmptyString = s.
Proof. induction s as [|c s IH]; [done|]. by rewrite string_app_cons, IH. Qed.

Lemma string_app_assoc s t u : (s +:+ t) +:+ u = s +:+ (t +:+ u).
Proof. induction s as [|c s IH]; [done|]. by rewrite !string_app_cons, IH. Qed.

Lemma prefix_spec sub s : String.prefix sub s = true ↔ ∃ post, s = sub +:+ post.
Proof.
  revert s. induction sub as [|c sub IH]; intros s; simpl.
  - split; [intros _; by exists s | by destruct s].
  - destruct s as [|d s]; simpl.
    + split; [done | by intros [post ?]].
    + destruct (Ascii.ascii_dec c d) as [->|Hne].
      * rewrite IH. split; intros [post Hp]; exists post.
        -- by rewrite string_app_cons, <- Hp.
        -- rewrite string_app_cons in Hp. by injection Hp.
      * split; [done|]. intros [post Hp]. rewrite string_app_cons in Hp. congruence.
Qed.


Lemma occurs_in_app_l s t u : occurs_in s t → occurs_in s (u +:+ t).
Proof.
  intros (pre & post & ->). exists (u +:+ pre), post. by rewrite string_app_assoc.
Qed.

Lemma occurs_in_app_r s t u : occurs_in s t → occurs_in s (t +:+ u).
Proof.
  intros (pre & post & ->). exists pre, (post +:+ u). by rewrite !string_app_assoc.
Qed.

Lemma occurs_in_trans s t u : occurs_in s t → occurs_in t u → occurs_in s u.
Proof.
  intros Hst (pre & post & ->). by apply occurs_in_app_l, occurs_in_app_r.
Qed.

Lemma Index_nil sub : Index EmptyString sub = if String.prefix sub EmptyString then 0 else -1.
Proof. reflexivity. Qed.

Lemma Index_cons c s sub :
  Index (String c s) sub =
  if String.prefix sub (String c s) then 0
  else if Index s sub =? -1 then -1 else Index s sub + 1.
Proof. reflexivity. Qed.

Lemma Index_range s sub : Index s sub = -1 ∨ 0 ≤ Index s sub.
Proof.
  induction s as [|c s IH]; [rewrite Index_nil | rewrite Index_cons].
  - destruct (String.prefix sub EmptyString); lia.
  - destruct (String.prefix sub (String c s)); [lia|].
    destruct (Z.eqb_spec (Index s sub) (-1)); lia.
Qed.

(** [Index] finds an occurrence, and the leftmost one. *)
Lemma Index_found s sub :
  Index s sub ≠ -1 →
  ∃ pre post,
    s = pre +:+ sub +:+ post ∧
    Z.of_nat (String.length pre) = Index s sub ∧
    slice_from s (Index s sub) = sub +:+ post ∧
    ∀ pre' post', s = pre' +:+ sub +:+ post' →
                  (String.length pre ≤ String.length pre')%nat.
Proof.
  induction s as [|c s IH]; [rewrite !Index_nil | rewrite !Index_cons].
  - destruct (String.prefix sub EmptyString) eqn:Hp; [|done]. intros _.
    apply prefix_spec in Hp as [post Hp]. exists EmptyString, post.
    repeat split; [done | | intros; simpl; lia].
    by rewrite Hp.
  - destruct (String.prefix sub (String c s)) eqn:Hp.
    + intros _. apply prefix_spec in Hp as [post Hp]. exists EmptyString, post.
      repeat split; [done | | intros; simpl; lia].
      by rewrite Hp.
    + destruct (Z.eqb_spec (Index s sub) (-1)) as [|Hi]; [done|]. intros _.
      destruct (IH Hi) as (pre & post & Hs & Hlen & Hslice & Hfirst).
      exists (String c pre), post. repeat split.
      * by rewrite string_app_cons, <- Hs.
      * simpl String.length. lia.
      * unfold slice_from in *.
        destruct (Index_range s sub) as [|Hge]; [done|].
        replace (Z.to_nat (Index s sub + 1)) with (S (Z.to_nat (Index s sub))) by lia.
        done.
      * intros pre' post' Heq. destruct pre' as [|d pre'].
        -- rewrite string_app_empty_l in Heq.
           assert (String.prefix sub (String c s) = true) as Hp'
             by (apply prefix_spec; eauto).
           congruence.
        -- rewrite string_app_cons in Heq. injection Heq as -> Heq.
           specialize (Hfirst _ _ Heq). simpl. lia.
Qed.

Lemma Index_not_found s sub : Index s sub = -1 → ¬ occurs_in sub s.
Proof.
  induction s as [|c s IH]; [rewrite !Index_nil | rewrite !Index_cons].
  - destruct (String.prefix sub EmptyString) eqn:Hp; [done|]. intros _ (pre & post & Heq).
    destruct pre; [|done]. rewrite string_app_empty_l in Heq.
    assert (String.prefix sub EmptyString = true) by (apply prefix_spec; eauto). congruence.
  - destruct (String.prefix sub (String c s)) eqn:Hp; [done|].
    destruct (Z.eqb_spec (Index s sub) (-1)) as [Hi|Hi].
    + intros _ (pre & post & Heq). destruct pre as [|d pre].
      * rewrite string_app_empty_l in Heq.
        assert (String.prefix sub (String c s) = true) by (apply prefix_spec; eauto).
        congruence.
      * rewrite string_app_cons in Heq. injection Heq as -> Heq.
        apply (IH Hi). by exists pre, post.
    + destruct (Index_range s sub); lia.
Qed.

(** [tempPath] is the suffix from the leftmost occurrence of the name. *)
Lemma tempPath_found tcName uri :
  occurs_in tcName uri →
  ∃ pre post,
    uri = pre +:+ tempPath tcName uri ∧
    tempPath tcName uri = tcName +:+ post ∧
    ∀ pre' post', uri = pre' +:+ tcName +:+ post' →
                  (String.length pre ≤ String.length pre')%nat.
Proof.
  intros Hocc. unfold tempPath.
  destruct (Z.eqb_spec (Index uri tcName) (-1)) as [Hi|Hi]; simpl.
  - by apply Index_not_found in Hi.
  - destruct (Index_found _ _ Hi) as (pre & post & Huri & _ & Hslice & Hfirst).
    exists pre, post. rewrite Hslice. by repeat split.
Qed.

Lemma tempPath_not_found tcName uri :
  ¬ occurs_in tcName uri → tempPath tcName uri = uri.
Proof.
  intros Hocc. unfold tempPath.
  destruct (Z.eqb_spec (Index uri tcName) (-1)) as [Hi|Hi]; simpl; [done|].
  destruct (Index_found _ _ Hi) as (pre & post & Huri & _). destruct Hocc.
  by exists pre, post.
Qed.

(** ** The monad *)

Lemma bind_Returned {A B} (m : M A) (f : A → M B) w a w1 :
  m w = Returned a w1 → (m ≫= f) w = f a w1.
Proof. intros Hm. unfold mbind, M_bind. by rewrite Hm. Qed.

Lemma bind_Exited {A B} (m : M A) (f : A → M B) w c w1 :
  m w = Exited c w1 → (m ≫= f) w = Exited c w1.
Proof. intros Hm. unfold mbind, M_bind. by rewrite Hm. Qed.

Lemma bind_Printf {B} msg (f : unit → M B) w :
  (Printf msg ≫= f) w = f () (add_log msg w).
Proof. reflexivity. Qed.

Lemma bind_Fatalf {B} msg (f : unit → M B) w :
  (Fatalf msg ≫= f) w = Exited 1 (add_log msg w).
Proof. reflexivity. Qed.

Lemma bind_mret {A B} (a : A) (f : A → M B) w : (mret a ≫= f) w = f a w.
Proof. reflexivity. Qed.

Lemma forM_nil {A S} (body : A → S → M S) s w : forM [] body s w = Returned s w.
Proof. reflexivity. Qed.

Lemma forM_cons {A S} x l (body : A → S → M S) s w :
  forM (x :: l) body s w = (body x s ≫= forM l body) w.
Proof. reflexivity. Qed.

(** A loop whose body always returns, returns. *)
Lemma forM_returns {A S} (body : A → S → M S) l :
  (∀ x s w, ∃ s' w', body x s w = Returned s' w') →
  ∀ s w, ∃ s' w', forM l body s w = Returned s' w'.
Proof.
  intros Hbody. induction l as [|x l IH]; intros s w.
  - by exists s, w.
  - destruct (Hbody x s w) as (s1 & w1 & H1).
    rewrite forM_cons, (bind_Returned _ _ _ _ _ H1). apply IH.
Qed.

(** A loop whose body ends the process on the first element never gets
    to the second. *)
Lemma forM_exits_first {A S} (body : A → S → M S) x l s w c w1 :
  body x s w = Exited c w1 → forM (x :: l) body s w = Exited c w1.
Proof. intros H1. by rewrite forM_cons, (bind_Exited _ _ _ _ _ H1). Qed.

Lemma logs_add_log msg w : logs (add_log msg w) = logs w ++ [msg].
Proof. reflexivity. Qed.

(** ** The parser's loops *)

Lemma bind_bind {A B C} (m : M A) (f : A → M B) (g : B → M C) w :
  ((m ≫= f) ≫= g) w = (m ≫= (λ a, f a ≫= g)) w.
Proof. unfold mbind, M_bind. by destruct (m w). Qed.

Section ParserProofs.
Context `{RT : Runtime}.

Lemma parse_post_nil tcName presistPath st w w' :
  (∃ l, logs w' = logs w ++ l) → unwritable w' = unwritable w → files w' = files w →
  parse_post tcName presistPath [] st w st w'.
Proof.
  intros Hl Hu Hf. repeat split; try done.
  intros l1 v l2 Heq. by destruct l1.
Qed.

Lemma parse_post_app tcName presistPath vs1 vs2 st w st1 w1 st2 w2 :
  parse_post tcName presistPath vs1 st w st1 w1 →
  parse_post tcName presistPath vs2 st1 w1 st2 w2 →
  parse_post tcName presistPath (vs1 ++ vs2) st w st2 w2.
Proof.
  intros (-> & [la Hla] & Hu1 & Hf1 & Hd1) (-> & [lb Hlb] & Hu2 & Hf2 & Hd2).
  unfold parse_post, record_incidents. rewrite foldl_app. repeat split.
  - exists (la ++ lb). by rewrite Hlb, Hla, <- app_assoc.
  - congruence.
  - intros Hp. rewrite Hf2, Hf1; done.
  - intros l1 v l2 Heq Hsome.
    apply app_eq_inv in Heq as [(k & -> & Hk)|(k & -> & Hk)].
    + destruct k as [|v' k].
      * simpl in Hk. subst vs2. rewrite app_nil_r in Hd2.
        by apply (Hd2 [] v l2).
      * simpl in Hk. injection Hk as <- ->.
        rewrite Hlb. apply elem_of_app. left.
        by apply (Hd1 l1 v k).
    + apply (Hd2 k v l2); [done|].
      unfold record_incidents in *. by rewrite foldl_app in Hsome.
Qed.

Lemma parse_post_log tcName presistPath vs st w st' w' msg :
  parse_post tcName presistPath vs st (add_log msg w) st' w' →
  parse_post tcName presistPath vs st w st' w'.
Proof.
  intros (-> & [l Hl] & Hu & Hf & Hd). repeat split; try done.
  exists (msg :: l). rewrite Hl, logs_add_log, <- app_assoc. done.
Qed.

Lemma writes_ok_post tcName presistPath vs st w st' w' :
  parse_post tcName presistPath vs st w st' w' →
  writes_ok presistPath w → writes_ok presistPath w'.
Proof. intros (_ & _ & Hu & _) [?|?]; [by left | right; congruence]. Qed.

Lemma persist_incident_returns presistPath path data w :
  writes_ok presistPath w →
  ∃ w',
    ((if bool_decide (presistPath ≠ EmptyString) then
        err ← WriteFile path data;
        match err with
        | Some e => Fatalf ("Failed to write incident file: " +:+ e)
        | None => mret ()
        end
      else mret ()) : M unit) w = Returned () w' ∧
    logs w' = logs w ∧ unwritable w' = unwritable w ∧
    (presistPath = EmptyString → files w' = files w).
Proof.
  intros Hok. case_bool_decide as Hp.
  - destruct Hok as [?|Hu]; [done|].
    unfold mbind, M_bind, WriteFile. rewrite Hu.
    rewrite bool_decide_eq_false_2 by set_solver.
    eexists. split; [reflexivity|]. by repeat split.
  - exists w. by repeat split.
Qed.

Lemma parse_incident_post tc presistPath rulesetName ruleName i incident st w :
  writes_ok presistPath w →
  ∃ st' w',
    parse_incident tc presistPath rulesetName ruleName (i, incident) st w = Returned st' w' ∧
    parse_post (Name tc) presistPath [mkValidateIncident rulesetName ruleName incident]
               st w st' w'.
Proof.
  intros Hok. unfold parse_incident.
  rewrite !bind_Printf.
  set (v := mkValidateIncident rulesetName ruleName incident).
  set (key := incidentKey (Name tc) v).
  set (w0 := add_log _ (add_log _ w)).
  assert (writes_ok presistPath w0) as Hok0 by done.
  destruct (incidentsDetails st !! key) as [old|] eqn:Hkey.
  - cbv beta iota. rewrite bind_bind, bind_Printf, bind_mret.
    set (w1 := add_log _ w0).
    destruct (persist_incident_returns presistPath
                (filepath_Join presistPath (ruleName +:+ "_" +:+ itoa i +:+ IncidentExtension))
                (MarshalledIncident v) w1) as (w' & Hrun & Hl & Hu & Hf); [done|].
    rewrite (bind_Returned _ _ _ _ _ Hrun).
    do 2 eexists. split; [reflexivity|]. repeat split.
    + unfold record_incidents, record_incident. simpl. fold key. by rewrite Hkey.
    + rewrite Hl. unfold w1, w0. rewrite !logs_add_log, <- !app_assoc. eauto.
    + by rewrite Hu.
    + intros Hp. by rewrite (Hf Hp).
    + intros l1 v' l2 Heq _. destruct l1 as [|? [|? ?]]; try done.
      simpl in Heq. simplify_eq. rewrite Hl. unfold w1. rewrite logs_add_log.
      apply elem_of_app. right. by apply list_elem_of_singleton.
  - cbv beta iota. rewrite bind_mret.
    destruct (persist_incident_returns presistPath
                (filepath_Join presistPath (ruleName +:+ "_" +:+ itoa i +:+ IncidentExtension))
                (MarshalledIncident v) w0) as (w' & Hrun & Hl & Hu & Hf); [done|].
    rewrite (bind_Returned _ _ _ _ _ Hrun).
    do 2 eexists. split; [reflexivity|]. repeat split.
    + unfold record_incidents, record_incident. simpl. fold key. by rewrite Hkey.
    + rewrite Hl. unfold w0. rewrite !logs_add_log, <- !app_assoc. eauto.
    + by rewrite Hu.
    + intros Hp. by rewrite (Hf Hp).
    + intros l1 v' l2 Heq Hs. destruct l1 as [|? [|? ?]]; try done.
      simpl in Heq. simplify_eq. unfold record_incidents in Hs. simpl in Hs.
      fold key in Hs. rewrite Hkey in Hs. by destruct Hs.
Qed.

(** A loop whose body meets the incidents [flat x] meets [l ≫= flat]. *)
Lemma forM_parse_post {A} tcName presistPath (flat : A → list ValidateIncident.t)
    (body : A → ParseState → M ParseState) :
  (∀ x st w, writes_ok presistPath w →
     ∃ st' w', body x st w = Returned st' w' ∧
               parse_post tcName presistPath (flat x) st w st' w') →
  ∀ l st w, writes_ok presistPath w →
    ∃ st' w', forM l body st w = Returned st' w' ∧
              parse_post tcName presistPath (l ≫= flat) st w st' w'.
Proof.
  intros Hbody. induction l as [|x l IH]; intros st w Hok.
  - exists st, w. split; [done|]. apply parse_post_nil; [by exists [];
      rewrite app_nil_r | done | done].
  - destruct (Hbody x st w Hok) as (st1 & w1 & Hrun1 & Hpost1).
    destruct (IH st1 w1) as (st2 & w2 & Hrun2 & Hpost2);
      [by eapply writes_ok_post|].
    exists st2, w2. split.
    + by rewrite forM_cons, (bind_Returned _ _ _ _ _ Hrun1).
    + rewrite bind_cons. by eapply parse_post_app.
Qed.

Lemma indexed_bind {A B} (h : A → B) (l : list A) :
  indexed l ≫= (λ ii, [h ii.2]) = h <$> l.
Proof.
  unfold indexed.
  enough (∀ f : nat → A → Z * A, (∀ i x, (f i x).2 = x) →
            imap f l ≫= (λ ii, [h ii.2]) = h <$> l) as H by (intros; by apply H).
  induction l as [|x l IH]; intros f Hf; [done|].
  simpl. rewrite Hf. f_equal. apply IH. intros i y. apply Hf.
Qed.

Lemma parse_rule_post tc presistPath rulesetName rv st w :
  writes_ok presistPath w →
  ∃ st' w',
    parse_rule tc presistPath rulesetName rv st w = Returned st' w' ∧
    parse_post (Name tc) presistPath (rule_incidents rulesetName rv) st w st' w'.
Proof.
  intros Hok. destruct rv as [ruleName violation]. unfold parse_rule, rule_incidents.
  rewrite bind_Printf. simpl. case_bool_decide as Hlen.
  - destruct (forM_parse_post (Name tc) presistPath
                (λ ii, [mkValidateIncident rulesetName ruleName ii.2])
                (parse_incident tc presistPath rulesetName ruleName)) with
      (l := indexed (Violation.Incidents violation)) (st := st)
      (w := add_log ("  [ParseOutput] Processing rule: " +:+ ruleName +:+ LF) w)
      as (st' & w' & Hrun & Hpost); [|done|].
    + intros [i incident] st0 w0 Hok0. by apply parse_incident_post.
    + exists st', w'. split; [done|]. rewrite indexed_bind in Hpost.
      by eapply parse_post_log.
  - destruct (Violation.Incidents violation) as [|? ?]; [|simpl in Hlen; lia].
    rewrite bind_Printf. do 2 eexists. split; [reflexivity|].
    apply parse_post_nil; [|done|done].
    rewrite !logs_add_log, <- app_assoc. eauto.
Qed.

Lemma parse_section_post tc presistPath section st w :
  writes_ok presistPath w →
  ∃ st' w',
    parse_section tc presistPath section st w = Returned st' w' ∧
    parse_post (Name tc) presistPath (section_incidents section) st w st' w'.
Proof.
  intros Hok. unfold parse_section, section_incidents. rewrite bind_Printf.
  destruct (RuleSet.Violations section) as [violations|].
  - destruct (forM_parse_post (Name tc) presistPath
                (rule_incidents (RuleSet.Name section))
                (parse_rule tc presistPath (RuleSet.Name section))) with
      (l := range violations) (st := st)
      (w := add_log ("[ParseOutput] Processing ruleset: " +:+ RuleSet.Name section +:+ LF) w)
      as (st' & w' & Hrun & Hpost); [|done|].
    + intros rv st0 w0 Hok0. by apply parse_rule_post.
    + exists st', w'. split; [done|]. by eapply parse_post_log.
  - rewrite bind_Printf. do 2 eexists. split; [reflexivity|].
    apply parse_post_nil; [|done|done].
    rewrite !logs_add_log, <- app_assoc. eauto.
Qed.

(** [ParseAppCatOutput] on a document that is there and decodes: it
    returns, without error, the accumulators that have recorded the
    document's incidents in order. *)
Lemma ParseAppCatOutput_post tc outputPath presistPath w doc :
  decodes_to w outputPath doc →
  writes_ok presistPath w →
  ∃ st' w',
    ParseAppCatOutput tc outputPath presistPath w =
      Returned (incidentsDetails st', ruleIncidentDetails st', incidentsCount st', None) w' ∧
    parse_post (Name tc) presistPath (doc_incidents doc) parse_init w st' w'.
Proof.
  intros (data & Hfile & Hdec) Hok. unfold ParseAppCatOutput.
  rewrite bind_Printf.
  set (w0 := add_log _ w).
  unfold mbind at 1, M_bind at 1, Stat_IsNotExist at 1.
  change (files w0) with (files w). rewrite Hfile.
  rewrite bool_decide_eq_false_2 by done.
  unfold mbind at 1, M_bind at 1, ReadFile at 1.
  change (files w0) with (files w). rewrite Hfile.
  rewrite bind_mret, Hdec, bind_mret.
  destruct (forM_parse_post (Name tc) presistPath section_incidents
              (parse_section tc presistPath)) with
    (l := doc) (st := parse_init) (w := w0) as (st' & w' & Hrun & Hpost); [|done|].
  - intros section st0 w1 Hok1. by apply parse_section_post.
  - exists st', w'. split.
    + by rewrite (bind_Returned _ _ _ _ _ Hrun).
    + by eapply parse_post_log.
Qed.

End ParserProofs.

(** ** What the accumulators hold *)

Lemma record_incidents_snoc tcName st vs v :
  record_incidents tcName st (vs ++ [v]) =
  record_incident tcName (record_incidents tcName st vs) v.
Proof. unfold record_incidents. by rewrite foldl_app. Qed.

(** The NormalizedSet keeps, under each key, the first incident with it. *)
Lemma record_incidents_lookup tcName vs st key :
  incidentsDetails (record_incidents tcName st vs) !! key =
  match incidentsDetails st !! key with
  | Some v => Some v
  | None => first_with_key tcName key vs
  end.
Proof.
  revert st. induction vs as [|v vs IH]; intros st.
  - unfold first_with_key. simpl. by destruct (incidentsDetails st !! key).
  - change (record_incidents tcName st (v :: vs))
      with (record_incidents tcName (record_incident tcName st v) vs).
    rewrite IH. unfold record_incident at 1. simpl incidentsDetails.
    unfold first_with_key. simpl list_find.
    destruct (decide (incidentKey tcName v = key)) as [<-|Hne].
    + destruct (incidentsDetails st !! incidentKey tcName v) as [old|] eqn:Hold.
      * by rewrite Hold.
      * by rewrite lookup_insert_eq.
    + destruct (incidentsDetails st !! incidentKey tcName v) as [old|] eqn:Hold.
      * destruct (incidentsDetails st !! key); [done|].
        by destruct (list_find _ vs) as [[? ?]|].
      * rewrite lookup_insert_ne by done.
        destruct (incidentsDetails st !! key); [done|].
        by destruct (list_find _ vs) as [[? ?]|].
Qed.

Lemma first_with_key_Some tcName key vs v :
  first_with_key tcName key vs = Some v →
  incidentKey tcName v = key ∧
  ∃ l1 l2, vs = l1 ++ v :: l2 ∧ ∀ v', v' ∈ l1 → incidentKey tcName v' ≠ key.
Proof.
  unfold first_with_key. destruct (list_find _ vs) as [[i x]|] eqn:Hfind; [|done].
  simpl. intros [= ->]. apply list_find_Some in Hfind as (Hi & Hkey & Hbefore).
  split; [done|].
  exists (take i vs), (drop (S i) vs). split.
  - by rewrite <- (take_drop_middle vs i v) at 1.
  - intros v' Hin. apply list_elem_of_lookup in Hin as [j Hj].
    pose proof (lookup_lt_Some _ _ _ Hj) as Hlt. rewrite length_take in Hlt.
    rewrite lookup_take_lt in Hj by lia. apply (Hbefore j v' Hj). lia.
Qed.

Lemma first_with_key_None tcName key vs :
  first_with_key tcName key vs = None ↔ ∀ v, v ∈ vs → incidentKey tcName v ≠ key.
Proof.
  unfold first_with_key. rewrite fmap_None, list_find_None, Forall_forall. done.
Qed.

Lemma first_with_key_first tcName v vs l1 l2 :
  vs = l1 ++ v :: l2 →
  (∀ v', v' ∈ l1 → incidentKey tcName v' ≠ incidentKey tcName v) →
  first_with_key tcName (incidentKey tcName v) vs = Some v.
Proof.
  intros -> Hbefore. unfold first_with_key.
  rewrite list_find_app_r.
  - simpl. rewrite decide_True by done. done.
  - apply list_find_None, Forall_forall. done.
Qed.

(** The keys of the NormalizedSet are the keys of the incidents met. *)
Lemma record_incidents_dom tcName vs :
  dom (incidentsDetails (record_incidents tcName parse_init vs)) =
  list_to_set (incidentKey tcName <$> vs).
Proof.
  apply set_eq. intros key.
  rewrite elem_of_dom, record_incidents_lookup, elem_of_list_to_set, list_elem_of_fmap.
  simpl. rewrite lookup_empty. split.
  - intros [v Hv]. apply first_with_key_Some in Hv as (<- & l1 & l2 & -> & _).
    exists v. split; [done|]. set_solver.
  - intros (v & -> & Hin).
    destruct (first_with_key tcName (incidentKey tcName v) vs) eqn:Hf; [done|].
    rewrite first_with_key_None in Hf. by destruct (Hf v Hin).
Qed.

Lemma size_list_to_set_le (l : list string) :
  (size (list_to_set l : gset string) ≤ length l)%nat.
Proof.
  induction l as [|x l IH]; [done|]. simpl.
  destruct (decide (x ∈ l)) as [Hin|Hin].
  - rewrite (subseteq_union_1_L {[x]} (list_to_set l)); [lia|].
    by apply singleton_subseteq_l, elem_of_list_to_set.
  - rewrite size_union, size_singleton; [lia|].
    by apply disjoint_singleton_l; rewrite elem_of_list_to_set.
Qed.

Lemma size_list_to_set_eq (l : list string) :
  size (list_to_set l : gset string) = length l ↔ NoDup l.
Proof.
  split; [|apply size_list_to_set].
  induction l as [|x l IH]; [constructor|]. simpl. intros Hsize.
  pose proof (size_list_to_set_le l) as Hle.
  destruct (decide (x ∈ l)) as [Hin|Hin].
  - rewrite (subseteq_union_1_L {[x]} (list_to_set l)) in Hsize; [lia|].
    by apply singleton_subseteq_l, elem_of_list_to_set.
  - rewrite size_union, size_singleton in Hsize
      by (by apply disjoint_singleton_l; rewrite elem_of_list_to_set).
    constructor; [done|]. apply IH. lia.
Qed.

Lemma record_incidents_size tcName vs :
  size (incidentsDetails (record_incidents tcName parse_init vs)) =
  size (list_to_set (incidentKey tcName <$> vs) : gset string).
Proof. by rewrite <- record_incidents_dom, size_dom. Qed.

(** ** Counting *)

Lemma sum_counts_perm (l1 l2 : list Z) :
  l1 ≡ₚ l2 → foldr Z.add 0 l1 = foldr Z.add 0 l2.
Proof. induction 1; simpl; lia. Qed.

Lemma sum_counts_empty : sum_counts ∅ = 0.
Proof. unfold sum_counts. by rewrite map_to_list_empty. Qed.

Lemma sum_counts_insert_None (m : gmap string Z) r x :
  m !! r = None → sum_counts (<[r := x]> m) = x + sum_counts m.
Proof.
  intros Hr. unfold sum_counts.
  rewrite (sum_counts_perm _ (x :: (map_to_list m).*2)); [done|].
  by rewrite map_to_list_insert.
Qed.

Lemma sum_counts_insert_Some (m : gmap string Z) r c x :
  m !! r = Some c → sum_counts (<[r := x]> m) = x - c + sum_counts m.
Proof.
  intros Hr.
  rewrite <- (insert_delete_eq m r x).
  rewrite <- (insert_id m r c Hr) at 2. rewrite <- (insert_delete_eq m r c).
  rewrite !sum_counts_insert_None by apply lookup_delete_eq. lia.
Qed.

Lemma rule_occurrences_snoc rule vs v :
  rule_occurrences rule (vs ++ [v]) =
  rule_occurrences rule vs + (if decide (ValidateIncident.Rule v = rule) then 1 else 0).
Proof.
  unfold rule_occurrences. rewrite filter_app, length_app.
  rewrite filter_cons, filter_nil. case_decide; simpl; lia.
Qed.

Lemma rule_occurrences_range rule vs :
  0 ≤ rule_occurrences rule vs ≤ Z.of_nat (length vs).
Proof.
  unfold rule_occurrences. pose proof (length_filter (λ v, ValidateIncident.Rule v = rule) vs).
  lia.
Qed.

(** As long as the incidents fit an [int], the total is their number,
    each rule's count is the number of its incidents (rules without any
    have no entry), and the counts add up to the total. *)
Lemma record_incidents_counts tcName vs :
  Z.of_nat (length vs) ≤ int_max →
  let st := record_incidents tcName parse_init vs in
  incidentsCount st = Z.of_nat (length vs) ∧
  (∀ rule, ruleIncidentDetails st !! rule =
           if decide (rule_occurrences rule vs = 0) then None
           else Some (rule_occurrences rule vs)) ∧
  sum_counts (ruleIncidentDetails st) = Z.of_nat (length vs).
Proof.
  induction vs as [|v vs IH] using rev_ind; intros Hlen.
  - simpl. split; [done|]. split; [|apply sum_counts_empty].
    intros rule. by rewrite lookup_empty.
  - rewrite length_app in Hlen. simpl in Hlen.
    destruct IH as (Hcount & Hrules & Hsum); [lia|].
    rewrite record_incidents_snoc. set (st := record_incidents tcName parse_init vs) in *.
    unfold record_incident. simpl.
    assert (int_min ≤ 0) by done.
    pose proof (rule_occurrences_range (ValidateIncident.Rule v) vs) as Hocc.
    assert (default 0 (ruleIncidentDetails st !! ValidateIncident.Rule v)
            = rule_occurrences (ValidateIncident.Rule v) vs) as Hdef.
    { rewrite Hrules. case_decide as H0; simpl; lia. }
    rewrite Hdef, !int_add_id by lia. rewrite length_app. simpl.
    repeat split.
    + lia.
    + intros rule. rewrite rule_occurrences_snoc.
      pose proof (rule_occurrences_range rule vs).
      destruct (decide (ValidateIncident.Rule v = rule)) as [->|Hne].
      * rewrite lookup_insert_eq. case_decide; [lia|done].
      * rewrite lookup_insert_ne by done. rewrite Hrules.
        rewrite Z.add_0_r. done.
    + destruct (ruleIncidentDetails st !! ValidateIncident.Rule v) as [c|] eqn:Hc.
      * rewrite (sum_counts_insert_Some _ _ c) by done. simpl in Hdef. lia.
      * rewrite sum_counts_insert_None by done. simpl in Hdef. lia.
Qed.

(** ** The parser: the claims *)

Section ParserClaims.
Context `{RT : Runtime}.

(** C2.  Parsing a document for project [tc.Name]: every incident is filed
    under the key [ruleSet-rule-normalizedLocation-lineNumber] (the four
    parts joined with ["-"]), every entry of the resulting set sits under
    the key of its own incident, and normalizedLocation is the suffix of
    the raw location that starts at the leftmost occurrence of the project
    name, or the raw location itself when the name does not occur. *)
Theorem incident_key_joined tc outputPath presistPath w doc :
  decodes_to w outputPath doc →
  writes_ok presistPath w →
  ∃ details counts total w',
    ParseAppCatOutput tc outputPath presistPath w =
      Returned (details, counts, total, None) w' ∧
    (∀ key v, details !! key = Some v →
       v ∈ doc_incidents doc ∧ key = incidentKey (Name tc) v) ∧
    ∀ v, v ∈ doc_incidents doc →
      ∃ normalizedLocation,
        incidentKey (Name tc) v =
          Join [ValidateIncident.RuleSet v; ValidateIncident.Rule v;
                normalizedLocation; itoa (ValidateIncident.LineNumber v)] "-" ∧
        is_Some (details !! incidentKey (Name tc) v) ∧
        (occurs_in (Name tc) (ValidateIncident.Uri v) →
           ∃ pre post,
             ValidateIncident.Uri v = pre +:+ normalizedLocation ∧
             normalizedLocation = Name tc +:+ post ∧
             ∀ pre' post', ValidateIncident.Uri v = pre' +:+ Name tc +:+ post' →
                           (String.length pre ≤ String.length pre')%nat) ∧
        (¬ occurs_in (Name tc) (ValidateIncident.Uri v) →
           normalizedLocation = ValidateIncident.Uri v).
Proof.
  intros Hdec Hok.
  destruct (ParseAppCatOutput_post tc outputPath presistPath w doc Hdec Hok)
    as (st' & w' & Hrun & -> & _).
  eexists _, _, _, w'. split; [exact Hrun|]. split.
  - intros key v. rewrite record_incidents_lookup. simpl. rewrite lookup_empty.
    intros Hv. apply first_with_key_Some in Hv as (<- & l1 & l2 & -> & _).
    split; [|done]. apply elem_of_app. right. apply list_elem_of_here.
  - intros v Hin. exists (tempPath (Name tc) (ValidateIncident.Uri v)).
    split; [reflexivity|]. split; [|split].
    + rewrite record_incidents_lookup. simpl. rewrite lookup_empty.
      destruct (first_with_key _ _ _) eqn:Hf; [done|].
      rewrite first_with_key_None in Hf. by destruct (Hf v Hin).
    + apply tempPath_found.
    + apply tempPath_not_found.
Qed.

(** C4.  When two incidents of a document produce the same key, and the
    first of them is the first with that key, the parse returns without
    error, the set maps the key to the first incident, unchanged, and the
    second has left a duplicate message in the log; in general every key
    of the set maps to the first incident that produced it. *)
Theorem duplicate_keeps_first tc outputPath presistPath w doc l1 v1 l2 v2 l3 :
  decodes_to w outputPath doc →
  writes_ok presistPath w →
  doc_incidents doc = l1 ++ v1 :: l2 ++ v2 :: l3 →
  incidentKey (Name tc) v2 = incidentKey (Name tc) v1 →
  (∀ v, v ∈ l1 → incidentKey (Name tc) v ≠ incidentKey (Name tc) v1) →
  ∃ details counts total w',
    ParseAppCatOutput tc outputPath presistPath w =
      Returned (details, counts, total, None) w' ∧
    details !! incidentKey (Name tc) v1 = Some v1 ∧
    msg_duplicate (incidentKey (Name tc) v2) ∈ logs w' ∧
    (∀ key, details !! key = first_with_key (Name tc) key (doc_incidents doc)).
Proof.
  intros Hdec Hok Hdoc Hkey Hfirst.
  destruct (ParseAppCatOutput_post tc outputPath presistPath w doc Hdec Hok)
    as (st' & w' & Hrun & -> & _ & _ & _ & Hdup).
  assert (∀ key, incidentsDetails (record_incidents (Name tc) parse_init (doc_incidents doc))
                   !! key = first_with_key (Name tc) key (doc_incidents doc)) as Hlookup.
  { intros key. rewrite record_incidents_lookup. simpl. by rewrite lookup_empty. }
  eexists _, _, _, w'. split; [exact Hrun|]. split; [|split; [|done]].
  - rewrite Hlookup. by eapply first_with_key_first.
  - apply (Hdup (l1 ++ v1 :: l2) v2 l3).
    + by rewrite Hdoc, <- app_assoc.
    + rewrite record_incidents_lookup. simpl. rewrite lookup_empty, Hkey.
      by erewrite first_with_key_first.
Qed.

(** C8.  For a document whose incidents fit an [int] (the counters are
    64-bit, and a document that is held in memory has far fewer incidents
    than that), the total returned by the parse is the sum of the per-rule
    counts, each per-rule count is the number of incidents of that rule,
    and the keys of the resulting set are pairwise distinct. *)
Theorem total_is_sum_of_rule_counts tc outputPath presistPath w doc :
  decodes_to w outputPath doc →
  writes_ok presistPath w →
  Z.of_nat (length (doc_incidents doc)) ≤ int_max →
  ∃ details counts total w',
    ParseAppCatOutput tc outputPath presistPath w =
      Returned (details, counts, total, None) w' ∧
    total = sum_counts counts ∧
    (∀ rule, default 0 (counts !! rule) = rule_occurrences rule (doc_incidents doc)) ∧
    NoDup (range details).*1.
Proof.
  intros Hdec Hok Hlen.
  destruct (ParseAppCatOutput_post tc outputPath presistPath w doc Hdec Hok)
    as (st' & w' & Hrun & -> & _).
  destruct (record_incidents_counts (Name tc) _ Hlen) as (Htotal & Hrules & Hsum).
  eexists _, _, _, w'. split; [exact Hrun|]. split; [|split].
  - by rewrite Htotal, Hsum.
  - intros rule. rewrite Hrules. by case_decide.
  - rewrite range_perm. apply NoDup_fst_map_to_list.
Qed.

(** C10.  For a document whose incidents fit an [int] (the counters are
    64-bit), the total and the per-rule counts count every incident,
    duplicates of a key included, so the set has at most as many keys as
    the total says, and exactly as many if and only if no two incidents of
    the document share a key. *)
Theorem keys_at_most_total tc outputPath presistPath w doc :
  decodes_to w outputPath doc →
  writes_ok presistPath w →
  Z.of_nat (length (doc_incidents doc)) ≤ int_max →
  ∃ details counts total w',
    ParseAppCatOutput tc outputPath presistPath w =
      Returned (details, counts, total, None) w' ∧
    total = Z.of_nat (length (doc_incidents doc)) ∧
    (∀ rule, default 0 (counts !! rule) = rule_occurrences rule (doc_incidents doc)) ∧
    Z.of_nat (size details) ≤ total ∧
    (Z.of_nat (size details) = total ↔
     NoDup (incidentKey (Name tc) <$> doc_incidents doc)).
Proof.
  intros Hdec Hok Hlen.
  destruct (ParseAppCatOutput_post tc outputPath presistPath w doc Hdec Hok)
    as (st' & w' & Hrun & -> & _).
  destruct (record_incidents_counts (Name tc) _ Hlen) as (Htotal & Hrules & Hsum).
  eexists _, _, _, w'. split; [exact Hrun|].
  rewrite Htotal, record_incidents_size.
  pose proof (size_list_to_set_le (incidentKey (Name tc) <$> doc_incidents doc)) as Hle.
  pose proof (size_list_to_set_eq (incidentKey (Name tc) <$> doc_incidents doc)) as Heq.
  rewrite length_fmap in Hle, Heq.
  split; [done|]. split; [|split].
  - intros rule. rewrite Hrules. by case_decide.
  - lia.
  - rewrite <- Heq. lia.
Qed.

End ParserClaims.

(** ** Decoding, and the ways [ParseAppCatOutput] ends the process *)

Lemma decode_incident_ok r : (decode_incident r).2 = (decode_int (RawIncident.lineNumber r)).2.
Proof. unfold decode_incident. by destruct (decode_int _). Qed.

Lemma decode_incident_fields r :
  (decode_int (RawIncident.lineNumber r)).2 = true →
  (decode_incident r).1 =
  Incident.mk (RawIncident.uri r) (RawIncident.message r) (RawIncident.codeSnip r)
              (RawIncident.variables r) (line_of (RawIncident.lineNumber r)).
Proof.
  unfold decode_incident.
  destruct (RawIncident.lineNumber r) as [| |z|[|[|]|m e]|s]; simpl; try done.
  - repeat case_bool_decide; simpl; try done; intros _; do 2 f_equal; lia.
  - by destruct (float_le_MaxInt64 m e).
Qed.

Lemma incident_of_record_decode rulesetName rule r :
  (decode_int (RawIncident.lineNumber r)).2 = true →
  mkValidateIncident rulesetName rule (decode_incident r).1 =
  incident_of_record rulesetName rule r.
Proof. intros Hfit. by rewrite decode_incident_fields. Qed.

Section DecodeProofs.
Context `{RT : Runtime}.

(** The decoder reports no error exactly when every line number fits. *)
Lemma Unmarshal_ok raw :
  (Unmarshal (YamlRuleSets raw)).2 = None ↔
  ∀ rs rule r, record_in raw rs rule r → (decode_int (RawIncident.lineNumber r)).2 = true.
Proof.
  simpl. destruct (forallb (snd ∘ decode_ruleset) raw) eqn:Hall.
  - split; [intros _|done]. intros rs rule r (m & incs & Hrs & Hm & Hrule & Hr).
    rewrite forallb_forall in Hall. apply list_elem_of_In, Hall in Hrs.
    unfold decode_ruleset in Hrs. simpl in Hrs. rewrite Hm in Hrs. simpl in Hrs.
    rewrite forallb_forall in Hrs.
    specialize (Hrs (rule, incs)). simpl in Hrs.
    rewrite forallb_forall in Hrs.
    rewrite <- decode_incident_ok. apply Hrs.
    + by apply list_elem_of_In, elem_of_map_to_list.
    + by apply list_elem_of_In.
  - split; [done|]. intros Hall'. exfalso.
    assert (forallb (snd ∘ decode_ruleset) raw = true) as Hyes; [|congruence].
    apply forallb_forall. intros rs Hrs%list_elem_of_In.
    unfold decode_ruleset. simpl.
    destruct (RawRuleSet.violations rs) as [m|] eqn:Hm; [|done]. simpl.
    apply forallb_forall. intros [rule incs] Hin%list_elem_of_In%elem_of_map_to_list.
    simpl. apply forallb_forall. intros r Hr%list_elem_of_In. simpl.
    rewrite decode_incident_ok. apply (Hall' rs rule r). by exists m, incs.
Qed.

Lemma Unmarshal_fst raw : (Unmarshal (YamlRuleSets raw)).1 = (fst ∘ decode_ruleset) <$> raw.
Proof. reflexivity. Qed.

Lemma elem_of_range {V} (m : gmap string V) k x : (k, x) ∈ range m ↔ m !! k = Some x.
Proof. by rewrite range_perm, elem_of_map_to_list. Qed.

Lemma NoDup_range {V} (m : gmap string V) : NoDup (range m).*1.
Proof. rewrite range_perm. apply NoDup_fst_map_to_list. Qed.

(** Every incident node of the document is met by the parser. *)
Lemma record_in_doc_incidents raw rs rule r :
  record_in raw rs rule r →
  mkValidateIncident (RawRuleSet.name rs) rule (decode_incident r).1
    ∈ doc_incidents (Unmarshal (YamlRuleSets raw)).1.
Proof.
  intros (m & incs & Hrs & Hm & Hrule & Hr).
  rewrite Unmarshal_fst. unfold doc_incidents.
  apply list_elem_of_bind. exists (decode_ruleset rs).1. split.
  - unfold section_incidents, decode_ruleset. rewrite Hm. simpl.
    apply list_elem_of_bind. exists (rule, (decode_violation incs).1). split.
    + unfold rule_incidents. simpl. apply list_elem_of_fmap.
      exists (decode_incident r).1. split; [done|].
      apply list_elem_of_fmap. by exists r.
    + apply elem_of_range. by rewrite lookup_fmap, Hrule.
  - apply list_elem_of_fmap. by exists rs.
Qed.

(** And the parser meets nothing else. *)
Lemma doc_incidents_record_in raw v :
  v ∈ doc_incidents (Unmarshal (YamlRuleSets raw)).1 →
  ∃ rs rule r, record_in raw rs rule r ∧
               v = mkValidateIncident (RawRuleSet.name rs) rule (decode_incident r).1.
Proof.
  rewrite Unmarshal_fst. unfold doc_incidents.
  intros (section & Hv & Hsec)%list_elem_of_bind.
  apply list_elem_of_fmap in Hsec as (rs & -> & Hrs).
  unfold section_incidents, decode_ruleset in Hv. simpl in Hv.
  destruct (RawRuleSet.violations rs) as [m|] eqn:Hm; simpl in Hv;
    [|by apply elem_of_nil in Hv].
  apply list_elem_of_bind in Hv as ([rule violation] & Hv & Hin).
  apply elem_of_range in Hin. rewrite lookup_fmap in Hin.
  destruct (m !! rule) as [incs|] eqn:Hrule; [|done]. simpl in Hin. simplify_eq.
  unfold rule_incidents in Hv. simpl in Hv.
  apply list_elem_of_fmap in Hv as (incident & -> & Hinc).
  apply list_elem_of_fmap in Hinc as (r & -> & Hr).
  exists rs, rule, r. split; [by exists m, incs|done].
Qed.

Lemma ParseAppCatOutput_missing tc outputPath presistPath w :
  files w !! filepath_Join outputPath "output.yaml" = None →
  ParseAppCatOutput tc outputPath presistPath w =
  Exited 1 (add_log ("No output.yaml found in folder: " +:+ outputPath +:+ LF)
              (add_log ("[ParseOutput] Parsing output from: " +:+ outputPath +:+ LF) w)).
Proof.
  intros Hfile. unfold ParseAppCatOutput. rewrite bind_Printf.
  set (w0 := add_log _ w).
  unfold mbind at 1, M_bind at 1, Stat_IsNotExist at 1.
  change (files w0) with (files w).
  rewrite Hfile, bool_decide_eq_true_2 by done.
  by rewrite bind_Fatalf.
Qed.

Lemma ParseAppCatOutput_undecodable tc outputPath presistPath w data doc e :
  files w !! filepath_Join outputPath "output.yaml" = Some (Bytes data) →
  Unmarshal data = (doc, Some e) →
  ParseAppCatOutput tc outputPath presistPath w =
  Exited 1 (add_log ("failed to parse YAML: " +:+ e)
              (add_log ("[ParseOutput] Parsing output from: " +:+ outputPath +:+ LF) w)).
Proof.
  intros Hfile Hdec. unfold ParseAppCatOutput. rewrite bind_Printf.
  set (w0 := add_log _ w).
  unfold mbind at 1, M_bind at 1, Stat_IsNotExist at 1.
  change (files w0) with (files w).
  rewrite Hfile, bool_decide_eq_false_2 by done.
  unfold mbind at 1, M_bind at 1, ReadFile at 1.
  change (files w0) with (files w).
  rewrite Hfile, bind_mret, Hdec. by rewrite bind_Fatalf.
Qed.

(** C6, as the code has it.  Take a document whose file is there.  If the
    decoder accepts every [lineNumber] node (an integer literal that is
    not above the largest int64, a float that is at most [math.MaxInt64],
    an absent or a null node), the parse returns, and what it returns
    holds copies of the incident nodes and nothing else: every incident
    of the returned set is, field by field, an incident node of the
    document (uri, message, codeSnip and variables are the node's, the
    rule-set and the rule are the enclosing names, the line number is the
    node's integer, a float cut towards zero, and 0 for an absent or null
    node) and sits under the key of that copy; the copy of every node is
    met by the parser, its key is in the set, and it is the entry under
    its key whenever no other node of the document has a copy with that
    key.  If the decoder rejects some [lineNumber] node (text, a boolean,
    an integer above the largest int64, not-a-number), it reports a type
    error and the parse ends the process with a fatal log message instead
    of returning. *)
Theorem incident_fields_copied tc outputPath presistPath w raw :
  files w !! filepath_Join outputPath "output.yaml" = Some (Bytes (YamlRuleSets raw)) →
  writes_ok presistPath w →
  ((∀ rs rule r, record_in raw rs rule r →
                 (decode_int (RawIncident.lineNumber r)).2 = true) →
   ∃ details counts total w',
     ParseAppCatOutput tc outputPath presistPath w =
       Returned (details, counts, total, None) w' ∧
     (∀ key v, details !! key = Some v →
        key = incidentKey (Name tc) v ∧
        ∃ rs rule r,
          record_in raw rs rule r ∧
          v = {| ValidateIncident.RuleSet := RawRuleSet.name rs;
                 ValidateIncident.Rule := rule;
                 ValidateIncident.Uri := RawIncident.uri r;
                 ValidateIncident.Message := RawIncident.message r;
                 ValidateIncident.CodeSnip := RawIncident.codeSnip r;
                 ValidateIncident.Variables := RawIncident.variables r;
                 ValidateIncident.LineNumber := line_of (RawIncident.lineNumber r) |}) ∧
     ∀ rs rule r, record_in raw rs rule r →
       let v := {| ValidateIncident.RuleSet := RawRuleSet.name rs;
                   ValidateIncident.Rule := rule;
                   ValidateIncident.Uri := RawIncident.uri r;
                   ValidateIncident.Message := RawIncident.message r;
                   ValidateIncident.CodeSnip := RawIncident.codeSnip r;
                   ValidateIncident.Variables := RawIncident.variables r;
                   ValidateIncident.LineNumber := line_of (RawIncident.lineNumber r) |} in
       v ∈ doc_incidents (Unmarshal (YamlRuleSets raw)).1 ∧
       is_Some (details !! incidentKey (Name tc) v) ∧
       ((∀ rs' rule' r', record_in raw rs' rule' r' →
           incidentKey (Name tc) (incident_of_record (RawRuleSet.name rs') rule' r') =
             incidentKey (Name tc) v →
           incident_of_record (RawRuleSet.name rs') rule' r' = v) →
        details !! incidentKey (Name tc) v = Some v)) ∧
  ((∃ rs rule r, record_in raw rs rule r ∧
                 (decode_int (RawIncident.lineNumber r)).2 = false) →
   ∃ w',
     ParseAppCatOutput tc outputPath presistPath w = Exited 1 w' ∧
     last (logs w') =
       Some ("failed to parse YAML: " +:+ yaml_TypeError (yaml_complaints raw))).
Proof.
  intros Hfile Hok. split.
  - intros Hfit.
    assert (decodes_to w outputPath (Unmarshal (YamlRuleSets raw)).1) as Hdec.
    { exists (YamlRuleSets raw). split; [done|].
      apply Unmarshal_ok in Hfit. by destruct (Unmarshal _) as [? ?]; simplify_eq/=. }
    destruct (ParseAppCatOutput_post tc outputPath presistPath w _ Hdec Hok)
      as (st' & w' & Hrun & -> & _).
    eexists _, _, _, w'. split; [exact Hrun|].
    assert (∀ key, incidentsDetails
                     (record_incidents (Name tc) parse_init
                        (doc_incidents (Unmarshal (YamlRuleSets raw)).1)) !! key =
                   first_with_key (Name tc) key
                     (doc_incidents (Unmarshal (YamlRuleSets raw)).1)) as Hlookup.
    { intros key. rewrite record_incidents_lookup. simpl incidentsDetails.
      by rewrite lookup_empty. }
    assert (∀ key v,
              first_with_key (Name tc) key
                (doc_incidents (Unmarshal (YamlRuleSets raw)).1) = Some v →
              key = incidentKey (Name tc) v ∧
              ∃ rs rule r, record_in raw rs rule r ∧
                           v = incident_of_record (RawRuleSet.name rs) rule r) as Hstored.
    { intros key v Hv. apply first_with_key_Some in Hv as (Hkey & l1 & l2 & Hvs & _).
      split; [done|].
      destruct (doc_incidents_record_in raw v) as (rs & rule & r & Hin & ->).
      { rewrite Hvs. apply elem_of_app. right. by left. }
      exists rs, rule, r. split; [done|]. apply incident_of_record_decode. eauto. }
    split.
    + intros key v Hv. rewrite Hlookup in Hv. by apply Hstored.
    + intros rs rule r Hin v.
      assert (v = mkValidateIncident (RawRuleSet.name rs) rule (decode_incident r).1) as Hv.
      { rewrite decode_incident_fields by eauto. done. }
      assert (v ∈ doc_incidents (Unmarshal (YamlRuleSets raw)).1) as Hmem.
      { rewrite Hv. by apply record_in_doc_incidents. }
      split; [done|]. rewrite Hlookup.
      destruct (first_with_key (Name tc) (incidentKey (Name tc) v)
                  (doc_incidents (Unmarshal (YamlRuleSets raw)).1)) as [v'|] eqn:Hf.
      * split; [done|]. intros Hunique. f_equal.
        destruct (Hstored _ _ Hf) as (Hkey & rs' & rule' & r' & Hin' & ->).
        by apply Hunique.
      * rewrite first_with_key_None in Hf. by destruct (Hf v Hmem).
  - intros (rs & rule & r & Hin & Hline).
    destruct (Unmarshal (YamlRuleSets raw)) as [doc [e|]] eqn:Hun.
    + assert (e = yaml_TypeError (yaml_complaints raw)) as ->.
      { simpl in Hun. destruct (forallb _ raw); by simplify_eq. }
      eexists. split; [by eapply ParseAppCatOutput_undecodable|].
      by rewrite logs_add_log, last_snoc.
    + assert ((Unmarshal (YamlRuleSets raw)).2 = None) as Hnone by by rewrite Hun.
      rewrite Unmarshal_ok in Hnone. specialize (Hnone rs rule r Hin).
      by rewrite Hline in Hnone.
Qed.

End DecodeProofs.

(** ** The differ *)

Lemma only_logged_refl w : only_logged w w.
Proof. repeat split. exists []. by rewrite app_nil_r. Qed.

Lemma only_logged_trans w1 w2 w3 :
  only_logged w1 w2 → only_logged w2 w3 → only_logged w1 w3.
Proof.
  intros (Hf1 & Hu1 & l1 & Hl1) (Hf2 & Hu2 & l2 & Hl2). repeat split; try congruence.
  exists (l1 ++ l2). by rewrite Hl2, Hl1, <- app_assoc.
Qed.

Lemma only_logged_add_log msg w : only_logged w (add_log msg w).
Proof. repeat split. by exists [msg]. Qed.

Lemma only_logged_elem msg w w' : only_logged w w' → msg ∈ logs w → msg ∈ logs w'.
Proof. intros (_ & _ & l & ->) Hin. apply elem_of_app. by left. Qed.

(** A loop whose body computes [f] and only logs computes [foldl f] and
    only logs. *)
Lemma forM_only_logged {A S} (body : A → S → M S) (f : S → A → S) l :
  (∀ x s w, ∃ w', body x s w = Returned (f s x) w' ∧ only_logged w w') →
  ∀ s w, ∃ w', forM l body s w = Returned (foldl f s l) w' ∧ only_logged w w'.
Proof.
  intros Hbody. induction l as [|x l IH]; intros s w.
  - exists w. split; [done|]. apply only_logged_refl.
  - destruct (Hbody x s w) as (w1 & Hrun1 & Hlog1).
    destruct (IH (f s x) w1) as (w2 & Hrun2 & Hlog2).
    exists w2. split; [|by eapply only_logged_trans].
    by rewrite forM_cons, (bind_Returned _ _ _ _ _ Hrun1).
Qed.

Lemma msg_new_not_wrong key key' m b : msg_new key ≠ msg_wrong key' m b.
Proof. intros H. cbv in H. discriminate. Qed.

Lemma msg_new_not_miss key key' : msg_new key ≠ msg_miss key'.
Proof. intros H. cbv in H. discriminate. Qed.

Lemma msg_miss_not_wrong key key' m b : msg_miss key ≠ msg_wrong key' m b.
Proof. intros H. cbv in H. discriminate. Qed.




(** The first loop, entry by entry. *)
Lemma compare_current_lookup base l acc key :
  NoDup l.*1 →
  (foldl (compare_current base) acc l).2 !! key =
  match (list_to_map l : gmap string ValidateIncident.t) !! key with
  | Some v => match diff_entry key (Some v) (base !! key) with
              | Some line => Some line
              | None => acc.2 !! key
              end
  | None => acc.2 !! key
  end.
Proof.
  revert acc. induction l as [|[k v] l IH]; intros acc Hnd; [done|].
  apply NoDup_cons in Hnd as [Hk Hnd]. simpl foldl. rewrite IH by done.
  simpl list_to_map. destruct (decide (k = key)) as [->|Hne].
  - rewrite lookup_insert_eq.
    rewrite (not_elem_of_list_to_map_1 l key) by done.
    unfold compare_current, diff_entry. simpl.
    destruct (base !! key) as [b|]; [case_bool_decide|]; simpl;
      by rewrite ?lookup_insert_eq.
  - rewrite lookup_insert_ne by done.
    assert ((compare_current base acc (k, v)).2 !! key = acc.2 !! key) as ->; [|done].
    unfold compare_current. simpl.
    destruct (base !! k) as [b|]; [case_bool_decide|]; simpl;
      by rewrite ?lookup_insert_ne.
Qed.

(** The second loop, entry by entry. *)
Lemma compare_baseline_lookup cur l acc key :
  NoDup l.*1 →
  (foldl (compare_baseline cur) acc l).2 !! key =
  match (list_to_map l : gmap string ValidateIncident.t) !! key, cur !! key with
  | Some _, None => Some (msg_miss key)
  | _, _ => acc.2 !! key
  end.
Proof.
  revert acc. induction l as [|[k v] l IH]; intros acc Hnd; [done|].
  apply NoDup_cons in Hnd as [Hk Hnd]. simpl foldl. rewrite IH by done.
  simpl list_to_map. destruct (decide (k = key)) as [->|Hne].
  - rewrite lookup_insert_eq.
    rewrite (not_elem_of_list_to_map_1 l key) by done.
    unfold compare_baseline. simpl.
    destruct (cur !! key); simpl; by rewrite ?lookup_insert_eq.
  - rewrite lookup_insert_ne by done.
    assert ((compare_baseline cur acc (k, v)).2 !! key = acc.2 !! key) as ->; [|done].
    unfold compare_baseline. simpl.
    destruct (cur !! k); simpl; by rewrite ?lookup_insert_ne.
Qed.

(** [result] stays [true] exactly as long as [resultDetails] is empty. *)
Lemma compare_current_flag base l acc :
  acc.1 = bool_decide (acc.2 = ∅) →
  (foldl (compare_current base) acc l).1 =
  bool_decide ((foldl (compare_current base) acc l).2 = ∅).
Proof.
  revert acc. induction l as [|[k v] l IH]; intros acc Hacc; [done|].
  simpl foldl. apply IH. unfold compare_current. simpl.
  destruct (base !! k) as [b|];
    [destruct (bool_decide (ValidateIncident.Message v ≠ ValidateIncident.Message b))|];
    simpl; try done; symmetry; apply bool_decide_eq_false_2, insert_non_empty.
Qed.

Lemma compare_baseline_flag cur l acc :
  acc.1 = bool_decide (acc.2 = ∅) →
  (foldl (compare_baseline cur) acc l).1 =
  bool_decide ((foldl (compare_baseline cur) acc l).2 = ∅).
Proof.
  revert acc. induction l as [|[k v] l IH]; intros acc Hacc; [done|].
  simpl foldl. apply IH. unfold compare_baseline. simpl.
  destruct (cur !! k); simpl; try done.
  symmetry; apply bool_decide_eq_false_2, insert_non_empty.
Qed.

Section DifferProofs.
Context `{RT : Runtime}.

Lemma list_to_map_range {V} (m : gmap string V) : list_to_map (range m) = m.
Proof. symmetry. apply list_to_map_flip. symmetry. apply range_perm. Qed.

(** [resultDetails] holds, under every key, what the two lookups say. *)
Lemma diff_lookup cur base key :
  (diff cur base).2 !! key = diff_entry key (cur !! key) (base !! key).
Proof.
  unfold diff.
  rewrite compare_baseline_lookup by apply NoDup_range.
  rewrite compare_current_lookup by apply NoDup_range.
  rewrite !list_to_map_range. simpl. rewrite lookup_empty.
  destruct (cur !! key) as [v|], (base !! key) as [b|]; simpl; try done.
  - by case_bool_decide.
Qed.

Lemma diff_flag cur base : (diff cur base).1 = bool_decide ((diff cur base).2 = ∅).
Proof.
  unfold diff. apply compare_baseline_flag, compare_current_flag. simpl.
  by rewrite bool_decide_eq_true_2.
Qed.

Lemma validate_incident_run base kv acc w :
  ∃ w', validate_incident base kv acc w = Returned (compare_current base acc kv) w' ∧
        only_logged w w' ∧
        (∀ b, base !! kv.1 = Some b →
              ValidateIncident.Message kv.2 = ValidateIncident.Message b →
              msg_validated kv.1 ∈ logs w').
Proof.
  destruct kv as [key incident], acc as [result resultDetails].
  unfold validate_incident, compare_current. simpl.
  destruct (base !! key) as [b|]; [case_bool_decide as Hm|]; rewrite bind_Printf;
    eexists; (split; [reflexivity|]); (split; [apply only_logged_add_log|]).
  - intros b' [= <-] Heq. done.
  - intros b' [= <-] _. rewrite logs_add_log. apply elem_of_app. right.
    by apply list_elem_of_singleton.
  - done.
Qed.

Lemma validate_baseline_run cur kv acc w :
  ∃ w', validate_baseline cur kv acc w = Returned (compare_baseline cur acc kv) w' ∧
        only_logged w w'.
Proof.
  destruct kv as [key b], acc as [result resultDetails].
  unfold validate_baseline, compare_baseline. simpl.
  destruct (cur !! key).
  - exists w. split; [done|]. apply only_logged_refl.
  - rewrite bind_Printf. eexists. split; [reflexivity|]. apply only_logged_add_log.
Qed.

Lemma validate_incidents_log base l acc w acc' w' :
  forM l (validate_incident base) acc w = Returned acc' w' →
  ∀ key v b, (key, v) ∈ l → base !! key = Some b →
             ValidateIncident.Message v = ValidateIncident.Message b →
             msg_validated key ∈ logs w'.
Proof.
  revert acc w. induction l as [|kv l IH]; intros acc w Hrun key v b Hin Hb Hmsg.
  - by apply elem_of_nil in Hin.
  - destruct (validate_incident_run base kv acc w) as (w1 & Hrun1 & Hlog1 & Hval1).
    rewrite forM_cons, (bind_Returned _ _ _ _ _ Hrun1) in Hrun.
    apply elem_of_cons in Hin as [<-|Hin].
    + destruct (forM_only_logged (validate_incident base) (compare_current base) l)
        with (s := compare_current base acc (key, v)) (w := w1) as (w2 & Hrun2 & Hlog2).
      { intros x s w0. destruct (validate_incident_run base x s w0) as (? & ? & ? & _).
        eauto. }
      rewrite Hrun2 in Hrun. simplify_eq.
      eapply only_logged_elem; [done|]. by eapply Hval1.
    + by eapply IH.
Qed.

(** The comparison always returns; it returns [diff], has only written to
    the log, and has logged a success line for every matched key. *)
Lemma RunValidate_compare_run cur base w :
  ∃ w', RunValidate_compare cur base w = Returned (diff cur base) w' ∧
        only_logged w w' ∧
        ∀ key v b, cur !! key = Some v → base !! key = Some b →
                   ValidateIncident.Message v = ValidateIncident.Message b →
                   msg_validated key ∈ logs w'.
Proof.
  unfold RunValidate_compare, diff.
  destruct (forM_only_logged (validate_incident base) (compare_current base) (range cur))
    with (s := (true, ∅ : gmap string string)) (w := w) as (w1 & Hrun1 & Hlog1).
  { intros x s w0. destruct (validate_incident_run base x s w0) as (? & ? & ? & _). eauto. }
  destruct (forM_only_logged (validate_baseline cur) (compare_baseline cur) (range base))
    with (s := foldl (compare_current base) (true, ∅) (range cur)) (w := w1)
    as (w2 & Hrun2 & Hlog2).
  { intros x s w0. apply validate_baseline_run. }
  exists w2. split; [|split].
  - by rewrite (bind_Returned _ _ _ _ _ Hrun1).
  - by eapply only_logged_trans.
  - intros key v b Hv Hb Hmsg. eapply only_logged_elem; [done|].
    eapply validate_incidents_log; [done| |done|done].
    by apply elem_of_range.
Qed.

Lemma diff_CHANGED cur base key :
  is_CHANGED (diff cur base).2 key ↔
  ∃ v b, cur !! key = Some v ∧ base !! key = Some b ∧
         ValidateIncident.Message v ≠ ValidateIncident.Message b.
Proof.
  unfold is_CHANGED. setoid_rewrite diff_lookup. split.
  - intros (m & b & Hne & Hentry).
    destruct (cur !! key) as [v|], (base !! key) as [v'|]; simpl in Hentry.
    + case_bool_decide; [|done]. by exists v, v'.
    + exfalso. apply (msg_new_not_wrong key key m b). congruence.
    + exfalso. apply (msg_miss_not_wrong key key m b). congruence.
    + done.
  - intros (v & b & -> & -> & Hne). simpl.
    rewrite bool_decide_eq_true_2 by done. eauto.
Qed.




End DifferProofs.

(** ** The differ: the claims *)

Section DifferClaims.
Context `{RT : Runtime}.

(** C1.  The comparison of any two sets returns, and: a key of current
    that baseline lacks is NEW; a key of both whose two messages differ is
    CHANGED (its entry shows the two messages); a key of both whose
    messages agree is MATCHED, whatever the other fields hold; a key of
    baseline that current lacks is MISSING.  Nothing but the keys and the
    messages enters the result: two sets with the same keys and messages
    compare the same. *)
Theorem differ_classifies cur base w :
  ∃ result resultDetails w',
    RunValidate_compare cur base w = Returned (result, resultDetails) w' ∧
    (∀ key incident, cur !! key = Some incident →
       match base !! key with
       | None => is_NEW resultDetails key
       | Some baselineIncident =>
           if decide (ValidateIncident.Message incident =
                      ValidateIncident.Message baselineIncident)
           then is_MATCHED resultDetails w' key
           else is_CHANGED resultDetails key ∧
                resultDetails !! key =
                  Some (msg_wrong key (ValidateIncident.Message incident)
                                  (ValidateIncident.Message baselineIncident))
       end) ∧
    (∀ key baselineIncident,
       base !! key = Some baselineIncident → cur !! key = None →
       is_MISSING resultDetails key) ∧
    (∀ cur' base' w0,
       ValidateIncident.Message <$> cur' = ValidateIncident.Message <$> cur →
       ValidateIncident.Message <$> base' = ValidateIncident.Message <$> base →
       ∃ w0', RunValidate_compare cur' base' w0 = Returned (result, resultDetails) w0').
Proof.
  destruct (RunValidate_compare_run cur base w) as (w' & Hrun & Hlog & Hval).
  exists (diff cur base).1, (diff cur base).2, w'.
  split; [by destruct (diff cur base)|]. split; [|split].
  - intros key incident Hcur. destruct (base !! key) as [b|] eqn:Hbase.
    + case_decide as Hmsg.
      * split; [|by eapply Hval].
        rewrite diff_lookup, Hcur, Hbase. simpl. by rewrite bool_decide_eq_false_2 by tauto.
      * assert ((diff cur base).2 !! key =
                Some (msg_wrong key (ValidateIncident.Message incident)
                                (ValidateIncident.Message b))) as Hentry.
        { rewrite diff_lookup, Hcur, Hbase. simpl. by rewrite bool_decide_eq_true_2. }
        split; [|done]. by eexists _, _.
    + unfold is_NEW. by rewrite diff_lookup, Hcur, Hbase.
  - intros key b Hbase Hcur. unfold is_MISSING. by rewrite diff_lookup, Hcur, Hbase.
  - intros cur' base' w0 Hcur Hbase.
    destruct (RunValidate_compare_run cur' base' w0) as (w0' & Hrun' & _).
    exists w0'. rewrite Hrun'. f_equal.
    assert ((diff cur' base').2 = (diff cur base).2) as Hsame.
    { apply map_eq. intros key. rewrite !diff_lookup.
      apply (f_equal (λ m, m !! key)) in Hcur, Hbase. rewrite !lookup_fmap in Hcur, Hbase.
      destruct (cur' !! key) as [v'|], (cur !! key) as [v|],
               (base' !! key) as [b'|], (base !! key) as [b|]; simplify_eq/=; try done.
      by rewrite Hcur, Hbase. }
    rewrite (surjective_pairing (diff cur' base')), (surjective_pairing (diff cur base)).
    by rewrite !diff_flag, Hsame.
Qed.

(** C9.  Swapping the two sets swaps NEW and MISSING: a key is NEW in the
    comparison of current against baseline exactly when it is MISSING in
    the comparison of baseline against current, and MISSING in the former
    exactly when NEW in the latter. *)
Theorem new_missing_antisymmetric cur base w1 w2 :
  ∃ result1 details1 w1' result2 details2 w2',
    RunValidate_compare cur base w1 = Returned (result1, details1) w1' ∧
    RunValidate_compare base cur w2 = Returned (result2, details2) w2' ∧
    ∀ key, (is_NEW details1 key ↔ is_MISSING details2 key) ∧
           (is_MISSING details1 key ↔ is_NEW details2 key).
Proof.
  destruct (RunValidate_compare_run cur base w1) as (w1' & Hrun1 & _).
  destruct (RunValidate_compare_run base cur w2) as (w2' & Hrun2 & _).
  exists (diff cur base).1, (diff cur base).2, w1', (diff base cur).1, (diff base cur).2, w2'.
  split; [by destruct (diff cur base)|]. split; [by destruct (diff base cur)|].
  intros key. unfold is_NEW, is_MISSING. rewrite !diff_lookup.
  destruct (cur !! key) as [v|], (base !! key) as [b|]; simpl;
    repeat case_bool_decide; split; split; intros Hk; try done;
    simplify_eq;
    try (by apply msg_new_not_wrong in Hk);
    try (by apply msg_miss_not_wrong in Hk);
    try (by apply msg_new_not_miss in Hk);
    try (by symmetry in Hk; apply msg_new_not_miss in Hk).
Qed.




End DifferClaims.

(** ** Further laws of the differ *)

(** The result of the comparison does not depend on the order in which the
    runtime visits the two maps. *)
Lemma diff_order_independent (RT1 RT2 : Runtime) cur base :
  diff (RT := RT1) cur base = diff (RT := RT2) cur base.
Proof.
  assert ((diff (RT := RT1) cur base).2 = (diff (RT := RT2) cur base).2) as Hsame.
  { apply map_eq. intros key. by rewrite !diff_lookup. }
  rewrite (surjective_pairing (diff (RT := RT1) cur base)),
          (surjective_pairing (diff (RT := RT2) cur base)).
  by rewrite !diff_flag, Hsame.
Qed.

(** A set compared against itself passes, with nothing to report. *)
Lemma diff_reflexive `{RT : Runtime} set : diff set set = (true, ∅).
Proof.
  assert ((diff set set).2 = ∅) as Hempty.
  { apply map_eq. intros key. rewrite diff_lookup, lookup_empty.
    destruct (set !! key); simpl; [|done]. by rewrite bool_decide_eq_false_2 by tauto. }
  rewrite (surjective_pairing (diff set set)), diff_flag, Hempty.
  by rewrite bool_decide_eq_true_2.
Qed.

(** The sample project: the shared key is CHANGED, the [csrf] key is
    MISSING, the [xss] key is NEW, and the run fails. *)
Example sample_comparison :
  let result :=
    diff (RT := sample_runtime)
         (normalized_set (RT := sample_runtime) "proj1" sample_current_doc)
         (normalized_set (RT := sample_runtime) "proj1" sample_baseline_doc) in
  result.1 = false ∧
  map_to_list result.2 =
    [ ("security-sql-injection-proj1/src/A.java-10",
       "[WRONG] :security-sql-injection-proj1/src/A.java-10 message mismatch: M != M0");
      ("security-csrf-proj1/src/C.java-7", "[MISS]: security-csrf-proj1/src/C.java-7");
      ("security-xss-proj1/src/B.java-0", "[NEW] : security-xss-proj1/src/B.java-0") ].
Proof. split; vm_compute; reflexivity. Qed.

(** ** [RunValidate] and [Run], end to end *)

Section RunProofs.
Context `{RT : Runtime}.

Lemma decodes_to_files w w' outputPath doc :
  files w' = files w → decodes_to w outputPath doc → decodes_to w' outputPath doc.
Proof. intros Hf (data & Hfile & Hdec). exists data. by rewrite Hf. Qed.

Lemma parse_post_only_logged tcName vs st w st' w' :
  parse_post tcName EmptyString vs st w st' w' → only_logged w w'.
Proof. intros (_ & Hl & Hu & Hf & _). repeat split; auto. Qed.

(** With both documents in place, [RunValidate] returns the comparison of
    the two NormalizedSets and no error, and has only written to the log. *)
Lemma RunValidate_run tc w base cur :
  decodes_to w (BaseLineFolder tc) base →
  decodes_to w (getAppcatOutputFolder tc) cur →
  ∃ w',
    RunValidate tc w =
      Returned ((diff (normalized_set (Name tc) cur) (normalized_set (Name tc) base)).1,
                (diff (normalized_set (Name tc) cur) (normalized_set (Name tc) base)).2,
                None) w' ∧
    only_logged w w'.
Proof.
  intros Hbase Hcur. unfold RunValidate. rewrite !bind_Printf.
  set (w0 := add_log _ (add_log _ (add_log _ w))).
  assert (only_logged w w0) as Hlog0.
  { repeat split. unfold w0. rewrite !logs_add_log, <- !app_assoc. eauto. }
  destruct (ParseAppCatOutput_post tc (BaseLineFolder tc) EmptyString w0 base) as (st1 & w1 & Hrun1 & Hpost1).
  { eapply decodes_to_files; [|done]. apply Hlog0. }
  { by left. }
  rewrite (bind_Returned _ _ _ _ _ Hrun1). simpl. rewrite bind_Printf.
  pose proof (parse_post_only_logged _ _ _ _ _ _ Hpost1) as Hlog1.
  set (w2 := add_log _ w1).
  assert (only_logged w w2) as Hlog2.
  { eapply only_logged_trans; [exact Hlog0|]. eapply only_logged_trans; [exact Hlog1|].
    apply only_logged_add_log. }
  destruct (ParseAppCatOutput_post tc (getAppcatOutputFolder tc) EmptyString w2 cur)
    as (st3 & w3 & Hrun3 & Hpost3).
  { eapply decodes_to_files; [|done]. apply Hlog2. }
  { by left. }
  rewrite (bind_Returned _ _ _ _ _ Hrun3). simpl. rewrite bind_Printf.
  pose proof (parse_post_only_logged _ _ _ _ _ _ Hpost3) as Hlog3.
  set (w4 := add_log _ w3).
  destruct (RunValidate_compare_run (incidentsDetails st3) (incidentsDetails st1) w4)
    as (w5 & Hrun5 & Hlog5 & _).
  rewrite (bind_Returned _ _ _ _ _ Hrun5).
  destruct Hpost1 as (-> & _), Hpost3 as (-> & _).
  fold (normalized_set (Name tc) cur) (normalized_set (Name tc) base).
  destruct (diff _ _) as [result resultDetails]. rewrite bind_Printf.
  eexists. split; [reflexivity|].
  eapply only_logged_trans; [exact Hlog2|]. eapply only_logged_trans; [exact Hlog3|].
  eapply only_logged_trans; [apply only_logged_add_log|].
  eapply only_logged_trans; [exact Hlog5|]. apply only_logged_add_log.
Qed.

(** When the analyser has run (if asked to) and left both documents in
    place, a validating [Run] returns the report of the comparison. *)
Lemma Run_reports_comparison tc w out w1 base cur :
  containsAction (ActionList tc) ActionAnalyze = false →
  containsAction (ActionList tc) ActionValidate = true →
  (if containsAction (ActionList tc) ActionRun
   then RunAppCat tc w = Returned (out, None) w1 else w1 = w) →
  decodes_to w1 (BaseLineFolder tc) base →
  decodes_to w1 (getAppcatOutputFolder tc) cur →
  ∃ w',
    Run tc w =
      Returned (Run_resultMessage tc
                  (diff (normalized_set (Name tc) cur) (normalized_set (Name tc) base)).2,
                None) w'.
Proof.
  intros Hanalyze Hvalidate Hrun Hbase Hcur. unfold Run.
  destruct (RunValidate_run tc w1 base cur Hbase Hcur) as (w' & Hval & _).
  rewrite Hanalyze, Hvalidate.
  destruct (containsAction (ActionList tc) ActionRun).
  - rewrite bind_bind, (bind_Returned _ _ _ _ _ Hrun). simpl.
    rewrite !bind_mret, (bind_Returned _ _ _ _ _ Hval). by eexists.
  - subst w1. rewrite !bind_mret, (bind_Returned _ _ _ _ _ Hval). by eexists.
Qed.

(** A missing or undecodable baseline ends the process inside
    [RunValidate]: nothing is returned to [Run]. *)
Lemma RunValidate_exits tc w :
  (files w !! filepath_Join (BaseLineFolder tc) "output.yaml" = None ∨
   ∃ data doc e, files w !! filepath_Join (BaseLineFolder tc) "output.yaml" = Some (Bytes data)
                 ∧ Unmarshal data = (doc, Some e)) →
  ∃ w', RunValidate tc w = Exited 1 w'.
Proof.
  intros Hbad. unfold RunValidate. rewrite !bind_Printf.
  set (w0 := add_log _ (add_log _ (add_log _ w))).
  destruct Hbad as [Hmissing|(data & doc & e & Hfile & Hdec)].
  - eexists. erewrite bind_Exited; [done|]. by apply ParseAppCatOutput_missing.
  - eexists. erewrite bind_Exited; [done|]. by eapply ParseAppCatOutput_undecodable.
Qed.

Lemma ParseAppCatOutput_unreadable tc outputPath presistPath w :
  files w !! filepath_Join outputPath "output.yaml" = Some Dir ∨
  files w !! filepath_Join outputPath "output.yaml" = Some Unreadable →
  ∃ w', ParseAppCatOutput tc outputPath presistPath w = Exited 1 w'.
Proof.
  intros Hfile. unfold ParseAppCatOutput. rewrite bind_Printf.
  set (w0 := add_log _ w).
  unfold mbind at 1, M_bind at 1, Stat_IsNotExist at 1.
  change (files w0) with (files w).
  rewrite bool_decide_eq_false_2 by (by destruct Hfile as [-> | ->]).
  unfold mbind at 1, M_bind at 1, ReadFile at 1.
  change (files w0) with (files w).
  destruct Hfile as [-> | ->]; rewrite bind_Fatalf; eauto.
Qed.

(** Creating a folder that is not there either ends the process or
    leaves a directory at its path and nothing else changed. *)
Lemma ensure_folder_run (notExist : bool) path msg w :
  (∃ w', ((if notExist then
             err ← MkdirAll path;
             match err with
             | Some e => Fatalf (msg +:+ e)
             | None => mret ()
             end
           else mret ()) : M unit) w = Returned () w' ∧
         (files w' = files w ∨ files w' = <[path := Dir]> (files w))) ∨
  (∃ w', ((if notExist then
             err ← MkdirAll path;
             match err with
             | Some e => Fatalf (msg +:+ e)
             | None => mret ()
             end
           else mret ()) : M unit) w = Exited 1 w').
Proof.
  destruct notExist; [|left; exists w; by split; [|left]].
  unfold mbind, M_bind, MkdirAll. case_bool_decide.
  - right. by eexists.
  - left. eexists. split; [reflexivity|]. by right.
Qed.

(** [RunAnalyze] without the analyser's output: the process ends, whether
    or not the analysis folder had to be created first. *)
Lemma RunAnalyze_missing_exits tc w :
  files w !! filepath_Join (getAppcatOutputFolder tc) "output.yaml" = None →
  ∃ w', RunAnalyze tc w = Exited 1 w'.
Proof.
  intros Hfile. unfold RunAnalyze. rewrite !bind_Printf.
  set (w0 := add_log _ (add_log _ (add_log _ w))).
  unfold mbind at 1, M_bind at 1, Stat_IsNotExist at 1.
  destruct (ensure_folder_run (bool_decide (files w0 !! getAnalysisOutputFolder tc = None))
              (getAnalysisOutputFolder tc) "failed to create analyze output folder: " w0)
    as [(w1 & Hrun & Hfiles)|(w1 & Hrun)].
  - rewrite (bind_Returned _ _ _ _ _ Hrun).
    unfold mbind at 1, M_bind at 1, Stat_IsNotExist at 1.
    destruct (files w1 !! filepath_Join (getAppcatOutputFolder tc) "output.yaml")
      as [entry|] eqn:Hentry.
    + rewrite bool_decide_eq_false_2 by done.
      assert (files w0 = files w) as Hw0 by done.
      destruct Hfiles as [Hsame|Hdir];
        [rewrite Hsame, Hw0 in Hentry; by rewrite Hfile in Hentry|].
      pose proof Hentry as Hentry'.
      rewrite Hdir, Hw0 in Hentry'.
      apply lookup_insert_Some in Hentry' as [[_ <-]|[_ Hentry']].
      * destruct (ParseAppCatOutput_unreadable tc (getAppcatOutputFolder tc)
                    (getAnalysisOutputFolder tc) w1) as (w' & Hparse); [by left|].
        rewrite (bind_Exited _ _ _ _ _ Hparse). eauto.
      * by rewrite Hfile in Hentry'.
    + rewrite bool_decide_eq_true_2 by done. rewrite bind_Fatalf. eauto.
  - rewrite (bind_Exited _ _ _ _ _ Hrun). eauto.
Qed.

(** Once the first test case ends the process, the driver's loop is over:
    the remaining test cases are not run and no result map is returned. *)
Lemma runTestCases_exits testCase rest w c w1 :
  Run testCase (add_log ("Processing Test Case: " +:+ Name testCase) w) = Exited c w1 →
  runTestCases (testCase :: rest) w = Exited c w1.
Proof.
  intros Hrun. unfold runTestCases. apply forM_exits_first.
  unfold runTestCase. rewrite bind_Printf. by rewrite (bind_Exited _ _ _ _ _ Hrun).
Qed.

End RunProofs.

(** ** The summary table *)

Lemma concat_strings_app l1 l2 :
  concat_strings (l1 ++ l2) = concat_strings l1 +:+ concat_strings l2.
Proof.
  induction l1 as [|s l1 IH]; [done|]. simpl. by rewrite IH, string_app_assoc.
Qed.

Section SummaryProofs.
Context `{RT : Runtime}.

(** A row is the rule followed by one cell per target, in the order of
    [targetList]. *)
Lemma summary_row_cells details targetList rule :
  summary_row details targetList rule =
  rule +:+ concat_strings (summary_cell details rule <$> targetList).
Proof.
  unfold summary_row.
  enough (∀ acc,
            foldl (λ rowValue target,
                     match details !! target with
                     | Some targetHash =>
                         match targetHash !! rule with
                         | Some count => rowValue +:+ "," +:+ itoa count
                         | None => rowValue +:+ ", "
                         end
                     | None => rowValue +:+ ", "
                     end) acc targetList =
            acc +:+ concat_strings (summary_cell details rule <$> targetList)) as H by apply H.
  induction targetList as [|target l IH]; intros acc; simpl.
  - by rewrite string_app_empty_r.
  - rewrite IH. unfold summary_cell at 2.
    destruct (details !! target) as [targetHash|]; simpl;
      [destruct (targetHash !! rule)|]; by rewrite !string_app_assoc.
Qed.

Lemma Legacy_summary_row_cells targetList rule targetHash :
  Legacy.summary_row targetList rule targetHash =
  rule +:+ concat_strings (legacy_cell targetHash <$> targetList).
Proof.
  unfold Legacy.summary_row.
  enough (∀ acc,
            foldl (λ rowValue target,
                     match targetHash !! target with
                     | Some count => rowValue +:+ "," +:+ itoa count
                     | None => rowValue +:+ ",0"
                     end) acc targetList =
            acc +:+ concat_strings (legacy_cell targetHash <$> targetList)) as H by apply H.
  induction targetList as [|target l IH]; intros acc; simpl.
  - by rewrite string_app_empty_r.
  - rewrite IH. unfold legacy_cell at 2.
    destruct (targetHash !! target); simpl; by rewrite !string_app_assoc.
Qed.

(** The rules of the inner loop: those already there and those of the
    project at hand. *)
Lemma summary_rules_inner (targetHash : gmap string Z) l (rules : gmap string Z) rule :
  is_Some (foldl (add_rule_count targetHash) rules l !! rule) ↔
  is_Some (rules !! rule) ∨ rule ∈ l.*1.
Proof.
  revert rules. induction l as [|[r c] l IH]; intros rules; simpl.
  - rewrite elem_of_nil. tauto.
  - rewrite IH, elem_of_cons. clear IH. unfold add_rule_count. simpl.
    destruct (decide (r = rule)) as [->|Hne].
    + destruct (rules !! rule); rewrite lookup_insert_eq; split; eauto.
    + destruct (rules !! r); rewrite lookup_insert_ne by done; intuition congruence.
Qed.

(** [rules] has an entry for exactly the rules some project reports. *)
Lemma summary_rules_dom details rule :
  is_Some (summary_rules details !! rule) ↔
  ∃ target targetHash, details !! target = Some targetHash ∧ is_Some (targetHash !! rule).
Proof.
  unfold summary_rules.
  enough (∀ l (rules : gmap string Z),
            is_Some (foldl (λ rules (th : string * gmap string Z),
                       let targetHash := th.2 in
                       foldl (add_rule_count targetHash) rules (range targetHash))
                     rules l !! rule) ↔
            is_Some (rules !! rule) ∨
            ∃ target targetHash, (target, targetHash) ∈ l ∧ is_Some (targetHash !! rule))
    as Hfold.
  { rewrite Hfold, lookup_empty. split.
    - intros [[? ?]|(target & targetHash & Hin%elem_of_range & Hrule)]; [done|]. eauto.
    - intros (target & targetHash & Hin%elem_of_range & Hrule). eauto. }
  induction l as [|[target targetHash] l IH]; intros rules; simpl.
  - split; [eauto|]. intros [?|(? & ? & Hin & _)]; [done|]. by apply elem_of_nil in Hin.
  - rewrite IH, summary_rules_inner. clear IH. split.
    + intros [[?|Hin]|(t & h & Hin & Hrule)]; [by left| |].
      * right. exists target, targetHash. split; [apply list_elem_of_here|].
        apply list_elem_of_fmap in Hin as ([r c] & -> & Hin%elem_of_range). eauto.
      * right. exists t, h. split; [by apply list_elem_of_further|done].
    + intros [?|(t & h & Hin & Hrule)]; [by left; left|].
      apply elem_of_cons in Hin as [[= -> ->]|Hin].
      * left. right. destruct Hrule as [c Hc].
        apply list_elem_of_fmap. exists (rule, c). split; [done|]. by apply elem_of_range.
      * right. eauto.
Qed.

(** Appending the rows to the file that has been created. *)
Lemma write_rows path (row : string * Z → string) l t w :
  files w !! path = Some (Bytes (Text t)) →
  ∃ w',
    forM l (λ rc _, WriteString path (row rc)) () w = Returned () w' ∧
    files w' !! path = Some (Bytes (Text (t +:+ concat_strings (row <$> l)))) ∧
    logs w' = logs w.
Proof.
  revert t w. induction l as [|rc l IH]; intros t w Hfile.
  - exists w. by rewrite string_app_empty_r.
  - rewrite forM_cons. unfold mbind at 1, M_bind at 1, WriteString at 1. rewrite Hfile.
    set (w1 := mkWorld _ _ _).
    destruct (IH (t +:+ row rc) w1) as (w' & Hrun & Hfile' & Hlogs).
    { unfold w1. simpl. by rewrite lookup_insert_eq. }
    exists w'. split; [done|]. split; [|done].
    rewrite Hfile'. simpl. by rewrite string_app_assoc.
Qed.

(** C7, as [main] has it.  When the total is positive and the summary file
    can be created, the file holds the header and then one row per rule
    that some project reports; each row is the rule followed by one cell
    per target, in target order; the cell of a project that reports the
    rule is its count, and the cell of a project that does not report it
    (or of a target without any result) is a comma and a blank, not 0.
    When the total is not positive nothing is written. *)
Theorem summary_table path total details targetList w :
  path ∉ unwritable w →
  (0 < total →
   ∃ w' rows,
     writeSummary path total details targetList w = Returned () w' ∧
     files w' !! path =
       Some (Bytes (Text (concat_strings
         (("Rule," +:+ Join targetList "," +:+ LF) ::
          ((λ rule, summary_row details targetList rule +:+ LF) <$> rows))))) ∧
     NoDup rows ∧
     (∀ rule, rule ∈ rows ↔
        ∃ target targetHash, details !! target = Some targetHash ∧
                             is_Some (targetHash !! rule)) ∧
     (∀ rule, summary_row details targetList rule =
              rule +:+ concat_strings (summary_cell details rule <$> targetList)) ∧
     (∀ rule target targetHash count,
        details !! target = Some targetHash → targetHash !! rule = Some count →
        summary_cell details rule target = "," +:+ itoa count) ∧
     (∀ rule target,
        (∀ targetHash, details !! target = Some targetHash → targetHash !! rule = None) →
        summary_cell details rule target = ", ")) ∧
  (total ≤ 0 → writeSummary path total details targetList w = Returned () w).
Proof.
  intros Hpath. split.
  - intros Hpos. unfold writeSummary. rewrite bool_decide_eq_true_2 by done.
    rewrite bind_Printf. set (w0 := add_log _ w).
    unfold mbind at 1, M_bind at 1, Create at 1.
    change (unwritable w0) with (unwritable w). rewrite bool_decide_eq_false_2 by done.
    set (w1 := mkWorld _ _ _). rewrite bind_mret.
    unfold mbind at 1, M_bind at 1, WriteString at 1.
    assert (files w1 !! path = Some (Bytes (Text EmptyString))) as Hfile1
      by (unfold w1; simpl; apply lookup_insert_eq).
    rewrite Hfile1. set (w2 := mkWorld _ _ _).
    destruct (write_rows path
                (λ rc, summary_row details targetList rc.1 +:+ LF)
                (range (summary_rules details))
                (EmptyString +:+ "Rule," +:+ Join targetList "," +:+ LF) w2)
      as (w3 & Hrun & Hfile3 & _).
    { unfold w2. simpl. apply lookup_insert_eq. }
    rewrite (bind_Returned _ _ _ _ _ Hrun).
    eexists _, (range (summary_rules details)).*1.
    split; [reflexivity|]. split; [|split; [|split; [|split; [|split]]]].
    + simpl files. rewrite Hfile3. do 3 f_equal. rewrite string_app_empty_l. simpl.
      do 2 f_equal. by rewrite <- list_fmap_compose.
    + apply NoDup_range.
    + intros rule. rewrite <- summary_rules_dom. split.
      * intros ([r c] & -> & Hin%elem_of_range)%list_elem_of_fmap. eauto.
      * intros [c Hc]. apply list_elem_of_fmap. exists (rule, c).
        split; [done|]. by apply elem_of_range.
    + intros rule. apply summary_row_cells.
    + intros rule target targetHash count Ht Hr. unfold summary_cell.
      rewrite Ht. simpl. by rewrite Hr.
    + intros rule target Hnone. unfold summary_cell.
      destruct (details !! target) as [targetHash|]; simpl; [|done].
      by rewrite (Hnone targetHash).
  - intros Hle. unfold writeSummary. rewrite bool_decide_eq_false_2 by lia. done.
Qed.

End SummaryProofs.

(** ** The summary of the superseded driver writes 0 *)

Section LegacyProofs.
Context `{RT : Runtime}.

Lemma Legacy_accumulate_fold target l (g : gmap string (gmap string Z)) rule :
  NoDup l.*1 →
  foldl (λ g (rc : string * Z),
           let '(rule, count) := rc in
           let g := match g !! rule with
                    | None => <[rule := ∅]> g
                    | Some _ => g
                    end in
           <[rule := <[target := count]> (default ∅ (g !! rule))]> g) g l !! rule =
  match (list_to_map l : gmap string Z) !! rule with
  | Some count => Some (<[target := count]> (default ∅ (g !! rule)))
  | None => g !! rule
  end.
Proof.
  revert g. induction l as [|[r c] l IH]; intros g Hnd; [done|].
  apply NoDup_cons in Hnd as [Hr Hnd]. simpl foldl. rewrite IH by done. clear IH.
  simpl list_to_map. destruct (decide (r = rule)) as [->|Hne].
  - rewrite lookup_insert_eq, (not_elem_of_list_to_map_1 l rule) by done.
    rewrite lookup_insert_eq. destruct (g !! rule) eqn:Hg; [by rewrite Hg|].
    by rewrite lookup_insert_eq.
  - assert (match g !! r with
            | Some _ => g
            | None => <[r := ∅]> g
            end !! rule = g !! rule) as Hsame.
    { destruct (g !! r); [done|]. by rewrite lookup_insert_ne. }
    rewrite !lookup_insert_ne by done. by rewrite Hsame.
Qed.

Lemma Legacy_accumulate_lookup target rulesDetails g rule :
  Legacy.accumulate target rulesDetails g !! rule =
  match rulesDetails !! rule with
  | Some count => Some (<[target := count]> (default ∅ (g !! rule)))
  | None => g !! rule
  end.
Proof.
  unfold Legacy.accumulate. rewrite Legacy_accumulate_fold by apply NoDup_range.
  by rewrite list_to_map_range.
Qed.

Lemma Legacy_accumulate_all_snoc analysed target rulesDetails :
  Legacy.accumulate_all (analysed ++ [(target, rulesDetails)]) =
  Legacy.accumulate target rulesDetails (Legacy.accumulate_all analysed).
Proof. unfold Legacy.accumulate_all. by rewrite foldl_app. Qed.

(** Only analysed targets have cells. *)
Lemma Legacy_accumulate_all_targets analysed rule targetHash target :
  Legacy.accumulate_all analysed !! rule = Some targetHash →
  is_Some (targetHash !! target) → target ∈ analysed.*1.
Proof.
  revert targetHash. induction analysed as [|[t rd] l IH] using rev_ind; intros h.
  - unfold Legacy.accumulate_all. simpl. by rewrite lookup_empty.
  - rewrite Legacy_accumulate_all_snoc, Legacy_accumulate_lookup, fmap_app, elem_of_app.
    simpl. rewrite list_elem_of_singleton.
    destruct (rd !! rule) as [c|].
    + intros [= <-]. destruct (decide (t = target)) as [->|Hne]; [by right|].
      rewrite lookup_insert_ne by done.
      destruct (Legacy.accumulate_all l !! rule) as [h'|] eqn:Hh'; simpl.
      * left. by eapply IH.
      * rewrite lookup_empty. by intros [? ?].
    + intros Hh Hsome. left. by eapply IH.
Qed.

(** In the table of the superseded driver, the cell of a rule and an
    analysed project holds what that project reported for the rule. *)
Lemma Legacy_accumulate_all_cell analysed rule target rulesDetails :
  NoDup analysed.*1 →
  (target, rulesDetails) ∈ analysed →
  default ∅ (Legacy.accumulate_all analysed !! rule) !! target = rulesDetails !! rule.
Proof.
  induction analysed as [|[t rd] l IH] using rev_ind; intros Hnd Hin.
  - by apply elem_of_nil in Hin.
  - rewrite fmap_app in Hnd. apply NoDup_app in Hnd as (Hnd & Hfresh & _).
    rewrite Legacy_accumulate_all_snoc, Legacy_accumulate_lookup.
    apply elem_of_app in Hin as [Hin|Hin%list_elem_of_singleton].
    + assert (t ≠ target) as Hne.
      { intros ->. apply (Hfresh target); [|by apply list_elem_of_here].
        apply list_elem_of_fmap. by exists (target, rulesDetails). }
      destruct (rd !! rule) as [c|]; simpl; [rewrite lookup_insert_ne by done|]; by apply IH.
    + injection Hin as -> ->.
      destruct (rd !! rule) as [c|] eqn:Hc; simpl; [by rewrite lookup_insert_eq|].
      destruct (Legacy.accumulate_all l !! rule) as [h|] eqn:Hh; simpl; [|done].
      destruct (h !! t) as [x|] eqn:Hx; [|done]. exfalso.
      apply (Hfresh t); [|by apply list_elem_of_here].
      by eapply Legacy_accumulate_all_targets.
Qed.

(** So the cell of a project that does not report the rule is 0 there. *)
Lemma Legacy_cell_zero analysed rule targetHash target rulesDetails :
  NoDup analysed.*1 →
  Legacy.accumulate_all analysed !! rule = Some targetHash →
  (target, rulesDetails) ∈ analysed →
  rulesDetails !! rule = None →
  legacy_cell targetHash target = ",0".
Proof.
  intros Hnd Hrule Hin Hnone. unfold legacy_cell.
  pose proof (Legacy_accumulate_all_cell analysed rule target rulesDetails Hnd Hin) as Hcell.
  rewrite Hrule in Hcell. simpl in Hcell. by rewrite Hcell, Hnone.
Qed.

End LegacyProofs.

(** ** The sample projects *)

Lemma incident_key_joined_witness :
  decodes_to (RT := sample_runtime) sample_world "out/proj1/appcat_output" sample_current_doc ∧
  writes_ok EmptyString sample_world ∧
  ∃ details counts total w',
    ParseAppCatOutput (RT := sample_runtime) (sample_case "proj1")
      "out/proj1/appcat_output" EmptyString sample_world =
      Returned (details, counts, total, None) w' ∧
    (∀ key v, details !! key = Some v →
       v ∈ doc_incidents (RT := sample_runtime) sample_current_doc ∧
       key = incidentKey "proj1" v) ∧
    ∀ v, v ∈ doc_incidents (RT := sample_runtime) sample_current_doc →
      ∃ normalizedLocation,
        incidentKey "proj1" v =
          Join [ValidateIncident.RuleSet v; ValidateIncident.Rule v;
                normalizedLocation; itoa (ValidateIncident.LineNumber v)] "-" ∧
        is_Some (details !! incidentKey "proj1" v) ∧
        (occurs_in "proj1" (ValidateIncident.Uri v) →
           ∃ pre post,
             ValidateIncident.Uri v = pre +:+ normalizedLocation ∧
             normalizedLocation = "proj1" +:+ post ∧
             ∀ pre' post', ValidateIncident.Uri v = pre' +:+ "proj1" +:+ post' →
                           (String.length pre ≤ String.length pre')%nat) ∧
        (¬ occurs_in "proj1" (ValidateIncident.Uri v) →
           normalizedLocation = ValidateIncident.Uri v).
Proof.
  split; [exists (YamlRuleSets sample_current); split; vm_compute; reflexivity|]. split; [left; reflexivity|].
  apply (incident_key_joined (RT := sample_runtime) (sample_case "proj1")
           "out/proj1/appcat_output" EmptyString sample_world sample_current_doc).
  - exists (YamlRuleSets sample_current); split; vm_compute; reflexivity.
  - left; reflexivity.
Defined.

Lemma duplicate_keeps_first_witness :
  decodes_to (RT := sample_runtime) sample_world "out/proj1/appcat_output" sample_current_doc ∧
  writes_ok EmptyString sample_world ∧
  doc_incidents (RT := sample_runtime) sample_current_doc =
    [] ++ sample_first :: [] ++ sample_second :: [sample_third] ∧
  incidentKey "proj1" sample_second = incidentKey "proj1" sample_first ∧
  (∀ v, v ∈ [] → incidentKey "proj1" v ≠ incidentKey "proj1" sample_first) ∧
  ∃ details counts total w',
    ParseAppCatOutput (RT := sample_runtime) (sample_case "proj1")
      "out/proj1/appcat_output" EmptyString sample_world =
      Returned (details, counts, total, None) w' ∧
    details !! incidentKey "proj1" sample_first = Some sample_first ∧
    msg_duplicate (incidentKey "proj1" sample_second) ∈ logs w' ∧
    (∀ key, details !! key =
            first_with_key "proj1" key (doc_incidents (RT := sample_runtime) sample_current_doc)).
Proof.
  assert (∀ v : ValidateIncident.t,
            v ∈ [] → incidentKey "proj1" v ≠ incidentKey "proj1" sample_first) as Hnone
    by (intros v Hin; inversion Hin).
  split; [exists (YamlRuleSets sample_current); split; vm_compute; reflexivity|]. split; [left; reflexivity|].
  split; [vm_compute; reflexivity|]. split; [vm_compute; reflexivity|].
  split; [exact Hnone|].
  apply (duplicate_keeps_first (RT := sample_runtime) (sample_case "proj1")
           "out/proj1/appcat_output" EmptyString sample_world sample_current_doc
           [] sample_first [] sample_second [sample_third]).
  - exists (YamlRuleSets sample_current); split; vm_compute; reflexivity.
  - left; reflexivity.
  - vm_compute; reflexivity.
  - vm_compute; reflexivity.
  - exact Hnone.
Defined.

Lemma total_is_sum_of_rule_counts_witness :
  decodes_to (RT := sample_runtime) sample_world "out/proj1/appcat_output" sample_current_doc ∧
  writes_ok EmptyString sample_world ∧
  Z.of_nat (length (doc_incidents (RT := sample_runtime) sample_current_doc)) ≤ int_max ∧
  ∃ details counts total w',
    ParseAppCatOutput (RT := sample_runtime) (sample_case "proj1")
      "out/proj1/appcat_output" EmptyString sample_world =
      Returned (details, counts, total, None) w' ∧
    total = sum_counts counts ∧
    (∀ rule, default 0 (counts !! rule) =
             rule_occurrences rule (doc_incidents (RT := sample_runtime) sample_current_doc)) ∧
    NoDup (range (Runtime := sample_runtime) details).*1.
Proof.
  split; [exists (YamlRuleSets sample_current); split; vm_compute; reflexivity|]. split; [left; reflexivity|].
  split; [vm_compute; discriminate|].
  apply (total_is_sum_of_rule_counts (RT := sample_runtime) (sample_case "proj1")
           "out/proj1/appcat_output" EmptyString sample_world sample_current_doc).
  - exists (YamlRuleSets sample_current); split; vm_compute; reflexivity.
  - left; reflexivity.
  - vm_compute; discriminate.
Defined.

Lemma keys_at_most_total_witness :
  decodes_to (RT := sample_runtime) sample_world "out/proj1/appcat_output" sample_current_doc ∧
  writes_ok EmptyString sample_world ∧
  Z.of_nat (length (doc_incidents (RT := sample_runtime) sample_current_doc)) ≤ int_max ∧
  ∃ details counts total w',
    ParseAppCatOutput (RT := sample_runtime) (sample_case "proj1")
      "out/proj1/appcat_output" EmptyString sample_world =
      Returned (details, counts, total, None) w' ∧
    total = Z.of_nat (length (doc_incidents (RT := sample_runtime) sample_current_doc)) ∧
    (∀ rule, default 0 (counts !! rule) =
             rule_occurrences rule (doc_incidents (RT := sample_runtime) sample_current_doc)) ∧
    Z.of_nat (size details) ≤ total ∧
    (Z.of_nat (size details) = total ↔
     NoDup (incidentKey "proj1" <$> doc_incidents (RT := sample_runtime) sample_current_doc)).
Proof.
  split; [exists (YamlRuleSets sample_current); split; vm_compute; reflexivity|]. split; [left; reflexivity|].
  split; [vm_compute; discriminate|].
  apply (keys_at_most_total (RT := sample_runtime) (sample_case "proj1")
           "out/proj1/appcat_output" EmptyString sample_world sample_current_doc).
  - exists (YamlRuleSets sample_current); split; vm_compute; reflexivity.
  - left; reflexivity.
  - vm_compute; discriminate.
Defined.

Lemma incident_fields_copied_witness :
  files sample_world !! (filepath_Join (Runtime := sample_runtime) "out/proj1/appcat_output"
                                       "output.yaml")
    = Some (Bytes (YamlRuleSets sample_current)) ∧
  writes_ok EmptyString sample_world ∧
  (∀ rs rule r, record_in sample_current rs rule r →
                (decode_int (RawIncident.lineNumber r)).2 = true) ∧
  ∃ details counts total w',
    ParseAppCatOutput (RT := sample_runtime) (sample_case "proj1")
      "out/proj1/appcat_output" EmptyString sample_world =
      Returned (details, counts, total, None) w' ∧
    (∀ key v, details !! key = Some v →
       key = incidentKey "proj1" v ∧
       ∃ rs rule r,
         record_in sample_current rs rule r ∧
         v = {| ValidateIncident.RuleSet := RawRuleSet.name rs;
                ValidateIncident.Rule := rule;
                ValidateIncident.Uri := RawIncident.uri r;
                ValidateIncident.Message := RawIncident.message r;
                ValidateIncident.CodeSnip := RawIncident.codeSnip r;
                ValidateIncident.Variables := RawIncident.variables r;
                ValidateIncident.LineNumber := line_of (RawIncident.lineNumber r) |}) ∧
    ∀ rs rule r, record_in sample_current rs rule r →
      let v := {| ValidateIncident.RuleSet := RawRuleSet.name rs;
                  ValidateIncident.Rule := rule;
                  ValidateIncident.Uri := RawIncident.uri r;
                  ValidateIncident.Message := RawIncident.message r;
                  ValidateIncident.CodeSnip := RawIncident.codeSnip r;
                  ValidateIncident.Variables := RawIncident.variables r;
                  ValidateIncident.LineNumber := line_of (RawIncident.lineNumber r) |} in
      v ∈ doc_incidents (RT := sample_runtime)
            (Unmarshal (RT := sample_runtime) (YamlRuleSets sample_current)).1 ∧
      is_Some (details !! incidentKey "proj1" v) ∧
      ((∀ rs' rule' r', record_in sample_current rs' rule' r' →
          incidentKey "proj1" (incident_of_record (RawRuleSet.name rs') rule' r') =
            incidentKey "proj1" v →
          incident_of_record (RawRuleSet.name rs') rule' r' = v) →
       details !! incidentKey "proj1" v = Some v).
Proof.
  assert (files sample_world !! (filepath_Join (Runtime := sample_runtime)
                                   "out/proj1/appcat_output" "output.yaml")
          = Some (Bytes (YamlRuleSets sample_current))) as Hfile
    by (vm_compute; reflexivity).
  assert (writes_ok EmptyString sample_world) as Hok by (left; reflexivity).
  assert (∀ rs rule r, record_in sample_current rs rule r →
                       (decode_int (RawIncident.lineNumber r)).2 = true) as Hfits
    by (apply (Unmarshal_ok (RT := sample_runtime)); vm_compute; reflexivity).
  split; [exact Hfile|]. split; [exact Hok|]. split; [exact Hfits|].
  exact (proj1 (incident_fields_copied (RT := sample_runtime) (sample_case "proj1")
                  "out/proj1/appcat_output" EmptyString sample_world sample_current
                  Hfile Hok) Hfits).
Defined.

Lemma summary_table_witness :
  ("summary.csv" ∉ unwritable sample_world) ∧
  0 < 4 ∧
  ∃ w' rows,
    writeSummary (RT := sample_runtime) "summary.csv" 4 sample_details ["proj1"; "proj2"]
                 sample_world = Returned () w' ∧
    files w' !! "summary.csv" =
      Some (Bytes (Text (concat_strings
        (("Rule," +:+ Join ["proj1"; "proj2"] "," +:+ LF) ::
         ((λ rule, summary_row sample_details ["proj1"; "proj2"] rule +:+ LF) <$> rows))))) ∧
    NoDup rows ∧
    (∀ rule, rule ∈ rows ↔
       ∃ target targetHash, sample_details !! target = Some targetHash ∧
                            is_Some (targetHash !! rule)) ∧
    (∀ rule, summary_row sample_details ["proj1"; "proj2"] rule =
             rule +:+ concat_strings (summary_cell sample_details rule <$> ["proj1"; "proj2"])) ∧
    (∀ rule target targetHash count,
       sample_details !! target = Some targetHash → targetHash !! rule = Some count →
       summary_cell sample_details rule target = "," +:+ itoa count) ∧
    (∀ rule target,
       (∀ targetHash, sample_details !! target = Some targetHash → targetHash !! rule = None) →
       summary_cell sample_details rule target = ", ").
Proof.
  assert ("summary.csv" ∉ unwritable sample_world) as Hpath by apply not_elem_of_empty.
  assert (0 < 4) as Hpos by reflexivity.
  split; [exact Hpath|]. split; [exact Hpos|].
  exact (proj1 (summary_table (RT := sample_runtime) "summary.csv" 4 sample_details
                  ["proj1"; "proj2"] sample_world Hpath) Hpos).
Defined.

(** ** Where the code parts from the specification *)

Lemma exited_not_returned {A} (o : Outcome A) c :
  exit_code o = Some c → ¬ ∃ a w, o = Returned a w.
Proof. intros Hexit (a & w & ->). discriminate. Qed.

(** C6, counterexample.  The baseline of [proj3] has an incident whose
    [lineNumber] is the text [abc].  Parsing it does not return a set with
    an unspecified line number: the process ends with status 1, after the
    fatal message of the YAML decoder's error. *)
Lemma line_number_text_ends_parse :
  let run := ParseAppCatOutput (RT := sample_runtime) (sample_case "proj3")
               "baseline/proj3/appcat_output" EmptyString sample_world in
  record_in sample_bad_line sample_bad_ruleset "sql-injection" sample_bad_record ∧
  RawIncident.lineNumber sample_bad_record = YStr "abc" ∧
  (decode_int (RawIncident.lineNumber sample_bad_record)).2 = false ∧
  files sample_world !! "baseline/proj3/appcat_output/output.yaml" =
    Some (Bytes (YamlRuleSets sample_bad_line)) ∧
  exit_code run = Some 1 ∧
  last (logs (final_world run)) =
    Some ("failed to parse YAML: " +:+
          yaml_TypeError (yaml_complaints (Runtime := sample_runtime) sample_bad_line)) ∧
  ¬ ∃ result w', run = Returned result w'.
Proof.
  intros run.
  split; [|split; [reflexivity|split; [reflexivity|split; [vm_compute; reflexivity|]]]].
  - eexists _, _. split; [apply list_elem_of_here|]. split; [reflexivity|].
    split; [apply lookup_singleton_eq|]. apply list_elem_of_here.
  - split; [vm_compute; reflexivity|]. split; [vm_compute; reflexivity|].
    apply (exited_not_returned run 1). vm_compute; reflexivity.
Qed.

(** C7, counterexample.  [proj2] reports no [xss] incident; its cell in
    the [xss] row of the summary is a blank, and the row is not the one
    with a 0. *)
Lemma summary_cell_blank_not_zero :
  let run := writeSummary (RT := sample_runtime) "summary.csv" 4 sample_details
               ["proj1"; "proj2"] sample_world in
  (sample_details !! "proj2" ≫= (λ targetHash, targetHash !! "xss")) = None ∧
  summary_row sample_details ["proj1"; "proj2"] "xss" = "xss,1, " ∧
  summary_row sample_details ["proj1"; "proj2"] "xss" ≠ "xss,1,0" ∧
  returned run = Some () ∧
  files (final_world run) !! "summary.csv" =
    Some (Bytes (Text ("Rule,proj1,proj2" +:+ LF +:+
                       "sql-injection,2,1" +:+ LF +:+
                       "xss,1, " +:+ LF))).
Proof.
  intros run. split; [vm_compute; reflexivity|]. split; [vm_compute; reflexivity|].
  split; [vm_compute; discriminate|]. split; vm_compute; reflexivity.
Qed.

(** C5, the code at the failing inputs.  [proj4] has no baseline document
    and [proj3] has one that does not decode.  With either first in the
    list, the driver's loop does not return a result map: the process ends
    with status 1 after the fatal message, and [proj2], which would pass,
    is never started. *)
Theorem absent_or_malformed_document_ends_run :
  let absent := runTestCases (RT := sample_runtime)
                  [sample_case "proj4"; sample_case "proj2"] sample_world in
  let malformed := runTestCases (RT := sample_runtime)
                     [sample_case "proj3"; sample_case "proj2"] sample_world in
  let alone := runTestCases (RT := sample_runtime) [sample_case "proj2"] sample_world in
  files sample_world !! "baseline/proj4/appcat_output/output.yaml" = None ∧
  (exit_code absent = Some 1 ∧ returned absent = None ∧
   last (logs (final_world absent)) =
     Some ("No output.yaml found in folder: baseline/proj4/appcat_output" +:+ LF) ∧
   "Processing Test Case: proj2" ∉ logs (final_world absent)) ∧
  (exit_code malformed = Some 1 ∧ returned malformed = None ∧
   last (logs (final_world malformed)) =
     Some ("failed to parse YAML: " +:+
           yaml_TypeError (yaml_complaints (Runtime := sample_runtime) sample_bad_line)) ∧
   "Processing Test Case: proj2" ∉ logs (final_world malformed)) ∧
  ((λ results, results !! "proj2") <$> returned alone = Some (Some (ItemResultFormat_PASS "proj2"))).
Proof.
  intros absent malformed alone.
  split; [vm_compute; reflexivity|]. split; [|split].
  - split; [vm_compute; reflexivity|]. split; [vm_compute; reflexivity|].
    split; [vm_compute; reflexivity|].
    apply (bool_decide_unpack _). vm_compute. exact I.
  - split; [vm_compute; reflexivity|]. split; [vm_compute; reflexivity|].
    split; [vm_compute; reflexivity|].
    apply (bool_decide_unpack _). vm_compute. exact I.
  - vm_compute; reflexivity.
Qed.

(** * Further properties of the code *)

(** ** How calls end *)

Lemma ends_well_bind {A B} (P : B → Prop) (m : M A) (f : A → M B) :
  ends_well (λ _, True) m → (∀ a, ends_well P (f a)) → ends_well P (m ≫= f).
Proof.
  intros Hm Hf w. unfold mbind, M_bind. specialize (Hm w).
  destruct (m w); [apply Hf | done].
Qed.

Lemma ends_well_bind_with {A B} (Q : A → Prop) (P : B → Prop) (m : M A) (f : A → M B) :
  ends_well Q m → (∀ a, Q a → ends_well P (f a)) → ends_well P (m ≫= f).
Proof.
  intros Hm Hf w. unfold mbind, M_bind. specialize (Hm w).
  destruct (m w); [by apply Hf | done].
Qed.

Lemma ends_well_weaken {A} (P Q : A → Prop) (m : M A) :
  (∀ a, P a → Q a) → ends_well P m → ends_well Q m.
Proof. intros HPQ Hm w. specialize (Hm w). destruct (m w); auto. Qed.

Lemma ends_well_mret {A} (P : A → Prop) a : P a → ends_well P (mret a).
Proof. by intros HP w. Qed.

Lemma ends_well_Fatalf {A} (P : A → Prop) msg (f : unit → M A) :
  ends_well P (Fatalf msg ≫= f).
Proof. by intros w. Qed.

Lemma ends_well_returns {A} (m : M A) :
  (∀ w, ∃ a w', m w = Returned a w') → ends_well (λ _, True) m.
Proof. intros Hm w. by destruct (Hm w) as (a & w' & ->). Qed.

Lemma ends_well_forM {A S} (body : A → S → M S) l :
  (∀ x s, ends_well (λ _, True) (body x s)) →
  ∀ s, ends_well (λ _, True) (forM l body s).
Proof.
  intros Hbody. induction l as [|x l IH]; intros s; [by apply ends_well_mret|].
  apply ends_well_bind; auto.
Qed.

Lemma quiet_bind {A B} (m : M A) (f : A → M B) :
  quiet m → (∀ a, quiet (f a)) → quiet (m ≫= f).
Proof.
  intros Hm Hf w. unfold mbind, M_bind. specialize (Hm w).
  destruct (m w) as [a w1|c w1]; [|done].
  eapply only_logged_trans; [exact Hm | apply Hf].
Qed.

Lemma quiet_mret {A} (a : A) : quiet (mret a).
Proof. intros w. apply only_logged_refl. Qed.

Lemma quiet_Printf msg : quiet (Printf msg).
Proof. intros w. apply only_logged_add_log. Qed.

Lemma quiet_Fatalf msg : quiet (Fatalf msg).
Proof. intros w. apply only_logged_add_log. Qed.

Lemma quiet_Stat_IsNotExist path : quiet (Stat_IsNotExist path).
Proof. intros w. apply only_logged_refl. Qed.

Lemma quiet_ReadFile path : quiet (ReadFile path).
Proof.
  intros w. unfold ReadFile.
  destruct (files w !! path) as [[| |reason|d]|]; apply only_logged_refl.
Qed.

Lemma quiet_forM {A S} (body : A → S → M S) l :
  (∀ x s, quiet (body x s)) → ∀ s, quiet (forM l body s).
Proof.
  intros Hbody. induction l as [|x l IH]; intros s; [apply quiet_mret|].
  apply quiet_bind; auto.
Qed.

Ltac ends_well_step :=
  lazymatch goal with
  | |- ends_well _ (Fatalf _ ≫= _) => apply ends_well_Fatalf
  | |- ends_well _ (mret _) => apply ends_well_mret
  | |- ends_well _ (Printf _) => apply ends_well_returns; intros ?; by eexists _, _
  | |- ends_well _ (forM _ _ _) => apply ends_well_forM; intros ? ?
  | |- ends_well _ (_ ≫= _) => apply ends_well_bind; [|intros ?]
  | |- ends_well _ (match ?x with _ => _ end) => destruct x
  | |- ends_well _ (let '(_, _) := ?x in _) => destruct x
  end.

Ltac quiet_step :=
  lazymatch goal with
  | |- quiet (mret _) => apply quiet_mret
  | |- quiet (Printf _) => apply quiet_Printf
  | |- quiet (Fatalf _) => apply quiet_Fatalf
  | |- quiet (Stat_IsNotExist _) => apply quiet_Stat_IsNotExist
  | |- quiet (ReadFile _) => apply quiet_ReadFile
  | |- quiet (forM _ _ _) => apply quiet_forM; intros ? ?
  | |- quiet (_ ≫= _) => apply quiet_bind; [|intros ?]
  | |- quiet (match ?x with _ => _ end) => destruct x
  end.

Section ParserOutcomes.
Context `{RT : Runtime}.

Lemma ends_well_WriteFile path data : ends_well (λ _, True) (WriteFile path data).
Proof.
  apply ends_well_returns. intros w. unfold WriteFile.
  case_bool_decide; by eexists _, _.
Qed.

Lemma ends_well_parse_incident tc presistPath rulesetName ruleName ii st :
  ends_well (λ _, True) (parse_incident tc presistPath rulesetName ruleName ii st).
Proof.
  unfold parse_incident. destruct ii as [i incident].
  repeat first [apply ends_well_WriteFile | ends_well_step | done].
Qed.

Lemma ends_well_parse_rule tc presistPath rulesetName rv st :
  ends_well (λ _, True) (parse_rule tc presistPath rulesetName rv st).
Proof.
  unfold parse_rule. destruct rv as [ruleName violation].
  repeat first [apply ends_well_parse_incident | ends_well_step | done].
Qed.

Lemma ends_well_parse_section tc presistPath section st :
  ends_well (λ _, True) (parse_section tc presistPath section st).
Proof.
  unfold parse_section.
  repeat first [apply ends_well_parse_rule | ends_well_step | done].
Qed.

Lemma ends_well_ParseAppCatOutput tc outputPath presistPath :
  ends_well (λ r, r.2 = None) (ParseAppCatOutput tc outputPath presistPath).
Proof.
  unfold ParseAppCatOutput.
  repeat first [apply ends_well_parse_section
               | apply ends_well_returns; intros ?; unfold Stat_IsNotExist, ReadFile;
                 repeat case_match; by eexists _, _
               | ends_well_step | done].
Qed.

(** X1. [ParseAppCatOutput] never hands an error to its caller: whatever
    the file system holds and whether or not incidents are persisted, the
    call either ends the process with status 1 or returns with a nil
    error. *)
Theorem ParseAppCatOutput_error_is_nil tc outputPath presistPath w :
  match ParseAppCatOutput tc outputPath presistPath w with
  | Returned (_, _, _, err) _ => err = None
  | Exited code _ => code = 1
  end.
Proof.
  pose proof (ends_well_ParseAppCatOutput tc outputPath presistPath w) as H.
  destruct (ParseAppCatOutput tc outputPath presistPath w) as [[[[? ?] ?] err]|]; done.
Qed.

Lemma quiet_parse_incident tc rulesetName ruleName ii st :
  quiet (parse_incident tc EmptyString rulesetName ruleName ii st).
Proof.
  unfold parse_incident. destruct ii as [i incident].
  rewrite bool_decide_eq_false_2 by (intros H; by apply H).
  repeat first [quiet_step].
Qed.

Lemma quiet_parse_rule tc rulesetName rv st :
  quiet (parse_rule tc EmptyString rulesetName rv st).
Proof.
  unfold parse_rule. destruct rv as [ruleName violation].
  repeat first [apply quiet_parse_incident | quiet_step].
Qed.

Lemma quiet_parse_section tc section st :
  quiet (parse_section tc EmptyString section st).
Proof.
  unfold parse_section.
  repeat first [apply quiet_parse_rule | quiet_step].
Qed.

Lemma quiet_ParseAppCatOutput tc outputPath :
  quiet (ParseAppCatOutput tc outputPath EmptyString).
Proof.
  unfold ParseAppCatOutput.
  repeat first [apply quiet_parse_section | quiet_step].
Qed.

End ParserOutcomes.

Section ParserExtras.
Context `{RT : Runtime}.

(** X2. A parse that persists nothing ([presistPath] empty, as in
    [RunValidate]) is read-only: however it ends, the files are what they
    were and the log has only grown. *)
Theorem ParseAppCatOutput_read_only tc outputPath w :
  only_logged w (final_world (ParseAppCatOutput tc outputPath EmptyString w)).
Proof. apply quiet_ParseAppCatOutput. Qed.

Lemma incident_files_only_logged presistPath vs w w' :
  only_logged w w' → incident_files presistPath vs w w'.
Proof. intros (Hf & _) path. left. by rewrite Hf. Qed.

Lemma incident_files_trans presistPath vs1 vs2 w w1 w2 :
  incident_files presistPath vs1 w w1 →
  incident_files presistPath vs2 w1 w2 →
  incident_files presistPath (vs1 ++ vs2) w w2.
Proof.
  intros H1 H2 path. destruct (H2 path) as [Heq|(v & i & Hv & Hp & Hf)].
  - destruct (H1 path) as [Heq1|(v & i & Hv & Hp & Hf)].
    + left. congruence.
    + right. exists v, i. split; [apply elem_of_app; by left|]. split; congruence.
  - right. exists v, i. split; [apply elem_of_app; by right|]. done.
Qed.

Lemma incident_files_weaken presistPath vs vs' w w' :
  (∀ v, v ∈ vs → v ∈ vs') →
  incident_files presistPath vs w w' → incident_files presistPath vs' w w'.
Proof.
  intros Hsub H path. destruct (H path) as [Heq|(v & i & Hv & Hp & Hf)]; [by left|].
  right. exists v, i. auto.
Qed.

Lemma incident_files_bind {A B} presistPath vs1 vs2 (m : M A) (f : A → M B) :
  (∀ w, incident_files presistPath vs1 w (final_world (m w))) →
  (∀ a w, incident_files presistPath vs2 w (final_world (f a w))) →
  ∀ w, incident_files presistPath (vs1 ++ vs2) w (final_world ((m ≫= f) w)).
Proof.
  intros Hm Hf w. unfold mbind, M_bind. specialize (Hm w).
  destruct (m w) as [a w1|c w1]; simpl in *.
  - eapply incident_files_trans; [exact Hm | apply Hf].
  - eapply incident_files_weaken; [|exact Hm]. intros v Hv. apply elem_of_app. by left.
Qed.

Lemma incident_files_forM {A S} presistPath (flat : A → list ValidateIncident.t)
    (body : A → S → M S) :
  (∀ x s w, incident_files presistPath (flat x) w (final_world (body x s w))) →
  ∀ l s w, incident_files presistPath (l ≫= flat) w (final_world (forM l body s w)).
Proof.
  intros Hbody. induction l as [|x l IH]; intros s w.
  - apply incident_files_only_logged, only_logged_refl.
  - rewrite bind_cons. simpl forM. apply incident_files_bind; auto.
Qed.

Lemma incident_files_from presistPath vs w0 w w' :
  files w0 = files w →
  incident_files presistPath vs w0 w' → incident_files presistPath vs w w'.
Proof. intros Hf H path. rewrite <- Hf. apply (H path). Qed.

Lemma incident_files_parse_incident tc presistPath rulesetName ruleName ii st w :
  incident_files presistPath [mkValidateIncident rulesetName ruleName ii.2] w
    (final_world (parse_incident tc presistPath rulesetName ruleName ii st w)).
Proof.
  destruct ii as [i incident]. unfold parse_incident. rewrite !bind_Printf.
  set (v := mkValidateIncident rulesetName ruleName incident).
  set (w0 := add_log _ (add_log _ w)).
  apply (incident_files_from _ _ w0); [done|]. clearbody w0.
  assert (∀ w1 (k : unit → M ParseState),
            (∀ u, quiet (k u)) →
            incident_files presistPath [v] w1
              (final_world
                 ((((if bool_decide (presistPath ≠ EmptyString) then
                       err ← WriteFile
                                (filepath_Join presistPath
                                   (ruleName +:+ "_" +:+ itoa i +:+ IncidentExtension))
                                (MarshalledIncident v);
                       match err with
                       | Some e => Fatalf ("Failed to write incident file: " +:+ e)
                       | None => mret ()
                       end
                     else mret ()) : M unit) ≫= k) w1))) as Hpersist.
  { intros w1 k Hk. case_bool_decide as Hp.
    - rewrite bind_bind. unfold mbind at 1, M_bind at 1, WriteFile at 1.
      case_bool_decide as Hw.
      + rewrite bind_Fatalf. simpl. apply incident_files_only_logged, only_logged_add_log.
      + rewrite bind_mret.
        set (w2 := mkWorld _ _ _).
        pose proof (Hk () w2) as (Hf & _). intros path. rewrite Hf. unfold w2. simpl.
        destruct (decide (path = filepath_Join presistPath
                    (ruleName +:+ "_" +:+ itoa i +:+ IncidentExtension))) as [->|Hne].
        * right. exists v, i. split; [by apply list_elem_of_singleton|].
          split; [done|]. by rewrite lookup_insert_eq.
        * left. by rewrite lookup_insert_ne.
    - rewrite bind_mret. apply incident_files_only_logged, Hk. }
  destruct (incidentsDetails st !! incidentKey (Name tc) v) as [old|].
  - cbv beta iota. rewrite bind_bind, bind_Printf.
    apply (incident_files_from _ _ (add_log (msg_duplicate (incidentKey (Name tc) v)) w0));
      [done|].
    rewrite bind_mret. apply Hpersist. intros u. apply quiet_mret.
  - cbv beta iota. rewrite bind_mret. apply Hpersist. intros u. apply quiet_mret.
Qed.

Lemma incident_files_parse_rule tc presistPath rulesetName rv st w :
  incident_files presistPath (rule_incidents rulesetName rv) w
    (final_world (parse_rule tc presistPath rulesetName rv st w)).
Proof.
  destruct rv as [ruleName violation]. unfold parse_rule, rule_incidents.
  rewrite bind_Printf.
  apply (incident_files_from _ _
           (add_log ("  [ParseOutput] Processing rule: " +:+ ruleName +:+ LF) w)); [done|].
  simpl. case_bool_decide.
  - rewrite <- (indexed_bind (mkValidateIncident rulesetName ruleName)).
    apply incident_files_forM. intros ii s w1. apply incident_files_parse_incident.
  - rewrite bind_Printf. apply incident_files_only_logged, only_logged_add_log.
Qed.

Lemma incident_files_parse_section tc presistPath section st w :
  incident_files presistPath (section_incidents section) w
    (final_world (parse_section tc presistPath section st w)).
Proof.
  unfold parse_section, section_incidents. rewrite bind_Printf.
  apply (incident_files_from _ _
           (add_log ("[ParseOutput] Processing ruleset: " +:+ RuleSet.Name section +:+ LF) w));
    [done|].
  destruct (RuleSet.Violations section) as [violations|].
  - apply incident_files_forM. intros rv s w1. apply incident_files_parse_rule.
  - rewrite bind_Printf. apply incident_files_only_logged, only_logged_add_log.
Qed.

Lemma final_world_bind_pure {A B} (m : M A) (f : A → M B) w :
  (∀ a w1, final_world (f a w1) = w1) →
  final_world ((m ≫= f) w) = final_world (m w).
Proof. intros Hf. unfold mbind, M_bind. destruct (m w); [apply Hf | done]. Qed.

(** X3. The only files a parse ever creates or changes are incident files:
    whatever the state and however the call ends, a path whose content
    differs afterwards is [presistPath] joined with
    [<rule>_<index>.incident] and holds the marshalled form of an incident
    of that rule from the parsed document.  In particular the input
    document is rewritten only if it sits at such a path. *)
Theorem ParseAppCatOutput_writes_only_incident_files tc outputPath presistPath w path :
  let w' := final_world (ParseAppCatOutput tc outputPath presistPath w) in
  files w' !! path = files w !! path ∨
  ∃ data v i,
    presistPath ≠ EmptyString ∧
    files w !! filepath_Join outputPath "output.yaml" = Some (Bytes data) ∧
    v ∈ doc_incidents (Unmarshal data).1 ∧
    path = filepath_Join presistPath
             (ValidateIncident.Rule v +:+ "_" +:+ itoa i +:+ IncidentExtension) ∧
    files w' !! path = Some (Bytes (MarshalledIncident v)).
Proof.
  intros w'.
  assert (w' = final_world (ParseAppCatOutput tc outputPath presistPath w)) as Hw'
    by reflexivity.
  clearbody w'.
  destruct (decide (presistPath = EmptyString)) as [->|Hp].
  { left. subst w'. by destruct (quiet_ParseAppCatOutput tc outputPath w) as (-> & _). }
  unfold ParseAppCatOutput in Hw'. rewrite bind_Printf in Hw'.
  set (w0 := add_log _ w) in Hw'.
  unfold mbind at 1, M_bind at 1, Stat_IsNotExist at 1 in Hw'.
  change (files w0) with (files w) in Hw'.
  destruct (files w !! filepath_Join outputPath "output.yaml") as [entry|] eqn:Hfile.
  2:{ rewrite bool_decide_eq_true_2 in Hw' by done. rewrite bind_Fatalf in Hw'.
      left. by subst w'. }
  rewrite bool_decide_eq_false_2 in Hw' by done.
  unfold mbind at 1, M_bind at 1, ReadFile at 1 in Hw'.
  change (files w0) with (files w) in Hw'. rewrite Hfile in Hw'.
  destruct entry as [| |reason|data]; try (rewrite bind_Fatalf in Hw'; left; by subst w').
  rewrite bind_mret in Hw'. destruct (Unmarshal data) as [doc err] eqn:Hdec.
  destruct err as [e|]; [rewrite bind_Fatalf in Hw'; left; by subst w'|].
  rewrite bind_mret in Hw'.
  rewrite final_world_bind_pure in Hw' by done.
  pose proof (incident_files_forM presistPath section_incidents
                (parse_section tc presistPath)
                (λ x s w1, incident_files_parse_section tc presistPath x s w1)
                doc (mkParseState 0 ∅ ∅) w0 path) as Hfiles.
  rewrite <- Hw' in Hfiles.
  destruct Hfiles as [Heq|(v & i & Hv & Hpath & Hf)].
  - by left.
  - right. exists data, v, i. rewrite Hdec. by repeat split.
Qed.

Lemma forM_skip {A S} (body : A → S → M S) l :
  (∀ x s w, x ∈ l → ∃ w', body x s w = Returned s w' ∧ only_logged w w') →
  ∀ s w, ∃ w', forM l body s w = Returned s w' ∧ only_logged w w'.
Proof.
  induction l as [|x l IH]; intros Hbody s w.
  - exists w. split; [done|]. apply only_logged_refl.
  - destruct (Hbody x s w) as (w1 & Hrun1 & Hlog1); [by left|].
    destruct (IH (λ y s0 w0 Hy, Hbody y s0 w0 (list_elem_of_further _ _ _ Hy)) s w1)
      as (w2 & Hrun2 & Hlog2).
    exists w2. split; [|by eapply only_logged_trans].
    by rewrite forM_cons, (bind_Returned _ _ _ _ _ Hrun1).
Qed.

(** X4. A document without incidents is not an error: when every rule-set
    has no violations map or only rules with empty incident lists, the
    parse returns empty maps, a zero total and a nil error, and has
    written nothing but log lines, even when asked to persist. *)
Theorem ParseAppCatOutput_no_incidents tc outputPath presistPath w doc :
  decodes_to w outputPath doc →
  (∀ section violations rule violation,
     section ∈ doc → RuleSet.Violations section = Some violations →
     violations !! rule = Some violation → Violation.Incidents violation = []) →
  ∃ w', ParseAppCatOutput tc outputPath presistPath w = Returned (∅, ∅, 0, None) w' ∧
        only_logged w w'.
Proof.
  intros (data & Hfile & Hdec) Hempty. unfold ParseAppCatOutput.
  rewrite bind_Printf.
  set (w0 := add_log _ w).
  unfold mbind at 1, M_bind at 1, Stat_IsNotExist at 1.
  change (files w0) with (files w). rewrite Hfile.
  rewrite bool_decide_eq_false_2 by done.
  unfold mbind at 1, M_bind at 1, ReadFile at 1.
  change (files w0) with (files w). rewrite Hfile.
  rewrite bind_mret, Hdec, bind_mret.
  destruct (forM_skip (parse_section tc presistPath) doc) with
    (s := mkParseState 0 ∅ ∅) (w := w0) as (w' & Hrun & Hlog).
  - intros section st w1 Hsec. unfold parse_section. rewrite bind_Printf.
    destruct (RuleSet.Violations section) as [violations|] eqn:Hv.
    + destruct (forM_skip (parse_rule tc presistPath (RuleSet.Name section))
                  (range violations)) with (s := st) (w := add_log
                  ("[ParseOutput] Processing ruleset: " +:+ RuleSet.Name section +:+ LF) w1)
        as (w2 & Hrun2 & Hlog2).
      * intros [rule violation] st2 w2 Hin. apply elem_of_range in Hin.
        unfold parse_rule. rewrite bind_Printf.
        rewrite (Hempty _ _ _ _ Hsec Hv Hin). simpl.
        rewrite bind_Printf.
        eexists. split; [reflexivity|].
        eapply only_logged_trans; apply only_logged_add_log.
      * exists w2. split; [done|].
        eapply only_logged_trans; [apply only_logged_add_log|done].
    + rewrite bind_Printf. eexists. split; [reflexivity|].
      eapply only_logged_trans; apply only_logged_add_log.
  - exists w'. split; [by rewrite (bind_Returned _ _ _ _ _ Hrun)|].
    eapply only_logged_trans; [apply only_logged_add_log|done].
Qed.

End ParserExtras.

(** ** The key, and the order of the maps *)

Lemma string_drop_app s t : string_drop (String.length s) (s +:+ t) = t.
Proof. induction s as [|c s IH]; [by destruct t|]. simpl. exact IH. Qed.

Lemma Index_prefix s sub : String.prefix sub s = true → Index s sub = 0.
Proof.
  intros H. destruct s as [|c s].
  - by rewrite Index_nil, H.
  - by rewrite Index_cons, H.
Qed.

Lemma tempPath_at_root tcName root rest :
  Index (root +:+ tcName +:+ rest) tcName = Z.of_nat (String.length root) →
  tempPath tcName (root +:+ tcName +:+ rest) = tcName +:+ rest.
Proof.
  intros Hidx. unfold tempPath. rewrite Hidx.
  replace (Z.of_nat (String.length root) =? -1) with false
    by (symmetry; apply Z.eqb_neq; lia).
  simpl. unfold slice_from. rewrite Nat2Z.id. apply string_drop_app.
Qed.

(** X6. The key does not depend on the workspace root: two incidents of
    the same rule-set, rule and line whose Uris are [root1 + name + rest]
    and [root2 + name + rest], the project name first occurring right
    after the root in each, get the same key, built from [name + rest]. *)
Theorem incidentKey_ignores_workspace_root tcName v1 v2 root1 root2 rest :
  ValidateIncident.RuleSet v1 = ValidateIncident.RuleSet v2 →
  ValidateIncident.Rule v1 = ValidateIncident.Rule v2 →
  ValidateIncident.LineNumber v1 = ValidateIncident.LineNumber v2 →
  ValidateIncident.Uri v1 = root1 +:+ tcName +:+ rest →
  ValidateIncident.Uri v2 = root2 +:+ tcName +:+ rest →
  Index (ValidateIncident.Uri v1) tcName = Z.of_nat (String.length root1) →
  Index (ValidateIncident.Uri v2) tcName = Z.of_nat (String.length root2) →
  incidentKey tcName v1 = incidentKey tcName v2 ∧
  incidentKey tcName v1 =
    ValidateIncident.RuleSet v1 +:+ "-" +:+ ValidateIncident.Rule v1 +:+ "-" +:+
    (tcName +:+ rest) +:+ "-" +:+ itoa (ValidateIncident.LineNumber v1).
Proof.
  intros Hrs Hr Hl Hu1 Hu2 Hi1 Hi2. unfold incidentKey.
  rewrite Hu1 in Hi1 |- *. rewrite Hu2 in Hi2 |- *.
  rewrite (tempPath_at_root _ _ _ Hi1), (tempPath_at_root _ _ _ Hi2).
  by rewrite Hrs, Hr, Hl.
Qed.

(** X7. Normalising a Uri twice is the same as normalising it once, so an
    incident whose Uri has already been cut at the project name (as in a
    stored, normalised baseline) keeps its key. *)
Theorem incidentKey_normalisation_idempotent tcName v :
  tempPath tcName (tempPath tcName (ValidateIncident.Uri v)) =
    tempPath tcName (ValidateIncident.Uri v) ∧
  incidentKey tcName
    {| ValidateIncident.RuleSet := ValidateIncident.RuleSet v;
       ValidateIncident.Rule := ValidateIncident.Rule v;
       ValidateIncident.Uri := tempPath tcName (ValidateIncident.Uri v);
       ValidateIncident.Message := ValidateIncident.Message v;
       ValidateIncident.CodeSnip := ValidateIncident.CodeSnip v;
       ValidateIncident.Variables := ValidateIncident.Variables v;
       ValidateIncident.LineNumber := ValidateIncident.LineNumber v |} =
  incidentKey tcName v.
Proof.
  assert (tempPath tcName (tempPath tcName (ValidateIncident.Uri v)) =
          tempPath tcName (ValidateIncident.Uri v)) as Hidem.
  { set (uri := ValidateIncident.Uri v).
    destruct (decide (Index uri tcName = -1)) as [Hno|Hyes].
    - unfold tempPath at 2. rewrite Hno. simpl. unfold tempPath. by rewrite Hno.
    - destruct (Index_found uri tcName Hyes) as (pre & post & _ & _ & Hslice & _).
      assert (tempPath tcName uri = tcName +:+ post) as ->.
      { unfold tempPath. apply Z.eqb_neq in Hyes. by rewrite Hyes. }
      unfold tempPath.
      rewrite (Index_prefix (tcName +:+ post) tcName)
        by (apply prefix_spec; by exists post).
      done. }
  split; [done|]. unfold incidentKey. simpl. by rewrite Hidem.
Qed.

Lemma doc_incidents_perm (RT1 RT2 : Runtime) doc :
  doc_incidents (RT := RT1) doc ≡ₚ doc_incidents (RT := RT2) doc.
Proof.
  unfold doc_incidents. induction doc as [|s doc IH]; [done|].
  rewrite !bind_cons. apply Permutation_app; [|done].
  unfold section_incidents. destruct (RuleSet.Violations s) as [m|]; [|done].
  apply bind_Permutation.
  by rewrite (range_perm (Runtime := RT1)), (range_perm (Runtime := RT2)).
Qed.

Lemma NoDup_fmap_agree {A B} (f : A → B) l x y :
  NoDup (f <$> l) → x ∈ l → y ∈ l → f x = f y → x = y.
Proof.
  induction l as [|a l IH]; intros Hnd Hx Hy Heq; [by apply elem_of_nil in Hx|].
  rewrite fmap_cons in Hnd. apply NoDup_cons in Hnd as [Hnot Hnd].
  apply elem_of_cons in Hx, Hy.
  destruct Hx as [->|Hx], Hy as [->|Hy]; auto.
  - exfalso. apply Hnot. rewrite Heq. by apply list_elem_of_fmap_2.
  - exfalso. apply Hnot. rewrite <- Heq. by apply list_elem_of_fmap_2.
Qed.

Lemma first_with_key_perm tcName key vs1 vs2 :
  vs1 ≡ₚ vs2 → NoDup (incidentKey tcName <$> vs1) →
  first_with_key tcName key vs1 = first_with_key tcName key vs2.
Proof.
  intros Hp Hnd.
  destruct (first_with_key tcName key vs1) as [v1|] eqn:H1.
  - apply first_with_key_Some in H1 as (Hk1 & l1 & l2 & Hvs1 & _).
    assert (v1 ∈ vs1) as Hin1.
    { rewrite Hvs1. apply elem_of_app. right. by left. }
    destruct (first_with_key tcName key vs2) as [v2|] eqn:H2.
    + apply first_with_key_Some in H2 as (Hk2 & l3 & l4 & Hvs2 & _).
      assert (v2 ∈ vs1) as Hin2.
      { rewrite Hp, Hvs2. apply elem_of_app. right. by left. }
      f_equal. eapply NoDup_fmap_agree; eauto. congruence.
    + exfalso. eapply first_with_key_None in H2; [by apply H2|]. by rewrite <- Hp.
  - symmetry. apply first_with_key_None. intros v Hv.
    eapply first_with_key_None in H1; [exact H1|]. by rewrite Hp.
Qed.

(** X8. The order in which Go visits the [violations] map does not affect
    what the parse returns for the counts, the total and the set of keys;
    and when no two incidents of the document share a key it does not
    affect the returned set either.  (With a shared key the first incident
    met wins, and which one that is follows the map order.) *)
Theorem ParseAppCatOutput_map_order (RT1 RT2 : Runtime) tc outputPath presistPath w1 w2 doc :
  decodes_to (RT := RT1) w1 outputPath doc →
  decodes_to (RT := RT2) w2 outputPath doc →
  writes_ok presistPath w1 →
  writes_ok presistPath w2 →
  Z.of_nat (length (doc_incidents (RT := RT1) doc)) ≤ int_max →
  ∃ details1 details2 counts total w1' w2',
    ParseAppCatOutput (RT := RT1) tc outputPath presistPath w1 =
      Returned (details1, counts, total, None) w1' ∧
    ParseAppCatOutput (RT := RT2) tc outputPath presistPath w2 =
      Returned (details2, counts, total, None) w2' ∧
    dom details1 = dom details2 ∧
    (NoDup (incidentKey (Name tc) <$> doc_incidents (RT := RT1) doc) →
     details1 = details2).
Proof.
  intros Hdoc1 Hdoc2 Hok1 Hok2 Hfit.
  pose proof (doc_incidents_perm RT1 RT2 doc) as Hp.
  destruct (ParseAppCatOutput_post (RT := RT1) tc outputPath presistPath w1 doc Hdoc1 Hok1)
    as (st1 & w1' & Hrun1 & Hst1 & _).
  destruct (ParseAppCatOutput_post (RT := RT2) tc outputPath presistPath w2 doc Hdoc2 Hok2)
    as (st2 & w2' & Hrun2 & Hst2 & _).
  assert (Z.of_nat (length (doc_incidents (RT := RT2) doc)) ≤ int_max) as Hfit2
    by by rewrite <- Hp.
  destruct (record_incidents_counts (Name tc) _ Hfit) as (Ht1 & Hc1 & _).
  destruct (record_incidents_counts (Name tc) _ Hfit2) as (Ht2 & Hc2 & _).
  fold parse_init in Hst1, Hst2. rewrite <- Hst1 in Ht1, Hc1. rewrite <- Hst2 in Ht2, Hc2.
  assert (ruleIncidentDetails st2 = ruleIncidentDetails st1) as Hcounts.
  { apply map_eq. intros rule. rewrite Hc1, Hc2.
    replace (rule_occurrences rule (doc_incidents (RT := RT2) doc))
      with (rule_occurrences rule (doc_incidents (RT := RT1) doc)); [done|].
    unfold rule_occurrences. by rewrite Hp. }
  assert (incidentsCount st2 = incidentsCount st1) as Htotal.
  { rewrite Ht1, Ht2. by rewrite Hp. }
  exists (incidentsDetails st1), (incidentsDetails st2), (ruleIncidentDetails st1),
         (incidentsCount st1), w1', w2'.
  split; [done|]. split; [by rewrite Hrun2, Hcounts, Htotal|]. split.
  - rewrite Hst1, Hst2, !record_incidents_dom.
    apply list_to_set_perm_L. by rewrite Hp.
  - intros Hnd. apply map_eq. intros key.
    rewrite Hst1, Hst2, !record_incidents_lookup. simpl. rewrite lookup_empty.
    by apply first_with_key_perm.
Qed.

(** ** Persisting does not change what is returned *)

Lemma ends_well_forM_fold {A S} (body : A → S → M S) (f : S → A → S) l :
  (∀ x s, ends_well (λ s', s' = f s x) (body x s)) →
  ∀ s, ends_well (λ s', s' = foldl f s l) (forM l body s).
Proof.
  intros Hbody. induction l as [|x l IH]; intros s; simpl; [by apply ends_well_mret|].
  eapply ends_well_bind_with; [apply Hbody|]. intros s' ->. apply IH.
Qed.

Lemma record_incidents_bind {A} tcName (flat : A → list ValidateIncident.t) l st :
  foldl (λ st x, record_incidents tcName st (flat x)) st l =
  record_incidents tcName st (l ≫= flat).
Proof.
  revert st. induction l as [|x l IH]; intros st; [done|].
  rewrite bind_cons. simpl. rewrite IH. unfold record_incidents. by rewrite foldl_app.
Qed.

Section Returned.
Context `{RT : Runtime}.

Lemma parse_incident_records tc presistPath rulesetName ruleName ii st :
  ends_well (λ st', st' = record_incidents (Name tc) st
                            [mkValidateIncident rulesetName ruleName ii.2])
            (parse_incident tc presistPath rulesetName ruleName ii st).
Proof.
  destruct ii as [i incident]. unfold parse_incident.
  do 2 (apply ends_well_bind; [ends_well_step|intros _]).
  set (v := mkValidateIncident rulesetName ruleName incident).
  apply (ends_well_bind_with
           (λ d, d = match incidentsDetails st !! incidentKey (Name tc) v with
                     | None => <[incidentKey (Name tc) v := v]> (incidentsDetails st)
                     | Some _ => incidentsDetails st
                     end)).
  { destruct (incidentsDetails st !! incidentKey (Name tc) v);
      [apply ends_well_bind; [ends_well_step|intros _]|]; by apply ends_well_mret. }
  intros d ->.
  apply ends_well_bind.
  { case_bool_decide; [|by apply ends_well_mret].
    apply ends_well_bind; [apply ends_well_WriteFile|intros [e|]];
      [by intros ?|by apply ends_well_mret]. }
  intros _. by apply ends_well_mret.
Qed.

Lemma parse_rule_records tc presistPath rulesetName rv st :
  ends_well (λ st', st' = record_incidents (Name tc) st (rule_incidents rulesetName rv))
            (parse_rule tc presistPath rulesetName rv st).
Proof.
  destruct rv as [ruleName violation]. unfold parse_rule, rule_incidents. simpl.
  apply ends_well_bind; [ends_well_step|intros _].
  case_bool_decide as Hlen.
  - rewrite <- (indexed_bind (mkValidateIncident rulesetName ruleName)).
    rewrite <- record_incidents_bind.
    apply ends_well_forM_fold. intros ii st0. apply parse_incident_records.
  - destruct (Violation.Incidents violation) as [|? ?]; [|simpl in Hlen; lia].
    apply ends_well_bind; [ends_well_step|intros _]. by apply ends_well_mret.
Qed.

Lemma parse_section_records tc presistPath section st :
  ends_well (λ st', st' = record_incidents (Name tc) st (section_incidents section))
            (parse_section tc presistPath section st).
Proof.
  unfold parse_section, section_incidents.
  apply ends_well_bind; [ends_well_step|intros _].
  destruct (RuleSet.Violations section) as [violations|].
  - rewrite <- record_incidents_bind.
    apply ends_well_forM_fold. intros rv st0. apply parse_rule_records.
  - apply ends_well_bind; [ends_well_step|intros _]. by apply ends_well_mret.
Qed.

(** Whenever a parse returns, with or without persisting, it returns the
    accumulators that have recorded the incidents of the document. *)
Lemma ParseAppCatOutput_returned tc outputPath presistPath w doc result w1 :
  decodes_to w outputPath doc →
  ParseAppCatOutput tc outputPath presistPath w = Returned result w1 →
  result =
    (incidentsDetails (record_incidents (Name tc) parse_init (doc_incidents doc)),
     ruleIncidentDetails (record_incidents (Name tc) parse_init (doc_incidents doc)),
     incidentsCount (record_incidents (Name tc) parse_init (doc_incidents doc)),
     None).
Proof.
  intros (data & Hfile & Hdec) Hrun. unfold ParseAppCatOutput in Hrun.
  rewrite bind_Printf in Hrun.
  set (w0 := add_log _ w) in Hrun.
  unfold mbind at 1, M_bind at 1, Stat_IsNotExist at 1 in Hrun.
  change (files w0) with (files w) in Hrun. rewrite Hfile in Hrun.
  rewrite bool_decide_eq_false_2 in Hrun by done.
  unfold mbind at 1, M_bind at 1, ReadFile at 1 in Hrun.
  change (files w0) with (files w) in Hrun. rewrite Hfile in Hrun.
  rewrite bind_mret, Hdec, bind_mret in Hrun.
  pose proof (ends_well_forM_fold (parse_section tc presistPath)
                (λ st section, record_incidents (Name tc) st (section_incidents section))
                doc (λ section st, parse_section_records tc presistPath section st)
                (mkParseState 0 ∅ ∅) w0) as Hloop.
  unfold mbind, M_bind in Hrun.
  destruct (forM doc (parse_section tc presistPath) (mkParseState 0 ∅ ∅) w0)
    as [st' w'|code w']; [|done].
  rewrite record_incidents_bind in Hloop. subst st'.
  unfold mret, M_ret in Hrun. by simplify_eq.
Qed.

End Returned.

(** What the accumulators hold does not depend on the order in which the
    incidents are met, but for the incident kept under a shared key. *)
Lemma record_incidents_perm tcName vs1 vs2 :
  vs1 ≡ₚ vs2 →
  Z.of_nat (length vs1) ≤ int_max →
  ruleIncidentDetails (record_incidents tcName parse_init vs2) =
    ruleIncidentDetails (record_incidents tcName parse_init vs1) ∧
  incidentsCount (record_incidents tcName parse_init vs2) =
    incidentsCount (record_incidents tcName parse_init vs1) ∧
  dom (incidentsDetails (record_incidents tcName parse_init vs2)) =
    dom (incidentsDetails (record_incidents tcName parse_init vs1)) ∧
  (NoDup (incidentKey tcName <$> vs1) →
   incidentsDetails (record_incidents tcName parse_init vs2) =
     incidentsDetails (record_incidents tcName parse_init vs1)).
Proof.
  intros Hp Hfit.
  assert (Z.of_nat (length vs2) ≤ int_max) as Hfit2 by by rewrite <- Hp.
  destruct (record_incidents_counts tcName _ Hfit) as (Ht1 & Hc1 & _).
  destruct (record_incidents_counts tcName _ Hfit2) as (Ht2 & Hc2 & _).
  split; [|split; [|split]].
  - apply map_eq. intros rule. rewrite Hc1, Hc2.
    replace (rule_occurrences rule vs2) with (rule_occurrences rule vs1); [done|].
    unfold rule_occurrences. by rewrite Hp.
  - rewrite Ht1, Ht2. by rewrite Hp.
  - rewrite !record_incidents_dom. apply list_to_set_perm_L. by rewrite Hp.
  - intros Hnd. apply map_eq. intros key.
    rewrite !record_incidents_lookup. simpl. rewrite lookup_empty.
    symmetry. by apply first_with_key_perm.
Qed.

(** X5. What a parse returns does not depend on whether the incidents are
    persisted.  Whenever a parse that persists returns (which it does only
    when every incident file could be written), its error is nil, and a
    parse of the same document that does not persist returns the same
    total and the same counts with a nil error, and a set with the same
    keys; the two sets are equal whenever no two incidents of the
    document share a key, also when the two parses visit the maps in
    different orders. *)
Theorem ParseAppCatOutput_result_ignores_persisting (RT1 RT2 : Runtime)
    tc outputPath presistPath w doc details1 counts total err w1 :
  decodes_to (RT := RT1) w outputPath doc →
  decodes_to (RT := RT2) w outputPath doc →
  Z.of_nat (length (doc_incidents (RT := RT1) doc)) ≤ int_max →
  ParseAppCatOutput (RT := RT1) tc outputPath presistPath w =
    Returned (details1, counts, total, err) w1 →
  err = None ∧
  ∃ details2 w2,
    ParseAppCatOutput (RT := RT2) tc outputPath EmptyString w =
      Returned (details2, counts, total, None) w2 ∧
    dom details2 = dom details1 ∧
    (NoDup (incidentKey (Name tc) <$> doc_incidents (RT := RT1) doc) →
     details2 = details1).
Proof.
  intros Hdoc1 Hdoc2 Hfit Hrun1.
  apply (ParseAppCatOutput_returned (RT := RT1)) with (doc := doc) in Hrun1; [|done].
  injection Hrun1 as -> -> -> ->. split; [done|].
  destruct (ParseAppCatOutput_post (RT := RT2) tc outputPath EmptyString w doc Hdoc2)
    as (st2 & w2 & Hrun2 & Hst2 & _); [by left|].
  fold parse_init in Hst2. subst st2.
  destruct (record_incidents_perm (Name tc) _ _ (doc_incidents_perm RT1 RT2 doc) Hfit)
    as (Hcounts & Htotal & Hdom & Hdetails).
  eexists _, w2. split; [by rewrite Hrun2, Hcounts, Htotal|]. done.
Qed.

(** ** The comparison *)

Lemma ends_well_run {A} (P : A → Prop) (m : M A) :
  (∀ w, ∃ a w', m w = Returned a w' ∧ P a) → ends_well P m.
Proof. intros Hm w. by destruct (Hm w) as (a & w' & -> & HP). Qed.

Lemma quiet_run {A} (m : M A) :
  (∀ w, ∃ a w', m w = Returned a w' ∧ only_logged w w') → quiet m.
Proof. intros Hm w. by destruct (Hm w) as (a & w' & -> & Hlog). Qed.

Lemma diff_entry_swap key (a b : option ValidateIncident.t) :
  is_Some (diff_entry key a b) ↔ is_Some (diff_entry key b a).
Proof.
  destruct a as [v|], b as [v'|]; simpl; try done.
  repeat case_bool_decide; try done; congruence.
Qed.

Section DifferExtras.
Context `{RT : Runtime}.

(** X9. Comparing a set of incidents with itself always passes: the
    result is [true], no detail line is produced, and every key is logged
    as validated. *)
Theorem RunValidate_compare_self set w :
  ∃ w', RunValidate_compare set set w = Returned (true, ∅) w' ∧
        only_logged w w' ∧
        ∀ key, is_Some (set !! key) → msg_validated key ∈ logs w'.
Proof.
  destruct (RunValidate_compare_run set set w) as (w' & Hrun & Hlog & Hval).
  exists w'. rewrite diff_reflexive in Hrun. split; [done|]. split; [done|].
  intros key [v Hv]. by eapply Hval.
Qed.

(** X10. Swapping the two inputs never changes the verdict: the result
    flag is the same, the same keys are reported, and a key is reported
    as a message mismatch in one direction exactly when it is in the
    other (only [NEW] and [MISS] change places). *)
Theorem RunValidate_compare_swap cur base w1 w2 :
  ∃ result details1 details2 w1' w2',
    RunValidate_compare cur base w1 = Returned (result, details1) w1' ∧
    RunValidate_compare base cur w2 = Returned (result, details2) w2' ∧
    dom details1 = dom details2 ∧
    ∀ key, is_CHANGED details1 key ↔ is_CHANGED details2 key.
Proof.
  destruct (RunValidate_compare_run cur base w1) as (w1' & Hrun1 & _).
  destruct (RunValidate_compare_run base cur w2) as (w2' & Hrun2 & _).
  assert (dom (diff cur base).2 = dom (diff base cur).2) as Hdom.
  { apply set_eq. intros key. rewrite !elem_of_dom, !diff_lookup. apply diff_entry_swap. }
  exists (diff cur base).1, (diff cur base).2, (diff base cur).2, w1', w2'.
  split; [by destruct (diff cur base)|]. split.
  - rewrite Hrun2. f_equal. apply injective_projections; [|done]. simpl.
    rewrite !diff_flag. apply bool_decide_ext.
    rewrite <- !dom_empty_iff_L. by rewrite Hdom.
  - split; [done|]. intros key. rewrite !diff_CHANGED. split.
    + intros (v & b & Hv & Hb & Hne). exists b, v. auto.
    + intros (v & b & Hv & Hb & Hne). exists b, v. auto.
Qed.

Lemma diff_empty_iff cur base :
  (diff cur base).2 = ∅ ↔
  ValidateIncident.Message <$> cur = ValidateIncident.Message <$> base.
Proof.
  split.
  - intros Hempty. apply map_eq. intros key. rewrite !lookup_fmap.
    assert ((diff cur base).2 !! key = None) as Hk by by rewrite Hempty.
    rewrite diff_lookup in Hk.
    destruct (cur !! key) as [v|], (base !! key) as [b|]; simpl in *; try done.
    case_bool_decide as Hm; [done|]. by f_equal.
  - intros Heq. apply map_eq. intros key. rewrite diff_lookup, lookup_empty.
    assert ((ValidateIncident.Message <$> cur) !! key =
            (ValidateIncident.Message <$> base) !! key) as Hk by by rewrite Heq.
    rewrite !lookup_fmap in Hk.
    destruct (cur !! key) as [v|], (base !! key) as [b|]; simpl in *; try done.
    rewrite bool_decide_eq_false_2; [done|]. intros Hne. congruence.
Qed.

End DifferExtras.

(** X11. The outcome of the comparison does not depend on the order in
    which Go visits the two maps, nor on the state it starts in: it
    always returns, and always the same result and detail lines. *)
Theorem RunValidate_compare_map_order (RT1 RT2 : Runtime) cur base w1 w2 :
  ∃ result w1' w2',
    RunValidate_compare (RT := RT1) cur base w1 = Returned result w1' ∧
    RunValidate_compare (RT := RT2) cur base w2 = Returned result w2'.
Proof.
  destruct (RunValidate_compare_run (RT := RT1) cur base w1) as (w1' & Hrun1 & _).
  destruct (RunValidate_compare_run (RT := RT2) cur base w2) as (w2' & Hrun2 & _).
  exists (diff (RT := RT1) cur base), w1', w2'. split; [done|].
  by rewrite (diff_order_independent RT1 RT2).
Qed.

Section RunExtras.
Context `{RT : Runtime}.

Lemma quiet_RunValidate_compare cur base : quiet (RunValidate_compare cur base).
Proof.
  apply quiet_run. intros w.
  destruct (RunValidate_compare_run cur base w) as (w' & Hrun & Hlog & _). eauto.
Qed.

Lemma quiet_RunValidate tc : quiet (RunValidate tc).
Proof.
  unfold RunValidate.
  repeat first [apply quiet_ParseAppCatOutput | apply quiet_RunValidate_compare | quiet_step].
Qed.

Lemma ends_well_RunValidate tc :
  ends_well (λ r, r.2 = None ∧ (r.1.1 = true ↔ r.1.2 = ∅)) (RunValidate tc).
Proof.
  unfold RunValidate.
  do 3 (apply ends_well_bind; [ends_well_step|intros _]).
  apply ends_well_bind;
    [eapply ends_well_weaken; [|apply ends_well_ParseAppCatOutput]; done|].
  intros [[[baselineIncidents ?] ?] [e|]]; [apply ends_well_Fatalf|].
  apply ends_well_bind; [ends_well_step|intros _].
  apply ends_well_bind;
    [eapply ends_well_weaken; [|apply ends_well_ParseAppCatOutput]; done|].
  intros [[[incidents ?] ?] [e|]]; [apply ends_well_Fatalf|].
  apply ends_well_bind; [ends_well_step|intros _].
  apply (ends_well_bind_with (λ r, r = diff incidents baselineIncidents)).
  - apply ends_well_run. intros w.
    destruct (RunValidate_compare_run incidents baselineIncidents w) as (w' & Hrun & _).
    eauto.
  - intros [result resultDetails] Hdiff.
    apply ends_well_bind; [ends_well_step|intros _].
    apply ends_well_mret. split; [done|]. simpl.
    pose proof (diff_flag incidents baselineIncidents) as Hflag.
    rewrite <- Hdiff in Hflag. simpl in Hflag. rewrite Hflag.
    apply bool_decide_eq_true.
Qed.

(** X12. [RunValidate] is read-only and never returns an error: however
    it ends, the files are untouched and the log has only grown; it
    either ends the process with status 1 or returns a nil error together
    with a result that is [true] exactly when there are no detail
    lines. *)
Theorem RunValidate_read_only tc w :
  only_logged w (final_world (RunValidate tc w)) ∧
  match RunValidate tc w with
  | Returned (result, resultDetails, err) _ =>
      err = None ∧ (result = true ↔ resultDetails = ∅)
  | Exited code _ => code = 1
  end.
Proof.
  split; [apply quiet_RunValidate|].
  pose proof (ends_well_RunValidate tc w) as H.
  by destruct (RunValidate tc w) as [[[result resultDetails] err] w'|].
Qed.

Lemma PASS_not_FAIL name name' details :
  ItemResultFormat_PASS name ≠ ItemResultFormat_FAIL name' details.
Proof. intros H. cbv in H. discriminate. Qed.

Lemma first_with_key_message tcName key vs m :
  NoDup (incidentKey tcName <$> vs) →
  ValidateIncident.Message <$> first_with_key tcName key vs = Some m ↔
  (key, m) ∈ (λ v, (incidentKey tcName v, ValidateIncident.Message v)) <$> vs.
Proof.
  intros Hnd. split.
  - intros Hm. destruct (first_with_key tcName key vs) as [v|] eqn:Hv; [|done].
    simpl in Hm. simplify_eq.
    apply first_with_key_Some in Hv as (<- & l1 & l2 & -> & _).
    apply list_elem_of_fmap. exists v. split; [done|]. apply elem_of_app. right. by left.
  - intros Hin. apply list_elem_of_fmap in Hin as (v & Heq & Hin). simplify_eq.
    destruct (first_with_key tcName (incidentKey tcName v) vs) as [v'|] eqn:Hv'.
    + apply first_with_key_Some in Hv' as (Hk & l1 & l2 & Hvs & _).
      assert (v' ∈ vs) as Hin' by (rewrite Hvs; apply elem_of_app; right; by left).
      simpl. f_equal. f_equal. by eapply NoDup_fmap_agree.
    + exfalso. eapply first_with_key_None in Hv'; [by apply Hv'|done].
Qed.

(** X13. The verdict of [Run] depends on the keys and messages only: given
    a successful analyser run and two documents that decode, in each of
    which no two incidents share a key, [Run] returns the PASS line
    exactly when output and baseline hold the same pairs of key and
    message, that is, when their normalised sets have the same keys with
    the same messages.  Code snippets, variables and the part of a Uri
    before the project name are never compared.  Without shared keys the
    set a parse returns does not depend on the order in which it visits
    its maps, so the verdict is the same whichever order each loop
    takes. *)
Theorem Run_passes_iff_same_messages tc w out w1 base cur :
  containsAction (ActionList tc) ActionAnalyze = false →
  containsAction (ActionList tc) ActionValidate = true →
  (if containsAction (ActionList tc) ActionRun
   then RunAppCat tc w = Returned (out, None) w1 else w1 = w) →
  decodes_to w1 (BaseLineFolder tc) base →
  decodes_to w1 (getAppcatOutputFolder tc) cur →
  NoDup (incidentKey (Name tc) <$> doc_incidents cur) →
  NoDup (incidentKey (Name tc) <$> doc_incidents base) →
  ∃ resultMessage w',
    Run tc w = Returned (resultMessage, None) w' ∧
    (resultMessage = ItemResultFormat_PASS (Name tc) ↔
     ∀ key message,
       (∃ v, v ∈ doc_incidents cur ∧ incidentKey (Name tc) v = key ∧
             ValidateIncident.Message v = message) ↔
       (∃ v, v ∈ doc_incidents base ∧ incidentKey (Name tc) v = key ∧
             ValidateIncident.Message v = message)) ∧
    (resultMessage = ItemResultFormat_PASS (Name tc) ↔
     ValidateIncident.Message <$> normalized_set (Name tc) cur =
     ValidateIncident.Message <$> normalized_set (Name tc) base) ∧
    ∀ RT' : Runtime,
      normalized_set (RT := RT') (Name tc) cur = normalized_set (RT := RT) (Name tc) cur ∧
      normalized_set (RT := RT') (Name tc) base = normalized_set (RT := RT) (Name tc) base.
Proof.
  intros Hana Hval Hrun Hbase Hcur Hndc Hndb.
  destruct (Run_reports_comparison tc w out w1 base cur Hana Hval Hrun Hbase Hcur)
    as (w' & HRun).
  eexists _, w'. split; [exact HRun|].
  assert (Run_resultMessage tc
            (diff (normalized_set (Name tc) cur) (normalized_set (Name tc) base)).2 =
          ItemResultFormat_PASS (Name tc) ↔
          ValidateIncident.Message <$> normalized_set (Name tc) cur =
          ValidateIncident.Message <$> normalized_set (Name tc) base) as Hpass.
  { rewrite <- diff_empty_iff. unfold Run_resultMessage.
    case_bool_decide as Hsize.
    - split; [|done]. intros _. apply map_size_empty_iff. lia.
    - split.
      + intros H. symmetry in H. by apply PASS_not_FAIL in H.
      + intros Hempty. rewrite Hempty, map_size_empty in Hsize. done. }
  assert (∀ RT' : Runtime,
            normalized_set (RT := RT') (Name tc) cur =
              normalized_set (RT := RT) (Name tc) cur ∧
            normalized_set (RT := RT') (Name tc) base =
              normalized_set (RT := RT) (Name tc) base)
    as Horder.
  { intros RT'. split; unfold normalized_set; apply map_eq; intros key;
      rewrite !record_incidents_lookup; simpl; rewrite !lookup_empty;
      (apply first_with_key_perm; [apply doc_incidents_perm|]);
      [by rewrite (doc_incidents_perm RT' RT cur)|by rewrite (doc_incidents_perm RT' RT base)]. }
  split; [|split; [exact Hpass|exact Horder]]. rewrite Hpass.
  assert (∀ doc key message,
            (∃ v, v ∈ doc_incidents doc ∧ incidentKey (Name tc) v = key ∧
                  ValidateIncident.Message v = message) ↔
            (key, message) ∈ (λ v, (incidentKey (Name tc) v, ValidateIncident.Message v))
                               <$> doc_incidents doc) as Hpair.
  { intros doc key message. rewrite list_elem_of_fmap. split.
    - intros (v & Hv & <- & <-). by exists v.
    - intros (v & Heq & Hv). simplify_eq. by exists v. }
  assert (∀ doc key,
            (ValidateIncident.Message <$> normalized_set (Name tc) doc) !! key =
            ValidateIncident.Message
              <$> first_with_key (Name tc) key (doc_incidents doc)) as Hlookup.
  { intros doc key. rewrite lookup_fmap. unfold normalized_set.
    rewrite record_incidents_lookup. simpl. by rewrite lookup_empty. }
  split.
  - intros Hsame key message. rewrite !Hpair.
    rewrite <- (first_with_key_message _ _ _ _ Hndc),
            <- (first_with_key_message _ _ _ _ Hndb).
    by rewrite <- !Hlookup, Hsame.
  - intros Hsame. apply map_eq. intros key. rewrite !Hlookup.
    apply option_eq. intros message.
    rewrite (first_with_key_message _ _ _ _ Hndc), (first_with_key_message _ _ _ _ Hndb).
    rewrite <- !Hpair. apply Hsame.
Qed.

(** X14. Reordering the incidents and moving the workspace leave the
    verdict alone: if the incidents of output and baseline, each reduced
    to its key and message, are the same up to order, and no key occurs
    twice, [Run] returns the PASS line. *)
Theorem Run_passes_on_same_keyed_messages tc w out w1 base cur :
  containsAction (ActionList tc) ActionAnalyze = false →
  containsAction (ActionList tc) ActionValidate = true →
  (if containsAction (ActionList tc) ActionRun
   then RunAppCat tc w = Returned (out, None) w1 else w1 = w) →
  decodes_to w1 (BaseLineFolder tc) base →
  decodes_to w1 (getAppcatOutputFolder tc) cur →
  NoDup (incidentKey (Name tc) <$> doc_incidents cur) →
  (λ v, (incidentKey (Name tc) v, ValidateIncident.Message v)) <$> doc_incidents cur ≡ₚ
  (λ v, (incidentKey (Name tc) v, ValidateIncident.Message v)) <$> doc_incidents base →
  ∃ w', Run tc w = Returned (ItemResultFormat_PASS (Name tc), None) w'.
Proof.
  intros Hana Hval Hrun Hbase Hcur Hnd Hperm.
  destruct (Run_reports_comparison tc w out w1 base cur Hana Hval Hrun Hbase Hcur)
    as (w' & HRun).
  exists w'. rewrite HRun. do 2 f_equal.
  enough (ValidateIncident.Message <$> normalized_set (Name tc) cur =
          ValidateIncident.Message <$> normalized_set (Name tc) base) as Hsame.
  { apply diff_empty_iff in Hsame. unfold Run_resultMessage.
    by rewrite Hsame, map_size_empty. }
  assert (NoDup (incidentKey (Name tc) <$> doc_incidents base)) as Hnd'.
  { assert (incidentKey (Name tc) <$> doc_incidents base ≡ₚ
            incidentKey (Name tc) <$> doc_incidents cur) as ->; [|done].
    assert (∀ vs, incidentKey (Name tc) <$> vs =
                  ((λ v, (incidentKey (Name tc) v, ValidateIncident.Message v)) <$> vs).*1)
      as Hfst by (intros vs; by rewrite <- list_fmap_compose).
    by rewrite !Hfst, Hperm. }
  apply map_eq. intros key. rewrite !lookup_fmap. unfold normalized_set.
  rewrite !record_incidents_lookup. simpl. rewrite lookup_empty.
  apply option_eq. intros m.
  rewrite (first_with_key_message _ _ _ _ Hnd), (first_with_key_message _ _ _ _ Hnd').
  by rewrite Hperm.
Qed.

End RunExtras.

(** ** [RunAppCat], [RunAnalyze], [Run] and the driver's loop *)

Ltac ends_well_prim :=
  apply ends_well_returns; intros ?;
  unfold Stat_IsNotExist, ReadFile, MkdirAll, Create, WriteString, WriteFile;
  repeat case_match; by eexists _, _.

Section RunOutcomes.
Context `{RT : Runtime}.


Lemma ends_well_RunAppCat tc : ends_well (λ r, r.2 = None) (RunAppCat tc).
Proof.
  unfold RunAppCat.
  apply ends_well_bind; [ends_well_step|intros _].
  apply ends_well_bind; [ends_well_prim|intros [|]]; [apply ends_well_Fatalf|].
  apply ends_well_bind; [ends_well_prim|intros notExist].
  apply ends_well_bind;
    [destruct notExist; [ends_well_prim|by apply ends_well_mret]|intros [e|]];
    [apply ends_well_Fatalf|].
  do 2 (apply ends_well_bind; [ends_well_step|intros _]).
  apply ends_well_bind; [apply ends_well_returns; intros w; by eexists _, _|intros now].
  apply ends_well_bind; [ends_well_step|intros _].
  apply ends_well_bind.
  { apply ends_well_returns. intros w.
    destruct (exec_Run _ (ApplicationFolder tc) (files w)). by eexists _, _. }
  intros [e|]; [apply ends_well_Fatalf|].
  apply ends_well_bind; [apply ends_well_returns; intros w; by eexists _, _|intros now'].
  apply ends_well_bind; [ends_well_step|intros _].
  by apply ends_well_mret.
Qed.

Lemma ends_well_RunAnalyze tc : ends_well (λ r, r.2 = None) (RunAnalyze tc).
Proof.
  unfold RunAnalyze.
  do 3 (apply ends_well_bind; [ends_well_step|intros _]).
  apply ends_well_bind; [ends_well_prim|intros notExist].
  apply ends_well_bind.
  { destruct notExist; [|by apply ends_well_mret].
    apply ends_well_bind; [ends_well_prim|intros [e|]];
      [by intros ?|by apply ends_well_mret]. }
  intros _.
  apply ends_well_bind; [ends_well_prim|intros [|]]; [apply ends_well_Fatalf|].
  apply ends_well_bind;
    [eapply ends_well_weaken; [|apply ends_well_ParseAppCatOutput]; done|].
  intros [[[? rulesDetails] totalIncidents] [e|]]; [apply ends_well_Fatalf|].
  do 2 (apply ends_well_bind; [ends_well_step|intros _]).
  apply ends_well_bind.
  { apply ends_well_forM. intros [rule count] []. ends_well_step. }
  intros _.
  apply ends_well_bind; [ends_well_prim|intros err].
  apply ends_well_bind.
  { destruct err; [by intros ?|by apply ends_well_mret]. }
  intros _.
  apply ends_well_bind; [ends_well_prim|intros _].
  apply ends_well_bind.
  { apply ends_well_forM. intros [rule count] []. ends_well_prim. }
  intros _.
  apply ends_well_bind; [ends_well_step|intros _].
  by apply ends_well_mret.
Qed.

Lemma ends_well_Run tc : ends_well (λ r, r.2 = None ∧ is_report tc r.1) (Run tc).
Proof.
  unfold Run, is_report.
  apply (ends_well_bind_with (λ early, early = None)).
  { destruct (containsAction (ActionList tc) ActionRun); [|by apply ends_well_mret].
    apply (ends_well_bind_with (λ r, r.2 = None)); [apply ends_well_RunAppCat|].
    intros [out err] Herr. simpl in Herr. subst err. by apply ends_well_mret. }
  intros early ->.
  apply (ends_well_bind_with (λ early, early = None)).
  { destruct (containsAction (ActionList tc) ActionAnalyze); [|by apply ends_well_mret].
    apply (ends_well_bind_with (λ r, r.2 = None)); [apply ends_well_RunAnalyze|].
    intros [[total counts] err] Herr. simpl in Herr. subst err. by apply ends_well_mret. }
  intros early ->.
  destruct (containsAction (ActionList tc) ActionValidate).
  - apply (ends_well_bind_with (λ r, r.2 = None)).
    { eapply ends_well_weaken; [|apply ends_well_RunValidate]. by intros r [Herr _]. }
    intros [[result caseResults] err] Herr. simpl in Herr. subst err.
    apply ends_well_mret. split; [done|]. by exists caseResults.
  - by apply ends_well_mret.
Qed.

(** X16. [Run] never returns an error, whatever the actions and the
    state: it ends the process with status 1 or returns a nil error with
    a PASS or FAIL line (when validation is among the actions) or the word
    [passed] (when it is not).  The three statements that return an
    empty message with [fmt.Errorf(...)] are never reached. *)
Theorem Run_error_is_nil tc w :
  match Run tc w with
  | Returned (resultMessage, err) _ =>
      err = None ∧
      if containsAction (ActionList tc) ActionValidate
      then ∃ caseResults, resultMessage = Run_resultMessage tc caseResults
      else resultMessage = "passed"
  | Exited code _ => code = 1
  end.
Proof.
  pose proof (ends_well_Run tc w) as H.
  by destruct (Run tc w) as [[resultMessage err] w'|].
Qed.

Lemma is_report_not_error tc resultMessage e :
  is_report tc resultMessage → resultMessage ≠ "Error: " +:+ e.
Proof.
  unfold is_report, Run_resultMessage. intros H Heq.
  destruct (containsAction (ActionList tc) ActionValidate).
  - destruct H as [caseResults ->]. case_bool_decide; cbv in Heq; discriminate.
  - subst resultMessage. cbv in Heq. discriminate.
Qed.

Lemma ends_well_runTestCase testCase testResults :
  ends_well (λ res, ∃ result, res = <[Name testCase := result]> testResults ∧
                              is_report testCase result)
            (runTestCase testCase testResults).
Proof.
  unfold runTestCase.
  apply ends_well_bind; [ends_well_step|intros _].
  apply (ends_well_bind_with (λ r, r.2 = None ∧ is_report testCase r.1));
    [apply ends_well_Run|].
  intros [result caseErr] [Herr Hrep]. simpl in Herr, Hrep. subst caseErr.
  apply (ends_well_bind_with (λ res, res = testResults)); [by apply ends_well_mret|].
  intros testResults' ->.
  apply ends_well_bind; [ends_well_step|intros _].
  apply ends_well_mret. eauto.
Qed.

(** A project folder that is out of reach is not reported as missing:
    [RunAppCat] goes on and starts the analyser. *)
Example RunAppCat_folder_out_of_reach :
  returned (RunAppCat (RT := sample_runtime) sample_out_of_reach_case
              sample_out_of_reach_world) = Some ("out", None).
Proof. vm_compute. reflexivity. Qed.

End RunOutcomes.

Section DriverExtras.
Context `{RT : Runtime}.

Lemma ends_well_forM_runTestCase l : ∀ acc,
  ends_well (λ res,
               dom res = dom acc ∪ list_to_set (Name <$> l) ∧
               ∀ name result, res !! name = Some result →
                 acc !! name = Some result ∨
                 ∃ testCase, testCase ∈ l ∧ Name testCase = name ∧ is_report testCase result)
            (forM l runTestCase acc).
Proof.
  induction l as [|x l IH]; intros acc.
  - apply ends_well_mret. split; [|auto].
    simpl. by rewrite (right_id_L ∅ (∪)).
  - simpl forM. eapply ends_well_bind_with; [apply ends_well_runTestCase|].
    intros acc' (result & -> & Hrep). eapply ends_well_weaken; [|apply IH].
    intros res [Hdom Hval]. split.
    + rewrite Hdom, dom_insert_L, fmap_cons. simpl.
      by rewrite (comm_L (∪) {[Name x]} (dom acc)), <- (assoc_L (∪)).
    + intros name r Hr. destruct (Hval name r Hr) as [Hacc|(tc & Htc & Hn & Hrep')].
      * destruct (decide (name = Name x)) as [->|Hne].
        -- rewrite lookup_insert_eq in Hacc. simplify_eq. right. exists x.
           split; [by left|done].
        -- rewrite lookup_insert_ne in Hacc by done. by left.
      * right. exists tc. split; [by right|done].
Qed.

(** X17. The driver's loop never records an error: it either ends the
    process with status 1 or returns a result map whose keys are exactly
    the names of the test cases and whose entry for a name is a message
    built by [Run] for a test case of that name.  No entry is ever the
    text [Error: ...] that the loop's error branch would store. *)
Theorem runTestCases_results testCases w :
  match runTestCases testCases w with
  | Returned testResults _ =>
      dom testResults = list_to_set (Name <$> testCases) ∧
      ∀ name result, testResults !! name = Some result →
        (∀ e, result ≠ "Error: " +:+ e) ∧
        ∃ testCase, testCase ∈ testCases ∧ Name testCase = name ∧
          if containsAction (ActionList testCase) ActionValidate
          then ∃ caseResults, result = Run_resultMessage testCase caseResults
          else result = "passed"
  | Exited code _ => code = 1
  end.
Proof.
  pose proof (ends_well_forM_runTestCase testCases ∅ w) as H.
  unfold runTestCases. destruct (forM testCases runTestCase ∅ w) as [res w'|]; [|done].
  destruct H as [Hdom Hval]. split.
  - by rewrite Hdom, dom_empty_L, (left_id_L ∅ (∪)).
  - intros name result Hres.
    destruct (Hval name result Hres) as [Hempty|(tc & Htc & Hn & Hrep)]; [done|].
    split; [intros e; by eapply is_report_not_error|]. by exists tc.
Qed.

Lemma forM_ext {A S} (body body' : A → S → M S) l :
  (∀ x s w, body x s w = body' x s w) →
  ∀ s w, forM l body s w = forM l body' s w.
Proof.
  intros Hext. induction l as [|x l IH]; intros s w; [done|].
  simpl. unfold mbind, M_bind. rewrite Hext. destruct (body' x s w); [apply IH|done].
Qed.

Lemma log_rows (line : string * Z → string) l w :
  ∃ w', forM l (λ rc _, Printf (line rc)) () w = Returned () w' ∧ only_logged w w'.
Proof.
  destruct (forM_only_logged (λ rc (_ : unit), Printf (line rc)) (λ s _, s) l) with
    (s := ()) (w := w) as (w' & Hrun & Hlog).
  - intros x [] w0. eexists. split; [reflexivity|]. apply only_logged_add_log.
  - exists w'. split; [|done]. rewrite Hrun. f_equal.
    by destruct (foldl (λ (s : unit) (_ : string * Z), s) () l).
Qed.

Lemma RunAnalyze_run tc w doc :
  decodes_to w (getAppcatOutputFolder tc) doc →
  unwritable w = ∅ →
  getAnalysisOutputFolder tc ≠ filepath_Join (getAppcatOutputFolder tc) "output.yaml" →
  ∃ st w',
    st = record_incidents (Name tc) parse_init (doc_incidents doc) ∧
    RunAnalyze tc w = Returned (incidentsCount st, ruleIncidentDetails st, None) w' ∧
    files w' !! getIncidentsSummaryFile tc =
      Some (Bytes (Text (concat_strings
        (("Rule,Incidents" +:+ LF) ::
         ((λ rc : string * Z, rc.1 +:+ "," +:+ itoa rc.2 +:+ LF)
            <$> range (ruleIncidentDetails st)))))).
Proof.
  intros Hdoc Hw Hne. unfold RunAnalyze. rewrite !bind_Printf.
  set (w0 := add_log _ (add_log _ (add_log _ w))).
  assert (decodes_to w0 (getAppcatOutputFolder tc) doc) as Hdoc0 by done.
  assert (unwritable w0 = ∅) as Hw0 by done.
  clearbody w0. clear Hdoc Hw w.
  unfold mbind at 1, M_bind at 1, Stat_IsNotExist at 1.
  assert (∃ w1, ((if bool_decide (files w0 !! getAnalysisOutputFolder tc = None) then
                    err ← MkdirAll (getAnalysisOutputFolder tc);
                    match err with
                    | Some e => Fatalf ("failed to create analyze output folder: " +:+ e)
                    | None => mret ()
                    end
                  else mret ()) : M unit) w0 = Returned () w1 ∧
               decodes_to w1 (getAppcatOutputFolder tc) doc ∧ unwritable w1 = ∅)
    as (w1 & Hrun1 & Hdoc1 & Hw1).
  { case_bool_decide.
    - unfold mbind, M_bind, MkdirAll. rewrite Hw0.
      rewrite bool_decide_eq_false_2 by apply not_elem_of_empty.
      eexists. split; [reflexivity|]. split; [|done].
      destruct Hdoc0 as (data & Hfile & Hdec). exists data. split; [|done].
      simpl. by rewrite lookup_insert_ne.
    - by exists w0. }
  rewrite (bind_Returned _ _ _ _ _ Hrun1). clear Hrun1 Hdoc0 Hw0 w0.
  unfold mbind at 1, M_bind at 1, Stat_IsNotExist at 1.
  destruct Hdoc1 as (data & Hfile & Hdec).
  rewrite Hfile. rewrite bool_decide_eq_false_2 by done.
  destruct (ParseAppCatOutput_post tc (getAppcatOutputFolder tc)
              (getAnalysisOutputFolder tc) w1 doc)
    as (st & w2 & Hrun2 & Hst & _ & Hw2 & _); [by exists data|by right|].
  rewrite (bind_Returned _ _ _ _ _ Hrun2). cbv beta iota.
  rewrite !bind_Printf.
  set (w3 := add_log _ (add_log _ w2)).
  destruct (log_rows (λ rc, "  " +:+ rc.1 +:+ ": " +:+ itoa rc.2 +:+ LF)
              (range (ruleIncidentDetails st)) w3) as (w4 & Hrun4 & Hlog4).
  unfold mbind at 1, M_bind at 1.
  rewrite (forM_ext _ (λ rc (_ : unit),
                         Printf ("  " +:+ rc.1 +:+ ": " +:+ itoa rc.2 +:+ LF)))
    by (by intros [rule count] [] ?).
  rewrite Hrun4.
  destruct Hlog4 as (_ & Hw4 & _).
  unfold mbind at 1, M_bind at 1, Create at 1.
  rewrite bool_decide_eq_false_2
    by (rewrite Hw4; unfold w3; simpl; rewrite Hw2, Hw1; apply not_elem_of_empty).
  rewrite bind_mret.
  set (w5 := mkWorld _ _ _).
  unfold mbind at 1, M_bind at 1, WriteString at 1.
  unfold w5 at 1. simpl files. rewrite lookup_insert_eq.
  set (w6 := mkWorld _ _ _).
  destruct (write_rows (getIncidentsSummaryFile tc)
              (λ rc, rc.1 +:+ "," +:+ itoa rc.2 +:+ LF)
              (range (ruleIncidentDetails st)) (EmptyString +:+ ("Rule,Incidents" +:+ LF)) w6)
    as (w7 & Hrun7 & Hfile7 & _).
  { unfold w6. simpl. by rewrite lookup_insert_eq. }
  unfold mbind at 1, M_bind at 1.
  rewrite (forM_ext _ (λ rc (_ : unit),
                         WriteString (getIncidentsSummaryFile tc)
                                     (rc.1 +:+ "," +:+ itoa rc.2 +:+ LF)))
    by (by intros [rule count] [] ?).
  rewrite Hrun7.
  rewrite bind_Printf.
  exists st, (add_log ("[Analyze] Summary written to: " +:+ getIncidentsSummaryFile tc +:+ LF) w7).
  split; [done|]. split; [done|]. simpl. by rewrite Hfile7.
Qed.

(** X18. [RunAnalyze] on a document that decodes, with a writable file
    system: it returns the total and the per-rule counts of the document
    with a nil error, and leaves a summary file that holds the header
    [Rule,Incidents] followed by one line [rule,count] for every entry of
    the returned counts, in the order the map is visited. *)
Theorem RunAnalyze_writes_summary tc w doc :
  decodes_to w (getAppcatOutputFolder tc) doc →
  unwritable w = ∅ →
  getAnalysisOutputFolder tc ≠ filepath_Join (getAppcatOutputFolder tc) "output.yaml" →
  Z.of_nat (length (doc_incidents doc)) ≤ int_max →
  ∃ counts w',
    RunAnalyze tc w = Returned (Z.of_nat (length (doc_incidents doc)), counts, None) w' ∧
    (∀ rule, default 0 (counts !! rule) = rule_occurrences rule (doc_incidents doc)) ∧
    files w' !! getIncidentsSummaryFile tc =
      Some (Bytes (Text (concat_strings
        (("Rule,Incidents" +:+ LF) ::
         ((λ rc : string * Z, rc.1 +:+ "," +:+ itoa rc.2 +:+ LF) <$> range counts))))).
Proof.
  intros Hdoc Hw Hne Hfit.
  destruct (RunAnalyze_run tc w doc Hdoc Hw Hne) as (st & w' & Hst & Hrun & Hfile).
  destruct (record_incidents_counts (Name tc) _ Hfit) as (Htotal & Hcounts & _).
  rewrite <- Hst in Htotal, Hcounts.
  exists (ruleIncidentDetails st), w'. rewrite <- Htotal. split; [done|]. split; [|done].
  intros rule. rewrite Hcounts. by case_decide.
Qed.

End DriverExtras.

(** ** The table of the superseded driver *)

Section LegacyExtras.
Context `{RT : Runtime}.

Lemma Legacy_accumulate_all_rules analysed rule :
  is_Some (Legacy.accumulate_all analysed !! rule) ↔
  ∃ target rulesDetails,
    (target, rulesDetails) ∈ analysed ∧ is_Some (rulesDetails !! rule).
Proof.
  induction analysed as [|[t rd] l IH] using rev_ind.
  - unfold Legacy.accumulate_all. simpl. rewrite lookup_empty.
    split; [by intros [? ?]|]. intros (? & ? & Hin & _). by apply elem_of_nil in Hin.
  - rewrite Legacy_accumulate_all_snoc, Legacy_accumulate_lookup.
    destruct (rd !! rule) as [c|] eqn:Hc.
    + split; [intros _|by eauto].
      exists t, rd. split; [apply elem_of_app; right; by left|]. by rewrite Hc.
    + rewrite IH. split.
      * intros (target & r & Hin & Hs). exists target, r.
        split; [apply elem_of_app; by left|done].
      * intros (target & r & Hin & Hs).
        apply elem_of_app in Hin as [Hin|Hin%list_elem_of_singleton]; [by eauto|].
        simplify_eq. rewrite Hc in Hs. by destruct Hs.
Qed.

(** X19. The summary of the superseded stand-alone driver is a full rule
    by project table: when no project is listed twice, there is one row
    for every rule that some project reports and for no other, and the
    row of a rule holds, for every project in list order, the count the
    project reported for the rule, or [0] when it reported none. *)
Theorem Legacy_summary_table analysed :
  NoDup analysed.*1 →
  (∀ rule, rule ∈ (range (Legacy.accumulate_all analysed)).*1 ↔
           ∃ target rulesDetails,
             (target, rulesDetails) ∈ analysed ∧ is_Some (rulesDetails !! rule)) ∧
  NoDup (range (Legacy.accumulate_all analysed)).*1 ∧
  Legacy.summary_lines analysed.*1 (Legacy.accumulate_all analysed) =
    ("Rule," +:+ Join analysed.*1 "," +:+ LF) ::
    ((λ rt : string * gmap string Z,
        rt.1 +:+
        concat_strings ((λ tr : string * gmap string Z,
                           "," +:+ itoa (default 0 (tr.2 !! rt.1))) <$> analysed) +:+ LF)
       <$> range (Legacy.accumulate_all analysed)).
Proof.
  intros Hnd. split; [|split; [apply NoDup_range|]].
  - intros rule. rewrite <- Legacy_accumulate_all_rules.
    rewrite list_elem_of_fmap. split.
    + intros ([r h] & -> & Hin). apply elem_of_range in Hin. by exists h.
    + intros [h Hh]. exists (rule, h). split; [done|]. by apply elem_of_range.
  - unfold Legacy.summary_lines. f_equal. apply list_fmap_ext.
    intros i [rule targetHash] Hi. apply list_elem_of_lookup_2, elem_of_range in Hi.
    simpl. rewrite Legacy_summary_row_cells, string_app_assoc. do 3 f_equal.
    rewrite <- list_fmap_compose. apply list_fmap_ext.
    intros j [target rulesDetails] Hj. apply list_elem_of_lookup_2 in Hj. simpl.
    unfold legacy_cell. do 2 f_equal.
    pose proof (Legacy_accumulate_all_cell analysed rule target rulesDetails Hnd Hj)
      as Hcell.
    rewrite Hi in Hcell. simpl in Hcell. by rewrite Hcell.
Qed.

End LegacyExtras.

(** ** The report of the driver *)

Lemma write_lines {A} path (line : A → string) (l : list A) t w :
  files w !! path = Some (Bytes (Text t)) →
  ∃ w',
    forM l (λ x _, WriteString path (line x)) () w = Returned () w' ∧
    files w' !! path = Some (Bytes (Text (t +:+ concat_strings (line <$> l)))) ∧
    logs w' = logs w.
Proof.
  revert t w. induction l as [|x l IH]; intros t w Hfile.
  - exists w. by rewrite string_app_empty_r.
  - rewrite forM_cons. unfold mbind at 1, M_bind at 1, WriteString at 1. rewrite Hfile.
    set (w1 := mkWorld _ _ _).
    destruct (IH (t +:+ line x) w1) as (w' & Hrun & Hfile' & Hlogs).
    { unfold w1. simpl. by rewrite lookup_insert_eq. }
    exists w'. split; [done|]. split; [|done].
    rewrite Hfile'. simpl. by rewrite string_app_assoc.
Qed.

Section ReportExtras.
Context `{RT : Runtime}.

(** X20. The report of a run: whenever the driver gets past its loop and
    the report file can be created, the file holds the header line and
    then one message for every distinct project name (not one per test
    case), each followed by a line feed, each a message [Run] built for a
    test case of that name; otherwise the process has ended with
    status 1. *)
Theorem runAndReport_file testCases testOutputFilePath w :
  match runAndReport testCases testOutputFilePath w with
  | Returned _ w' =>
      ∃ testResults,
        dom testResults = list_to_set (Name <$> testCases) ∧
        (∀ name result, testResults !! name = Some result →
           ∃ testCase, testCase ∈ testCases ∧ Name testCase = name ∧
             if containsAction (ActionList testCase) ActionValidate
             then ∃ caseResults, result = Run_resultMessage testCase caseResults
             else result = "passed") ∧
        files w' !! testOutputFilePath =
          Some (Bytes (Text (concat_strings
            (("# AppCat Test Results" +:+ LF) ::
             ((λ kv : string * string, kv.2 +:+ LF) <$> range testResults)))))
  | Exited code _ => code = 1
  end.
Proof.
  unfold runAndReport, runTestCases.
  pose proof (ends_well_forM_runTestCase testCases ∅ w) as Hloop.
  unfold mbind at 1, M_bind at 1.
  destruct (forM testCases runTestCase ∅ w) as [testResults w1|code w1]; [|done].
  destruct Hloop as [Hdom Hval].
  unfold writeResults. unfold mbind at 1, M_bind at 1, Create at 1.
  case_bool_decide as Hw; [by rewrite bind_Fatalf|].
  rewrite bind_mret. set (w2 := mkWorld _ _ _).
  unfold mbind at 1, M_bind at 1, WriteString at 1.
  unfold w2 at 1. simpl files. rewrite lookup_insert_eq.
  set (w3 := mkWorld _ _ _).
  destruct (write_lines testOutputFilePath (λ kv : string * string, kv.2 +:+ LF)
              (range testResults) (EmptyString +:+ ("# AppCat Test Results" +:+ LF)) w3)
    as (w4 & Hrun & Hfile & _).
  { unfold w3. simpl. by rewrite lookup_insert_eq. }
  rewrite Hrun. exists testResults. split.
  - by rewrite Hdom, dom_empty_L, (left_id_L ∅ (∪)).
  - split; [|by rewrite Hfile].
    intros name result Hres.
    destruct (Hval name result Hres) as [Hempty|(tc & Htc & Hn & Hrep)]; [done|].
    by exists tc.
Qed.

End ReportExtras.

(** ** [initTesting] *)

Lemma Split_LF_nonempty s : Split_LF s ≠ [].
Proof.
  destruct s as [|c s]; simpl; [done|].
  destruct (Ascii.eqb c (Ascii.ascii_of_nat 10)); [done|]. by destruct (Split_LF s).
Qed.

(** Joining the pieces with line feeds gives the text back. *)
Lemma Split_LF_Join s : Join (Split_LF s) LF = s.
Proof.
  induction s as [|c s IH]; [done|]. simpl.
  pose proof (Split_LF_nonempty s) as Hne.
  destruct (Ascii.eqb c (Ascii.ascii_of_nat 10)) eqn:Hc.
  - apply Ascii.eqb_eq in Hc as ->.
    destruct (Split_LF s) as [|piece rest]; [done|].
    change (Join (EmptyString :: piece :: rest) LF)
      with (EmptyString +:+ LF +:+ Join (piece :: rest) LF).
    by rewrite IH.
  - destruct (Split_LF s) as [|piece [|piece' rest]]; [done| |].
    + simpl in *. by rewrite IH.
    + change (Join (String c piece :: piece' :: rest) LF)
        with (String c piece +:+ LF +:+ Join (piece' :: rest) LF).
      change (Join (piece :: piece' :: rest) LF)
        with (piece +:+ LF +:+ Join (piece' :: rest) LF) in IH.
      by rewrite <- IH.
Qed.

Section InitTestingExtras.
Context `{RT : Runtime}.
Context (TrimSpace : string → string) (string_of_bytes : FileData → string).



End InitTestingExtras.

(** An application folder that is out of reach is not reported as
    missing: [initTesting] goes on and returns the targets with a nil
    error. *)
Example initTesting_folder_out_of_reach :
  initTesting (RT := sample_runtime) sample_TrimSpace sample_string_of_bytes
    "afile/sub" "repos" "baseline" "out" "repos.txt" sample_out_of_reach_world =
  Returned (["proj1"; "proj2"], None) sample_out_of_reach_world.
Proof. vm_compute. reflexivity. Qed.

(** ** The global logger *)

Section LoggerExtras.
Context (OpenFile : string → error).

Lemma Init_calls_once later st errs :
  logger.once st = true →
  foldl (λ acc call,
           let '(st', err) := logger.Init OpenFile call.1 call.2 acc.1 in
           (st', acc.2 ++ [err]))
        (st, errs) later =
  (st, errs ++ ((λ _, None) <$> later)).
Proof.
  intros Honce. revert errs. induction later as [|call later IH]; intros errs; simpl.
  - by rewrite app_nil_r.
  - unfold logger.Init at 2. rewrite Honce. rewrite IH. by rewrite <- app_assoc.
Qed.

(** X22. Only the first call of [logger.Init] counts.  Every later call
    returns nil and changes nothing, whatever its arguments, also when
    the first call failed to open the log file: in that case [Get] panics
    for the rest of the run although the later calls of [Init] reported
    success.  When the first call succeeds, [Get] returns, from then on,
    the logger that writes to the file named in the first call, and to
    the console exactly when the first call asked for it. *)
Theorem Init_first_call_decides name console later :
  let first := logger.Init OpenFile name console logger.initial in
  let all := logger.Init_calls OpenFile ((name, console) :: later) logger.initial in
  all.1 = first.1 ∧
  all.2 = first.2 :: ((λ _, None) <$> later) ∧
  first.2 = OpenFile name ∧
  match OpenFile name with
  | Some _ => logger.Get all.1 = None
  | None =>
      logger.Get all.1 =
        Some (logger.mkLogger
                (logger.FileWriter name :: if console then [logger.Stdout] else [])
                "[GLOBAL] " 19)
  end.
Proof.
  intros first all.
  assert (logger.once first.1 = true) as Honce.
  { unfold first, logger.Init. simpl. by destruct (OpenFile name). }
  assert (all = (first.1, first.2 :: ((λ _, None) <$> later))) as Hall.
  { unfold all, logger.Init_calls. simpl foldl at 1. fold first.
    destruct first as [st err] eqn:Hfirst. simpl in *.
    by rewrite Init_calls_once. }
  rewrite Hall. simpl. split; [done|]. split; [done|].
  unfold first, logger.Init, logger.Get. simpl.
  destruct (OpenFile name); [done|]. split; [done|]. by destruct console.
Qed.

End LoggerExtras.

(** ** The further properties on the sample projects *)

Lemma ParseAppCatOutput_no_incidents_witness :
  decodes_to (RT := sample_runtime) sample_clean_world "out/proj5/appcat_output"
             sample_clean_doc ∧
  (∀ section violations rule violation,
     section ∈ sample_clean_doc → RuleSet.Violations section = Some violations →
     violations !! rule = Some violation → Violation.Incidents violation = []) ∧
  ∃ w', ParseAppCatOutput (RT := sample_runtime) (sample_case "proj5")
          "out/proj5/appcat_output" "out/proj5/analysis_output" sample_clean_world =
          Returned (∅, ∅, 0, None) w' ∧
        only_logged sample_clean_world w'.
Proof.
  assert (decodes_to (RT := sample_runtime) sample_clean_world "out/proj5/appcat_output"
                     sample_clean_doc) as Hdoc
    by (exists (YamlRuleSets sample_clean); split; vm_compute; reflexivity).
  assert (∀ section violations rule violation,
            section ∈ sample_clean_doc → RuleSet.Violations section = Some violations →
            violations !! rule = Some violation → Violation.Incidents violation = [])
    as Hclean.
  { intros section violations rule violation Hin Hv Hr.
    unfold sample_clean_doc, sample_clean in Hin. simpl in Hin.
    apply elem_of_cons in Hin as [->|Hin]; [by simpl in Hv|].
    apply list_elem_of_singleton in Hin as ->. simpl in Hv. simplify_eq.
    rewrite lookup_fmap in Hr.
    destruct (({["xss" := []]} : gmap string (list RawIncident.t)) !! rule)
      as [incs|] eqn:Hincs; [|done].
    apply lookup_singleton_Some in Hincs as [_ <-]. simpl in Hr. by simplify_eq. }
  split; [exact Hdoc|]. split; [exact Hclean|].
  exact (ParseAppCatOutput_no_incidents (RT := sample_runtime) (sample_case "proj5")
           "out/proj5/appcat_output" "out/proj5/analysis_output" sample_clean_world
           sample_clean_doc Hdoc Hclean).
Defined.

Lemma incidentKey_ignores_workspace_root_witness :
  ValidateIncident.RuleSet sample_first = ValidateIncident.RuleSet sample_second ∧
  ValidateIncident.Rule sample_first = ValidateIncident.Rule sample_second ∧
  ValidateIncident.LineNumber sample_first = ValidateIncident.LineNumber sample_second ∧
  ValidateIncident.Uri sample_first = "/repo/" +:+ "proj1" +:+ "/src/A.java" ∧
  ValidateIncident.Uri sample_second = "/ci/" +:+ "proj1" +:+ "/src/A.java" ∧
  Index (ValidateIncident.Uri sample_first) "proj1" = Z.of_nat (String.length "/repo/") ∧
  Index (ValidateIncident.Uri sample_second) "proj1" = Z.of_nat (String.length "/ci/") ∧
  incidentKey "proj1" sample_first = incidentKey "proj1" sample_second ∧
  incidentKey "proj1" sample_first =
    ValidateIncident.RuleSet sample_first +:+ "-" +:+
    ValidateIncident.Rule sample_first +:+ "-" +:+
    ("proj1" +:+ "/src/A.java") +:+ "-" +:+ itoa (ValidateIncident.LineNumber sample_first).
Proof.
  do 7 (split; [reflexivity|]).
  apply (incidentKey_ignores_workspace_root "proj1" sample_first sample_second
           "/repo/" "/ci/" "/src/A.java"); reflexivity.
Defined.

Lemma ParseAppCatOutput_result_ignores_persisting_witness :
  decodes_to (RT := sample_runtime) sample_persist_world "out/proj1/appcat_output"
             sample_current_doc ∧
  decodes_to (RT := reverse_runtime) sample_persist_world "out/proj1/appcat_output"
             sample_current_doc ∧
  Z.of_nat (length (doc_incidents (RT := sample_runtime) sample_current_doc)) ≤ int_max ∧
  ∃ details1 counts total w1,
    ParseAppCatOutput (RT := sample_runtime) (sample_case "proj1")
      "out/proj1/appcat_output" "out/proj1/analysis_output" sample_persist_world =
      Returned (details1, counts, total, None) w1 ∧
    ∃ details2 w2,
      ParseAppCatOutput (RT := reverse_runtime) (sample_case "proj1")
        "out/proj1/appcat_output" EmptyString sample_persist_world =
        Returned (details2, counts, total, None) w2 ∧
      dom details2 = dom details1 ∧
      (NoDup (incidentKey "proj1"
                <$> doc_incidents (RT := sample_runtime) sample_current_doc) →
       details2 = details1).
Proof.
  assert (decodes_to (RT := sample_runtime) sample_persist_world "out/proj1/appcat_output"
                     sample_current_doc) as Hdoc1
    by (exists (YamlRuleSets sample_current); split; vm_compute; reflexivity).
  assert (decodes_to (RT := reverse_runtime) sample_persist_world "out/proj1/appcat_output"
                     sample_current_doc) as Hdoc2
    by (exists (YamlRuleSets sample_current); split; vm_compute; reflexivity).
  assert (Z.of_nat (length (doc_incidents (RT := sample_runtime) sample_current_doc))
          ≤ int_max) as Hfit by (vm_compute; discriminate).
  split; [exact Hdoc1|]. split; [exact Hdoc2|]. split; [exact Hfit|].
  destruct (ParseAppCatOutput_post (RT := sample_runtime) (sample_case "proj1")
              "out/proj1/appcat_output" "out/proj1/analysis_output" sample_persist_world
              sample_current_doc Hdoc1) as (st1 & w1 & Hrun1 & _); [by right|].
  eexists _, _, _, w1. split; [exact Hrun1|].
  exact (proj2 (ParseAppCatOutput_result_ignores_persisting sample_runtime reverse_runtime
                  (sample_case "proj1") "out/proj1/appcat_output"
                  "out/proj1/analysis_output" sample_persist_world sample_current_doc
                  _ _ _ None w1 Hdoc1 Hdoc2 Hfit Hrun1)).
Defined.

Lemma ParseAppCatOutput_map_order_witness :
  decodes_to (RT := sample_runtime) sample_world "out/proj1/appcat_output"
             sample_current_doc ∧
  decodes_to (RT := reverse_runtime) sample_world "out/proj1/appcat_output"
             sample_current_doc ∧
  writes_ok EmptyString sample_world ∧
  writes_ok EmptyString sample_world ∧
  Z.of_nat (length (doc_incidents (RT := sample_runtime) sample_current_doc)) ≤ int_max ∧
  ∃ details1 details2 counts total w1' w2',
    ParseAppCatOutput (RT := sample_runtime) (sample_case "proj1")
      "out/proj1/appcat_output" EmptyString sample_world =
      Returned (details1, counts, total, None) w1' ∧
    ParseAppCatOutput (RT := reverse_runtime) (sample_case "proj1")
      "out/proj1/appcat_output" EmptyString sample_world =
      Returned (details2, counts, total, None) w2' ∧
    dom details1 = dom details2 ∧
    (NoDup (incidentKey "proj1" <$> doc_incidents (RT := sample_runtime) sample_current_doc) →
     details1 = details2).
Proof.
  split; [exists (YamlRuleSets sample_current); split; vm_compute; reflexivity|].
  split; [exists (YamlRuleSets sample_current); split; vm_compute; reflexivity|].
  split; [left; reflexivity|]. split; [left; reflexivity|].
  split; [vm_compute; discriminate|].
  apply (ParseAppCatOutput_map_order sample_runtime reverse_runtime (sample_case "proj1")
           "out/proj1/appcat_output" EmptyString sample_world sample_world
           sample_current_doc).
  - exists (YamlRuleSets sample_current); split; vm_compute; reflexivity.
  - exists (YamlRuleSets sample_current); split; vm_compute; reflexivity.
  - left; reflexivity.
  - left; reflexivity.
  - vm_compute; discriminate.
Defined.

Lemma Run_passes_iff_same_messages_witness :
  containsAction (ActionList (sample_validate_case "proj1")) ActionAnalyze = false ∧
  containsAction (ActionList (sample_validate_case "proj1")) ActionValidate = true ∧
  (if containsAction (ActionList (sample_validate_case "proj1")) ActionRun
   then RunAppCat (RT := sample_runtime) (sample_validate_case "proj1")
          sample_relocated_world = Returned (EmptyString, None) sample_relocated_world
   else sample_relocated_world = sample_relocated_world) ∧
  decodes_to (RT := sample_runtime) sample_relocated_world
    (BaseLineFolder (sample_validate_case "proj1")) sample_baseline_doc ∧
  decodes_to (RT := sample_runtime) sample_relocated_world
    (getAppcatOutputFolder (RT := sample_runtime) (sample_validate_case "proj1"))
    sample_relocated_doc ∧
  NoDup (incidentKey "proj1" <$> doc_incidents (RT := sample_runtime) sample_relocated_doc) ∧
  NoDup (incidentKey "proj1" <$> doc_incidents (RT := sample_runtime) sample_baseline_doc) ∧
  ∃ resultMessage w',
    Run (RT := sample_runtime) (sample_validate_case "proj1") sample_relocated_world =
      Returned (resultMessage, None) w' ∧
    (resultMessage = ItemResultFormat_PASS "proj1" ↔
     ∀ key message,
       (∃ v, v ∈ doc_incidents (RT := sample_runtime) sample_relocated_doc ∧
             incidentKey "proj1" v = key ∧ ValidateIncident.Message v = message) ↔
       (∃ v, v ∈ doc_incidents (RT := sample_runtime) sample_baseline_doc ∧
             incidentKey "proj1" v = key ∧ ValidateIncident.Message v = message)) ∧
    (resultMessage = ItemResultFormat_PASS "proj1" ↔
     ValidateIncident.Message <$> normalized_set (RT := sample_runtime) "proj1"
                                    sample_relocated_doc =
     ValidateIncident.Message <$> normalized_set (RT := sample_runtime) "proj1"
                                    sample_baseline_doc) ∧
    ∀ RT' : Runtime,
      normalized_set (RT := RT') "proj1" sample_relocated_doc =
        normalized_set (RT := sample_runtime) "proj1" sample_relocated_doc ∧
      normalized_set (RT := RT') "proj1" sample_baseline_doc =
        normalized_set (RT := sample_runtime) "proj1" sample_baseline_doc.
Proof.
  assert (NoDup (incidentKey "proj1"
                   <$> doc_incidents (RT := sample_runtime) sample_relocated_doc)) as Hndc
    by (apply (bool_decide_unpack _); vm_compute; exact I).
  assert (NoDup (incidentKey "proj1"
                   <$> doc_incidents (RT := sample_runtime) sample_baseline_doc)) as Hndb
    by (apply (bool_decide_unpack _); vm_compute; exact I).
  assert (decodes_to (RT := sample_runtime) sample_relocated_world
            (BaseLineFolder (sample_validate_case "proj1")) sample_baseline_doc) as Hbase
    by (exists (YamlRuleSets sample_baseline); split; vm_compute; reflexivity).
  assert (decodes_to (RT := sample_runtime) sample_relocated_world
            (getAppcatOutputFolder (RT := sample_runtime) (sample_validate_case "proj1"))
            sample_relocated_doc) as Hcur
    by (exists (YamlRuleSets sample_relocated); split; vm_compute; reflexivity).
  split; [reflexivity|]. split; [reflexivity|]. split; [reflexivity|].
  split; [exact Hbase|]. split; [exact Hcur|].
  split; [exact Hndc|]. split; [exact Hndb|].
  exact (Run_passes_iff_same_messages (RT := sample_runtime) (sample_validate_case "proj1")
           sample_relocated_world EmptyString sample_relocated_world
           sample_baseline_doc sample_relocated_doc
           eq_refl eq_refl eq_refl Hbase Hcur Hndc Hndb).
Defined.

Lemma RunAnalyze_writes_summary_witness :
  decodes_to (RT := sample_runtime) sample_world
    (getAppcatOutputFolder (RT := sample_runtime) (sample_case "proj1")) sample_current_doc ∧
  unwritable sample_world = ∅ ∧
  getAnalysisOutputFolder (RT := sample_runtime) (sample_case "proj1") ≠
    filepath_Join (Runtime := sample_runtime)
      (getAppcatOutputFolder (RT := sample_runtime) (sample_case "proj1")) "output.yaml" ∧
  Z.of_nat (length (doc_incidents (RT := sample_runtime) sample_current_doc)) ≤ int_max ∧
  ∃ counts w',
    RunAnalyze (RT := sample_runtime) (sample_case "proj1") sample_world =
      Returned (Z.of_nat (length (doc_incidents (RT := sample_runtime) sample_current_doc)),
                counts, None) w' ∧
    (∀ rule, default 0 (counts !! rule) =
             rule_occurrences rule (doc_incidents (RT := sample_runtime) sample_current_doc)) ∧
    files w' !! getIncidentsSummaryFile (RT := sample_runtime) (sample_case "proj1") =
      Some (Bytes (Text (concat_strings
        (("Rule,Incidents" +:+ LF) ::
         ((λ rc : string * Z, rc.1 +:+ "," +:+ itoa rc.2 +:+ LF)
            <$> range (Runtime := sample_runtime) counts))))).
Proof.
  split; [exists (YamlRuleSets sample_current); split; vm_compute; reflexivity|].
  split; [reflexivity|]. split; [vm_compute; discriminate|].
  split; [vm_compute; discriminate|].
  apply (RunAnalyze_writes_summary (RT := sample_runtime) (sample_case "proj1") sample_world
           sample_current_doc).
  - exists (YamlRuleSets sample_current); split; vm_compute; reflexivity.
  - reflexivity.
  - vm_compute; discriminate.
  - vm_compute; discriminate.
Defined.

Lemma Legacy_summary_table_witness :
  NoDup sample_analysed.*1 ∧
  (∀ rule, rule ∈ (range (Runtime := sample_runtime)
                     (Legacy.accumulate_all (RT := sample_runtime) sample_analysed)).*1 ↔
           ∃ target rulesDetails,
             (target, rulesDetails) ∈ sample_analysed ∧ is_Some (rulesDetails !! rule)) ∧
  NoDup (range (Runtime := sample_runtime)
           (Legacy.accumulate_all (RT := sample_runtime) sample_analysed)).*1 ∧
  Legacy.summary_lines (RT := sample_runtime) sample_analysed.*1
    (Legacy.accumulate_all (RT := sample_runtime) sample_analysed) =
    ("Rule," +:+ Join sample_analysed.*1 "," +:+ LF) ::
    ((λ rt : string * gmap string Z,
        rt.1 +:+
        concat_strings ((λ tr : string * gmap string Z,
                           "," +:+ itoa (default 0 (tr.2 !! rt.1))) <$> sample_analysed)
        +:+ LF)
       <$> range (Runtime := sample_runtime)
             (Legacy.accumulate_all (RT := sample_runtime) sample_analysed)).
Proof.
  assert (NoDup sample_analysed.*1) as Hnd.
  { simpl. apply NoDup_cons_2; [|apply NoDup_singleton].
    intros Hin. apply list_elem_of_singleton in Hin. discriminate. }
  split; [exact Hnd|].
  exact (Legacy_summary_table (RT := sample_runtime) sample_analysed Hnd).
Defined.

Lemma Run_passes_on_same_keyed_messages_witness :
  containsAction (ActionList (sample_validate_case "proj1")) ActionAnalyze = false ∧
  containsAction (ActionList (sample_validate_case "proj1")) ActionValidate = true ∧
  (if containsAction (ActionList (sample_validate_case "proj1")) ActionRun
   then RunAppCat (RT := sample_runtime) (sample_validate_case "proj1")
          sample_relocated_world = Returned (EmptyString, None) sample_relocated_world
   else sample_relocated_world = sample_relocated_world) ∧
  decodes_to (RT := sample_runtime) sample_relocated_world
    (BaseLineFolder (sample_validate_case "proj1")) sample_baseline_doc ∧
  decodes_to (RT := sample_runtime) sample_relocated_world
    (getAppcatOutputFolder (RT := sample_runtime) (sample_validate_case "proj1"))
    sample_relocated_doc ∧
  NoDup (incidentKey "proj1" <$> doc_incidents (RT := sample_runtime) sample_relocated_doc) ∧
  (λ v, (incidentKey "proj1" v, ValidateIncident.Message v))
    <$> doc_incidents (RT := sample_runtime) sample_relocated_doc ≡ₚ
  (λ v, (incidentKey "proj1" v, ValidateIncident.Message v))
    <$> doc_incidents (RT := sample_runtime) sample_baseline_doc ∧
  ∃ w', Run (RT := sample_runtime) (sample_validate_case "proj1") sample_relocated_world =
          Returned (ItemResultFormat_PASS "proj1", None) w'.
Proof.
  assert (NoDup (incidentKey "proj1"
                   <$> doc_incidents (RT := sample_runtime) sample_relocated_doc)) as Hnd
    by (apply (bool_decide_unpack _); vm_compute; exact I).
  assert ((λ v, (incidentKey "proj1" v, ValidateIncident.Message v))
            <$> doc_incidents (RT := sample_runtime) sample_relocated_doc ≡ₚ
          (λ v, (incidentKey "proj1" v, ValidateIncident.Message v))
            <$> doc_incidents (RT := sample_runtime) sample_baseline_doc) as Hperm
    by (vm_compute; reflexivity).
  split; [reflexivity|]. split; [reflexivity|]. split; [reflexivity|].
  split; [exists (YamlRuleSets sample_baseline); split; vm_compute; reflexivity|].
  split; [exists (YamlRuleSets sample_relocated); split; vm_compute; reflexivity|].
  split; [exact Hnd|]. split; [exact Hperm|].
  apply (Run_passes_on_same_keyed_messages (RT := sample_runtime)
           (sample_validate_case "proj1") sample_relocated_world EmptyString
           sample_relocated_world sample_baseline_doc sample_relocated_doc).
  - reflexivity.
  - reflexivity.
  - reflexivity.
  - exists (YamlRuleSets sample_baseline); split; vm_compute; reflexivity.
  - exists (YamlRuleSets sample_relocated); split; vm_compute; reflexivity.
  - exact Hnd.
  - exact Hperm.
Defined.
